(** * CrashMonkey epoch permuter: a shallow embedding of
      [code/permuter/Permuter.cpp] and the properties of its segmenter,
      overlap tracker, sector view and crash-state generator. *)

From stdpp Require Import base list gmap sets.
From Stdlib Require Import ZArith Lia Bool Sorted.

Local Open Scope Z_scope.

(** ** Machine integers *)

(** [unsigned int] is 32 bits wide: every value stored in one is reduced
    modulo [2^32]. *)
Definition u32 (z : Z) : Z := z mod 2 ^ 32.

(** [int] is a signed 32-bit value.  C++ leaves the overflow of [++] on it
    undefined; compiled code wraps around, and so does [s32]. *)
Definition s32 (z : Z) : Z := (z + 2 ^ 31) mod 2 ^ 32 - 2 ^ 31.

(** [std::chrono::nanoseconds] holds a signed 64-bit count; building one
    from the unsigned 64-bit [time_ns] reinterprets the bits, and the
    difference of two such counts is taken in 64 bits as well (undefined
    when it overflows; compiled code wraps around). *)
Definition s64 (z : Z) : Z := (z + 2 ^ 63) mod 2 ^ 64 - 2 ^ 63.

Definition kRetryMultiplier : Z := 2.
Definition kMinRetries : Z := 1000.
Definition kKernelSectorSize : Z := 512.
Definition kSoftEpochMaxDelayNs : Z := 2500000000.

(** ** The hash and the equality of the memo set *)

(** [BioVectorHash::operator()]: [seed] is an [unsigned int]. *)
Definition BioVectorHash (permutation : list Z) : Z :=
  fold_left
    (fun seed bio_pos =>
       Z.lxor seed
         (u32 (bio_pos + 2654435769 + u32 (Z.shiftl seed 6) + Z.shiftr seed 2)))
    permutation
    (u32 (Z.of_nat (length permutation))).

(** [BioVectorEqual::operator()]: equal sizes, then equal elements. *)
Fixpoint elements_equal (a b : list Z) : bool :=
  match a, b with
  | x :: a', y :: b' => if x =? y then elements_equal a' b' else false
  | _, _ => true
  end.

Definition BioVectorEqual (a b : list Z) : bool :=
  if negb (length a =? length b)%nat then false else elements_equal a b.

(** ** Data model *)

(** Modelled from the spec: the flag word of a recorded bio.  The header
    [utils.h] that declares [disk_write] and its flag macros is not part of
    the sources at hand; the specification describes the flags as the set of
    active bits among WRITE, FLUSH, FLUSH_SEQ, FUA, META and CHECKPOINT, with
    BARRIER standing for "FLUSH or FUA or FLUSH_SEQ". *)
Record flag_set : Type := mk_flags {
  WRITE : bool;
  FLUSH : bool;
  FLUSH_SEQ : bool;
  FUA : bool;
  META : bool;
  CHECKPOINT : bool
}.

(** Modelled from the spec: [disk_write_op_meta], the numeric part of a
    record: starting sector (in 512-byte kernel sectors), payload length in
    bytes, submission time in nanoseconds and the flag word. *)
Record disk_write_op_meta : Type := mk_meta {
  write_sector : Z;
  size : Z;
  time_ns : Z;
  bi_flags : flag_set
}.

(** Modelled from the spec: [disk_write], the metadata with the payload
    buffer ([get_data], emptied by [clear_data]). *)
Record disk_write : Type := mk_disk_write {
  metadata : disk_write_op_meta;
  data : list Z
}.

Definition has_write_flag (w : disk_write) : bool := WRITE (bi_flags (metadata w)).
Definition has_flush_flag (w : disk_write) : bool := FLUSH (bi_flags (metadata w)).
Definition has_flush_seq_flag (w : disk_write) : bool :=
  FLUSH_SEQ (bi_flags (metadata w)).
Definition has_FUA_flag (w : disk_write) : bool := FUA (bi_flags (metadata w)).
Definition is_meta (w : disk_write) : bool := META (bi_flags (metadata w)).
Definition is_checkpoint (w : disk_write) : bool :=
  CHECKPOINT (bi_flags (metadata w)).
Definition is_barrier (w : disk_write) : bool :=
  has_flush_flag w || has_FUA_flag w || has_flush_seq_flag w.

Definition set_flags (f : flag_set) (w : disk_write) : disk_write :=
  {| metadata := {| write_sector := write_sector (metadata w);
                    size := size (metadata w);
                    time_ns := time_ns (metadata w);
                    bi_flags := f |};
     data := data w |}.

Definition clear_flush_flag (w : disk_write) : disk_write :=
  let f := bi_flags (metadata w) in
  set_flags (mk_flags (WRITE f) false (FLUSH_SEQ f) (FUA f) (META f) (CHECKPOINT f)) w.

Definition clear_flush_seq_flag (w : disk_write) : disk_write :=
  let f := bi_flags (metadata w) in
  set_flags (mk_flags (WRITE f) (FLUSH f) false (FUA f) (META f) (CHECKPOINT f)) w.

Definition set_size (n : Z) (w : disk_write) : disk_write :=
  {| metadata := {| write_sector := write_sector (metadata w);
                    size := n;
                    time_ns := time_ns (metadata w);
                    bi_flags := bi_flags (metadata w) |};
     data := data w |}.

Definition clear_data (w : disk_write) : disk_write :=
  {| metadata := metadata w; data := [] |}.

(** [epoch_op]: a record with its position in the profile dump. *)
Record epoch_op : Type := mk_epoch_op {
  abs_index : Z;
  op : disk_write
}.

Record epoch : Type := mk_epoch {
  ops : list epoch_op;
  num_meta : Z;
  overlaps : bool;
  has_barrier : bool;
  checkpoint_epoch : Z
}.

(** [EpochOpSector]: the parent pointer is kept as the parent's value. *)
Record EpochOpSector : Type := mk_sector {
  parent : option epoch_op;
  parent_sector_index : Z;
  disk_offset : Z;
  max_sector_size : Z;
  sector_bytes : Z
}.

(** The default constructor [EpochOpSector()]. *)
Definition EpochOpSector_default : EpochOpSector :=
  mk_sector None 0 0 0 0.

(** Modelled from the spec: [DiskWriteData], the replayable output record
    [(is_whole_op, bio_index, bio_sector_index, disk_offset, size,
    shared_data_buffer, data_buffer_offset)]; its class lives in [utils.h]. *)
Record DiskWriteData : Type := mk_dwd {
  is_whole_op : bool;
  bio_index : Z;
  bio_sector_index : Z;
  dwd_disk_offset : Z;
  dwd_size : Z;
  dwd_data : list Z;
  data_buffer_offset : Z
}.

(** ** Epoch mutators used by the segmenters *)

Definition b2z (b : bool) : Z := if b then 1 else 0.

Definition push_back_op (o : epoch_op) (e : epoch) : epoch :=
  mk_epoch (ops e ++ [o]) (num_meta e) (overlaps e) (has_barrier e)
           (checkpoint_epoch e).

(** [num_meta += w.is_meta()]; the field counts ops of one epoch. *)
Definition add_num_meta (w : disk_write) (e : epoch) : epoch :=
  mk_epoch (ops e) (num_meta e + b2z (is_meta w)) (overlaps e) (has_barrier e)
           (checkpoint_epoch e).

Definition set_overlaps (b : bool) (e : epoch) : epoch :=
  mk_epoch (ops e) (num_meta e) b (has_barrier e) (checkpoint_epoch e).

Definition set_has_barrier (b : bool) (e : epoch) : epoch :=
  mk_epoch (ops e) (num_meta e) (overlaps e) b (checkpoint_epoch e).

Definition set_checkpoint_epoch (c : Z) (e : epoch) : epoch :=
  mk_epoch (ops e) (num_meta e) (overlaps e) (has_barrier e) c.

(** The epoch that [AddNewEpoch] leaves at the back of [epochs_]. *)
Definition fresh_epoch : epoch := mk_epoch [] 0 false false 0.

(** [Permuter::AddNewEpoch]: appends a cleared epoch and returns a pointer
    to it, here its index in the vector. *)
Definition AddNewEpoch (epochs : list epoch) : list epoch * nat :=
  (epochs ++ [fresh_epoch], length epochs).

(** ** Barrier splitting *)

Definition CanSplitBarrier (barrier_op : disk_write) : bool :=
  (has_flush_flag barrier_op || has_flush_seq_flag barrier_op)
  && has_write_flag barrier_op
  && negb (has_FUA_flag barrier_op)
  && (0 <? size (metadata barrier_op)).

Definition SplitBarrier (barrier_op : disk_write) : disk_write * disk_write :=
  let first := barrier_op in
  let second := barrier_op in
  let second := if has_flush_flag first then clear_flush_flag second else second in
  let second :=
    if has_flush_seq_flag first then clear_flush_seq_flag second else second in
  let first := set_size 0 first in
  let first := clear_data first in
  (first, second).

(** ** Overlap tracker *)

(** [Permuter::FindOverlapsAndInsert]: the scan over the list of ranges.
    [start] and [end_] are the two [unsigned int] locals; the branch that
    extends a range and the two insertions read [dw.metadata] again, as the
    source does, and store into [unsigned int] pairs. *)
Fixpoint scan_ranges (dw : disk_write) (start end_ : Z) (ranges : list (Z * Z))
  : bool * list (Z * Z) :=
  let new_range :=
    (u32 (write_sector (metadata dw)),
     u32 (write_sector (metadata dw) + size (metadata dw) - 1)) in
  match ranges with
  | [] => (false, [new_range])
  | (first, second) :: rest =>
      if ((first <=? start) && (start <=? second))
         || ((first <=? end_) && (end_ <=? second))
         || ((start <=? first) && (second <=? end_))
      then
        let first' :=
          if write_sector (metadata dw) <? first
          then u32 (write_sector (metadata dw)) else first in
        let end' := u32 (write_sector (metadata dw) + size (metadata dw) - 1) in
        let second' := if second <? end' then end' else second in
        (true, (first', second') :: rest)
      else if end_ <? first then
        (false, new_range :: (first, second) :: rest)
      else
        let '(found, rest') := scan_ranges dw start end_ rest in
        (found, (first, second) :: rest')
  end.

Definition FindOverlapsAndInsert (dw : disk_write) (ranges : list (Z * Z))
  : bool * list (Z * Z) :=
  let start := u32 (write_sector (metadata dw)) in
  let end_ := u32 (start + size (metadata dw) - 1) in
  scan_ranges dw start end_ ranges.

(** ** Segmentation *)

(** The locals of [InitDataVector] and [InitDataVectorSoft] together with
    the [epochs_] member they rebuild.  [current_epoch] is a pointer into
    [epochs_]: [None] stands for [NULL], [Some i] for the address of element
    [i].  [last_time_seen] is used by the soft variant only. *)
Record seg_state : Type := mk_seg {
  seg_epochs : list epoch;
  current_epoch : option nat;
  epoch_overlaps : list (Z * Z);
  curr_checkpoint_epoch : Z;
  seg_abs_index : Z;
  last_time_seen : Z
}.

(** A write through the [current_epoch] pointer. *)
Definition upd_current (f : epoch -> epoch) (st : seg_state) : seg_state :=
  match current_epoch st with
  | Some i =>
      mk_seg (alter f i (seg_epochs st)) (current_epoch st) (epoch_overlaps st)
             (curr_checkpoint_epoch st) (seg_abs_index st) (last_time_seen st)
  | None => st
  end.

(** [current_epoch = AddNewEpoch();] *)
Definition open_epoch (st : seg_state) : seg_state :=
  let '(epochs, p) := AddNewEpoch (seg_epochs st) in
  mk_seg epochs (Some p) (epoch_overlaps st) (curr_checkpoint_epoch st)
         (seg_abs_index st) (last_time_seen st).

Definition set_ranges (r : list (Z * Z)) (st : seg_state) : seg_state :=
  mk_seg (seg_epochs st) (current_epoch st) r (curr_checkpoint_epoch st)
         (seg_abs_index st) (last_time_seen st).

Definition set_current (p : option nat) (st : seg_state) : seg_state :=
  mk_seg (seg_epochs st) p (epoch_overlaps st) (curr_checkpoint_epoch st)
         (seg_abs_index st) (last_time_seen st).

(** [++curr_checkpoint_epoch;] on an [int] that starts at [-1] and counts
    the checkpoint records. *)
Definition incr_checkpoint (st : seg_state) : seg_state :=
  mk_seg (seg_epochs st) (current_epoch st) (epoch_overlaps st)
         (s32 (curr_checkpoint_epoch st + 1)) (seg_abs_index st)
         (last_time_seen st).

Definition incr_abs_index (st : seg_state) : seg_state :=
  mk_seg (seg_epochs st) (current_epoch st) (epoch_overlaps st)
         (curr_checkpoint_epoch st) (u32 (seg_abs_index st + 1))
         (last_time_seen st).

Definition set_last_time (t : Z) (st : seg_state) : seg_state :=
  mk_seg (seg_epochs st) (current_epoch st) (epoch_overlaps st)
         (curr_checkpoint_epoch st) (seg_abs_index st) t.

(** [current_epoch->checkpoint_epoch = curr_checkpoint_epoch;] *)
Definition stamp_checkpoint (st : seg_state) : seg_state :=
  upd_current (set_checkpoint_epoch (curr_checkpoint_epoch st)) st.

(** [current_epoch->ops.push_back({abs_index, w});
     current_epoch->num_meta += w.is_meta();] *)
Definition append_op (w : disk_write) (st : seg_state) : seg_state :=
  upd_current (add_num_meta w)
    (upd_current (push_back_op (mk_epoch_op (seg_abs_index st) w)) st).

(** [if (FindOverlapsAndInsert(w, epoch_overlaps))
       current_epoch->overlaps = true;] *)
Definition track_overlap (w : disk_write) (st : seg_state) : seg_state :=
  let '(found, ranges) := FindOverlapsAndInsert w (epoch_overlaps st) in
  let st := set_ranges ranges st in
  if found then upd_current (set_overlaps true) st else st.

(** The head of the outer loop of [InitDataVector]:
    [if (current_epoch == NULL) { current_epoch = AddNewEpoch();
     epoch_overlaps.clear(); current_epoch->checkpoint_epoch = ...; }] *)
Definition ensure_epoch (st : seg_state) : seg_state :=
  match current_epoch st with
  | None => stamp_checkpoint (set_ranges [] (open_epoch st))
  | Some _ => st
  end.

(** One record of the trace through the body of [InitDataVector].  The
    source nests a loop over the non-barrier records inside the loop over
    the trace.  [current_epoch] is [NULL] only at the head of the outer
    loop (at entry and after a barrier that was not split), and the outer
    loop is entered only while records remain, so opening the epoch there
    is the same as opening it before any record that finds the pointer
    [NULL]; a record then goes through the inner loop when it is not a
    barrier and through the barrier branch when it is. *)
Definition flag_step (st : seg_state) (curr_op : disk_write) : seg_state :=
  let st := ensure_epoch st in
  if negb (is_barrier curr_op) then
    if is_checkpoint curr_op then
      let st := incr_checkpoint st in
      let st := stamp_checkpoint st in
      incr_abs_index st
    else
      let st := track_overlap curr_op st in
      let st := append_op curr_op st in
      incr_abs_index st
  else if CanSplitBarrier curr_op then
    let split := SplitBarrier curr_op in
    let st := append_op (fst split) st in
    let st := upd_current (set_has_barrier true) st in
    let st := open_epoch st in
    let st := stamp_checkpoint st in
    let st := set_ranges [] st in
    let st := set_ranges (snd (FindOverlapsAndInsert (snd split) (epoch_overlaps st))) st in
    let st := append_op (snd split) st in
    incr_abs_index st
  else
    let st := append_op curr_op st in
    let st := upd_current (set_has_barrier true) st in
    let st := incr_abs_index st in
    set_current None st.

Definition flag_init : seg_state := mk_seg [] None [] (-1) 0 0.

(** [Permuter::InitDataVector]: the epochs it leaves in [epochs_]. *)
Definition InitDataVector (sector_size : Z) (trace : list disk_write)
  : list epoch :=
  seg_epochs (fold_left flag_step trace flag_init).

(** One record of the trace through the loop body of
    [InitDataVectorSoft].  [cur_time] and [last_time_seen] are
    [std::chrono::nanoseconds], signed 64-bit counts, and [diff] is their
    difference, a signed 64-bit count again. *)
Definition soft_step (st : seg_state) (curr_op : disk_write) : seg_state :=
  let st :=
    if is_checkpoint curr_op then
      let st := incr_checkpoint st in
      match current_epoch st ≫= (fun i => seg_epochs st !! i) with
      | Some e =>
          if (length (ops e) =? 0)%nat then stamp_checkpoint st else st
      | None => st
      end
    else if negb (is_barrier curr_op) then
      let cur_time := s64 (time_ns (metadata curr_op)) in
      let diff := s64 (cur_time - last_time_seen st) in
      let st :=
        if (0 <? last_time_seen st) && (kSoftEpochMaxDelayNs <=? diff) then
          stamp_checkpoint (set_ranges [] (open_epoch st))
        else st in
      let st := append_op curr_op st in
      let st := set_last_time (s64 (time_ns (metadata curr_op))) st in
      track_overlap curr_op st
    else
      let st :=
        if CanSplitBarrier curr_op then
          let split := SplitBarrier curr_op in
          let st := append_op (fst split) st in
          let st := upd_current (set_has_barrier true) st in
          let st := open_epoch st in
          let st := set_ranges [] st in
          let st := stamp_checkpoint st in
          let st :=
            set_ranges
              (snd (FindOverlapsAndInsert (snd split) (epoch_overlaps st))) st in
          append_op (snd split) st
        else
          let st := append_op curr_op st in
          let st := upd_current (set_has_barrier true) st in
          let st := open_epoch st in
          let st := set_ranges [] st in
          stamp_checkpoint st in
      set_last_time 0 st in
  incr_abs_index st.

Definition soft_init : seg_state :=
  open_epoch (mk_seg [] None [] (-1) 0 0).

(** The cleanup after the walk: drop an empty final epoch that carries the
    same checkpoint id as the one before it. *)
Definition drop_empty_tail (epochs : list epoch) : list epoch :=
  if (1 <? length epochs)%nat then
    match epochs !! (length epochs - 1)%nat, epochs !! (length epochs - 2)%nat with
    | Some last, Some prev =>
        if (checkpoint_epoch last =? checkpoint_epoch prev)
           && (length (ops last) =? 0)%nat
        then removelast epochs else epochs
    | _, _ => epochs
    end
  else epochs.

(** [Permuter::InitDataVectorSoft]: the epochs it leaves in [epochs_]. *)
Definition InitDataVectorSoft (sector_size : Z) (trace : list disk_write)
  : list epoch :=
  drop_empty_tail (seg_epochs (fold_left soft_step trace soft_init)).

(** ** The segmenters seen from the back of the epoch vector

    [current_epoch], when it is not [NULL], always points at the last
    element of [epochs_].  The proofs therefore follow the segmenters on a
    second form of their state, in which the epoch under construction is
    held apart from the epochs before it; [seg_view] relates the two forms
    and the steps below are shown to agree with [flag_step] and [soft_step]
    on related states. *)
Record seg_view : Type := mk_view {
  v_closed : list epoch;
  v_cur : option epoch;
  v_ranges : list (Z * Z);
  v_checkpoint : Z;
  v_abs_index : Z;
  v_last_time : Z
}.

Definition view_epochs (v : seg_view) : list epoch :=
  v_closed v ++ match v_cur v with Some e => [e] | None => [] end.

Definition seg_of_view (v : seg_view) : seg_state :=
  mk_seg (view_epochs v)
    (match v_cur v with Some _ => Some (length (v_closed v)) | None => None end)
    (v_ranges v) (v_checkpoint v) (v_abs_index v) (v_last_time v).

Definition add_op (i : Z) (w : disk_write) (e : epoch) : epoch :=
  add_num_meta w (push_back_op (mk_epoch_op i w) e).

Definition view_flag_step (v : seg_view) (curr_op : disk_write) : seg_view :=
  let cp := v_checkpoint v in
  let i := v_abs_index v in
  let cur :=
    match v_cur v with
    | Some e => e
    | None => set_checkpoint_epoch cp fresh_epoch
    end in
  let ranges := match v_cur v with Some _ => v_ranges v | None => [] end in
  if negb (is_barrier curr_op) then
    if is_checkpoint curr_op then
      mk_view (v_closed v) (Some (set_checkpoint_epoch (s32 (cp + 1)) cur))
        ranges (s32 (cp + 1)) (u32 (i + 1)) (v_last_time v)
    else
      let found := fst (FindOverlapsAndInsert curr_op ranges) in
      let ranges' := snd (FindOverlapsAndInsert curr_op ranges) in
      mk_view (v_closed v)
        (Some (add_op i curr_op
                 (if found then set_overlaps true cur else cur)))
        ranges' cp (u32 (i + 1)) (v_last_time v)
  else if CanSplitBarrier curr_op then
    let split := SplitBarrier curr_op in
    mk_view
      (v_closed v ++ [set_has_barrier true (add_op i (fst split) cur)])
      (Some (add_op i (snd split) (set_checkpoint_epoch cp fresh_epoch)))
      (snd (FindOverlapsAndInsert (snd split) []))
      cp (u32 (i + 1)) (v_last_time v)
  else
    mk_view
      (v_closed v ++ [set_has_barrier true (add_op i curr_op cur)])
      None ranges cp (u32 (i + 1)) (v_last_time v).

Definition view_flag_init : seg_view := mk_view [] None [] (-1) 0 0.

Definition view_soft_step (v : seg_view) (curr_op : disk_write) : seg_view :=
  match v_cur v with
  | None => v
  | Some cur =>
      let cp := v_checkpoint v in
      let i := v_abs_index v in
      if is_checkpoint curr_op then
        mk_view (v_closed v)
          (Some (if (length (ops cur) =? 0)%nat
                 then set_checkpoint_epoch (s32 (cp + 1)) cur else cur))
          (v_ranges v) (s32 (cp + 1)) (u32 (i + 1)) (v_last_time v)
      else if negb (is_barrier curr_op) then
        let t := s64 (time_ns (metadata curr_op)) in
        let gap :=
          (0 <? v_last_time v)
          && (kSoftEpochMaxDelayNs <=? s64 (t - v_last_time v)) in
        let closed := if gap then v_closed v ++ [cur] else v_closed v in
        let cur := if gap then set_checkpoint_epoch cp fresh_epoch else cur in
        let ranges := if gap then [] else v_ranges v in
        let found := fst (FindOverlapsAndInsert curr_op ranges) in
        let ranges' := snd (FindOverlapsAndInsert curr_op ranges) in
        let cur := add_op i curr_op cur in
        mk_view closed
          (Some (if found then set_overlaps true cur else cur))
          ranges' cp (u32 (i + 1)) t
      else if CanSplitBarrier curr_op then
        let split := SplitBarrier curr_op in
        mk_view
          (v_closed v ++ [set_has_barrier true (add_op i (fst split) cur)])
          (Some (add_op i (snd split) (set_checkpoint_epoch cp fresh_epoch)))
          (snd (FindOverlapsAndInsert (snd split) []))
          cp (u32 (i + 1)) 0
      else
        mk_view
          (v_closed v ++ [set_has_barrier true (add_op i curr_op cur)])
          (Some (set_checkpoint_epoch cp fresh_epoch))
          [] cp (u32 (i + 1)) 0
  end.

Definition view_soft_init : seg_view :=
  mk_view [] (Some fresh_epoch) [] (-1) 0 0.

(** ** Vocabulary of the statements about segmentation *)

(** The [abs_index] values of all ops, epoch after epoch. *)
Definition all_indices (epochs : list epoch) : list Z :=
  map abs_index (concat (map ops epochs)).

(** What the specification asks of those values for a trace whose records
    are numbered from [i]: a checkpoint leaves no index, a split barrier
    leaves its index twice, any other record once. *)
Fixpoint expected_indices (i : Z) (trace : list disk_write) : list Z :=
  match trace with
  | [] => []
  | r :: rest =>
      (if is_checkpoint r then []
       else if CanSplitBarrier r then [i; i]
       else [i])
      ++ expected_indices (i + 1) rest
  end.

(** The data-model invariant of the specification: a checkpoint record
    carries no barrier flag. *)
Definition checkpoint_wf (r : disk_write) : Prop :=
  is_checkpoint r = true -> is_barrier r = false.

(** Epoch [e'] was opened by a soft time gap after epoch [e]: the time of
    its first op minus the positive time of the last op of [e], taken in
    signed 64 bits as the segmenter takes it, is at least 2.5 s. *)
Definition soft_gap (e e' : epoch) : Prop :=
  exists a b,
    last (ops e) = Some a
    /\ head (ops e') = Some b
    /\ 0 < s64 (time_ns (metadata (op a)))
    /\ kSoftEpochMaxDelayNs
       <= s64 (s64 (time_ns (metadata (op b)))
               - s64 (time_ns (metadata (op a)))).

(** The same with the difference of the two times as it is: the first op
    of [e'] was submitted at least 2.5 s after the last op of [e]. *)
Definition soft_gap_exact (e e' : epoch) : Prop :=
  exists a b,
    last (ops e) = Some a
    /\ head (ops e') = Some b
    /\ 0 < s64 (time_ns (metadata (op a)))
    /\ kSoftEpochMaxDelayNs
       <= s64 (time_ns (metadata (op b))) - s64 (time_ns (metadata (op a))).

(** Every epoch with a successor was closed by a barrier or by a soft time
    gap. *)
Fixpoint closed_by_barrier_or_gap (epochs : list epoch) : Prop :=
  match epochs with
  | e :: ((e' :: _) as rest) =>
      (has_barrier e = true \/ soft_gap e e') /\ closed_by_barrier_or_gap rest
  | _ => True
  end.

(** *** Overlaps *)

(** The sector range of a write as the specification writes it,
    [[write_sector, write_sector + size - 1]], over the integers. *)
Definition op_lo (w : disk_write) : Z := write_sector (metadata w).
Definition op_hi (w : disk_write) : Z :=
  write_sector (metadata w) + size (metadata w) - 1.

(** Two ranges intersect when some sector lies in both. *)
Definition ranges_intersect (a b : disk_write) : Prop :=
  exists x, (op_lo a <= x <= op_hi a) /\ (op_lo b <= x <= op_hi b).

Definition ranges_intersect_b (a b : disk_write) : bool :=
  (Z.max (op_lo a) (op_lo b) <=? Z.min (op_hi a) (op_hi b)).

(** Some pair of distinct positions of the list holds intersecting
    ranges. *)
Definition has_overlapping_pair (l : list disk_write) : Prop :=
  exists (i j : nat) (a b : disk_write),
    i <> j /\ l !! i = Some a /\ l !! j = Some b /\ ranges_intersect a b.

(** A range that the 32-bit arithmetic of the tracker represents as it is:
    at least one sector long and ending below [2^32]. *)
Definition range_wf (w : disk_write) : Prop :=
  0 <= write_sector (metadata w)
  /\ 1 <= size (metadata w)
  /\ write_sector (metadata w) + size (metadata w) <= 2 ^ 32.

(** The ops of an epoch that went through [FindOverlapsAndInsert]: all of
    them but the barrier op that closed the epoch, which is its last op. *)
Definition tracked (e : epoch) : list disk_write :=
  map op (if has_barrier e then removelast (ops e) else ops e).

(** The overlap tracker in the words of the specification: scan in order;
    a range that intersects [[s, e]] is extended to
    [[min start s, max end e]]; a range that starts after [e] gets the new
    range inserted before it; at the end the new range is appended. *)
Fixpoint tracker_scan (s e : Z) (ranges : list (Z * Z)) : bool * list (Z * Z) :=
  match ranges with
  | [] => (false, [(s, e)])
  | (first, second) :: rest =>
      if ((first <=? s) && (s <=? second))
         || ((first <=? e) && (e <=? second))
         || ((s <=? first) && (second <=? e))
      then (true, (Z.min first s, Z.max second e) :: rest)
      else if e <? first then (false, (s, e) :: (first, second) :: rest)
      else (fst (tracker_scan s e rest), (first, second) :: snd (tracker_scan s e rest))
  end.

(** The list of ranges is ordered by start and each range is well formed. *)
Fixpoint sorted_from (lo : Z) (ranges : list (Z * Z)) : Prop :=
  match ranges with
  | [] => True
  | (first, second) :: rest =>
      lo <= first /\ first <= second /\ sorted_from first rest
  end.

(** What the tracker's list means for the writes [T] it was fed: ordered
    well-formed ranges that cover every write and contain no sector outside
    the writes. *)
Definition tracker_inv (T : list disk_write) (ranges : list (Z * Z)) : Prop :=
  sorted_from 0 ranges
  /\ (forall w, w ∈ T ->
                exists r, r ∈ ranges /\ fst r <= op_lo w /\ op_hi w <= snd r)
  /\ (forall r x, r ∈ ranges -> fst r <= x <= snd r ->
                  exists w, w ∈ T /\ op_lo w <= x <= op_hi w).

(** The overlap flag of an epoch says whether two of its tracked ops
    intersect. *)
Definition epoch_overlap_ok (e : epoch) : Prop :=
  Forall range_wf (tracked e) ->
  (overlaps e = true <-> has_overlapping_pair (tracked e)).

(** An epoch marked [has_barrier] ends with its barrier op. *)
Definition barrier_last (e : epoch) : Prop :=
  has_barrier e = true ->
  exists o, last (ops e) = Some o /\ is_barrier (op o) = true.

(** The epoch under construction and the tracker agree. *)
Definition cur_inv (cur : epoch) (ranges : list (Z * Z)) : Prop :=
  has_barrier cur = false
  /\ (Forall range_wf (map op (ops cur)) ->
      tracker_inv (map op (ops cur)) ranges
      /\ (overlaps cur = true <-> has_overlapping_pair (map op (ops cur)))).

(** What both walks keep true of their state. *)
Definition overlap_inv (v : seg_view) : Prop :=
  Forall (fun e => epoch_overlap_ok e /\ barrier_last e) (v_closed v)
  /\ match v_cur v with
     | Some cur => cur_inv cur (v_ranges v)
     | None => True
     end.

(** What the specification asks of the two halves of a split barrier. *)
Definition halves_of (b first second : disk_write) : Prop :=
  (size (metadata first) = 0
   /\ data first = []
   /\ bi_flags (metadata first) = bi_flags (metadata b)
   /\ has_flush_flag first || has_flush_seq_flag first = true
   /\ write_sector (metadata first) = write_sector (metadata b)
   /\ time_ns (metadata first) = time_ns (metadata b))
  /\ (data second = data b
      /\ size (metadata second) = size (metadata b)
      /\ write_sector (metadata second) = write_sector (metadata b)
      /\ time_ns (metadata second) = time_ns (metadata b)
      /\ has_flush_flag second = false
      /\ has_flush_seq_flag second = false
      /\ has_write_flag second = has_write_flag b
      /\ has_FUA_flag second = has_FUA_flag b
      /\ is_meta second = is_meta b
      /\ is_checkpoint second = is_checkpoint b).

(** A split barrier as it shows in the epoch vector.  The current epoch
    [cur] is the last epoch of [before] when that epoch is open, that is,
    has no barrier yet; it is an epoch without ops, opened for the barrier
    or dropped by the cleanup of the soft variant, only when [before] is
    empty or ends with an epoch that a barrier closed.  The current epoch
    receives the first half and the barrier mark, is otherwise unchanged
    and keeps its place; a new epoch after it holds the second half
    alone. *)
Definition split_across (before after : list epoch) (i : Z)
    (first second : disk_write) : Prop :=
  exists closed cur cur' new,
    ((before = closed ++ [cur] /\ has_barrier cur = false)
     \/ (before = closed /\ ops cur = []
         /\ forall p, last closed = Some p -> has_barrier p = true))
    /\ after = closed ++ [cur'; new]
    /\ cur' = set_has_barrier true (add_op i first cur)
    /\ ops cur' = ops cur ++ [mk_epoch_op i first]
    /\ has_barrier cur' = true
    /\ ops new = [mk_epoch_op i second]
    /\ has_barrier new = false.

(** A write joins the last epoch of [before]. *)
Definition joins_last (before after : list epoch) (o : epoch_op) : Prop :=
  exists closed cur cur',
    before = closed ++ [cur]
    /\ after = closed ++ [cur']
    /\ ops cur' = ops cur ++ [o].

(** Each statement of the segmenters, read on a state whose epoch under
    construction is held apart. *)
Definition here (closed : list epoch) (ranges : list (Z * Z)) (cp i lt : Z)
    (c : epoch) : seg_state :=
  seg_of_view (mk_view closed (Some c) ranges cp i lt).

(** What the soft walk keeps true of its state. *)
Definition soft_chain_inv (v : seg_view) : Prop :=
  exists cur,
    v_cur v = Some cur
    /\ closed_by_barrier_or_gap (v_closed v ++ [cur])
    /\ (0 < v_last_time v ->
        exists a, last (ops cur) = Some a
                  /\ v_last_time v = s64 (time_ns (metadata (op a)))).

(** A trace without checkpoint records. *)
Definition no_checkpoint (trace : list disk_write) : Prop :=
  Forall (fun r => is_checkpoint r = false) trace.

(** The indices one record adds. *)
Definition index_trace (i : Z) (w : disk_write) : list Z :=
  if is_checkpoint w then []
  else if CanSplitBarrier w then [i; i]
  else [i].

(** ** Scenarios of the specification, evaluated *)

Definition fl (w f fs fu m c : bool) : flag_set := mk_flags w f fs fu m c.
Definition F_WRITE : flag_set := fl true false false false false false.
Definition F_WRITE_FLUSH : flag_set := fl true true false false false false.
Definition F_WRITE_FUA : flag_set := fl true false false true false false.
Definition F_WRITE_FUA_FLUSH : flag_set := fl true true false true false false.
Definition F_FLUSH : flag_set := fl false true false false false false.
Definition F_CHECKPOINT : flag_set := fl false false false false false true.

Definition bio (sector len t : Z) (f : flag_set) (payload : list Z) : disk_write :=
  mk_disk_write (mk_meta sector len t f) payload.

(** ** Sector view and coalescing *)

(** What can stop a computation short of its value: an [assert] that does
    not hold (the source has one, in [InitDataVector], on a test that the
    loop before it has just made; no other function has any), the unsigned
    division by zero in [ToSectors], a [vector::at] outside the vector,
    and, for the loops modelled with an iteration budget, the budget
    running out. *)
Inductive failure : Type :=
  AssertFailed | DivideByZero | OutOfRange | OutOfFuel.

Inductive result (A : Type) : Type :=
| Ok (a : A)
| Err (f : failure).
Arguments Ok {A} a.
Arguments Err {A} f.

(** [vector::at] used as a store. *)
Definition store_at {A : Type} (i : nat) (x : A) (v : list A) : result (list A) :=
  if (i <? length v)%nat then Ok (<[i := x]> v) else Err OutOfRange.

(** [num_sectors] of [epoch_op::ToSectors], for a non-zero [sector_size]:
    [(op.metadata.size + (sector_size - 1)) / sector_size] in [unsigned int]
    arithmetic. *)
Definition num_sectors_of (this : epoch_op) (sector_size : Z) : Z :=
  u32 (size (metadata (op this)) + u32 (sector_size - 1)) / sector_size.

(** The sector that the loop of [epoch_op::ToSectors] builds at index
    [i]. *)
Definition sector_of (this : epoch_op) (sector_size num_sectors i : Z)
  : EpochOpSector :=
  let sz :=
    if i =? u32 (num_sectors - 1)
    then u32 (size (metadata (op this)) - u32 (i * sector_size))
    else sector_size in
  mk_sector (Some this) i
    (u32 (kKernelSectorSize * write_sector (metadata (op this))
          + i * sector_size))
    sector_size sz.

(** The loop of [epoch_op::ToSectors], entered with counter [i]. *)
Fixpoint ToSectors_loop (this : epoch_op) (sector_size num_sectors : Z)
    (fuel : nat) (i : Z) (res : list EpochOpSector)
  : result (list EpochOpSector) :=
  match fuel with
  | O => Err OutOfFuel
  | S fuel' =>
      if i <? num_sectors then
        match store_at (Z.to_nat i) (sector_of this sector_size num_sectors i)
                res with
        | Ok res' =>
            ToSectors_loop this sector_size num_sectors fuel' (u32 (i + 1)) res'
        | Err f => Err f
        end
      else Ok res
  end.

(** [epoch_op::ToSectors] with an iteration budget for its loop.  The
    unsigned division has no value for a zero divisor. *)
Definition ToSectors_fuel (fuel : nat) (this : epoch_op) (sector_size : Z)
  : result (list EpochOpSector) :=
  if sector_size =? 0 then Err DivideByZero
  else
    let num_sectors := num_sectors_of this sector_size in
    ToSectors_loop this sector_size num_sectors fuel 0
      (replicate (Z.to_nat num_sectors) EpochOpSector_default).

(** [epoch_op::ToSectors]: the loop body runs once per sector and the test
    once more, which is the budget given here. *)
Definition ToSectors (this : epoch_op) (sector_size : Z)
  : result (list EpochOpSector) :=
  ToSectors_fuel (S (Z.to_nat (num_sectors_of this sector_size))) this
    sector_size.

(** The backwards walk of [CoalesceSectors] over the sectors still to visit
    (given last to first). *)
Fixpoint Coalesce_loop (rev_sectors : list EpochOpSector)
    (res : list EpochOpSector) (num_unique_sectors : nat)
    (sector_offsets : gset Z)
  : result (list EpochOpSector * nat) :=
  match rev_sectors with
  | [] => Ok (res, num_unique_sectors)
  | s :: rest =>
      if decide (disk_offset s ∈ sector_offsets) then
        Coalesce_loop rest res num_unique_sectors sector_offsets
      else
        match store_at num_unique_sectors s res with
        | Ok res' =>
            Coalesce_loop rest res' (S num_unique_sectors)
              ({[disk_offset s]} ∪ sector_offsets)
        | Err f => Err f
        end
  end.

(** [Permuter::CoalesceSectors]. *)
Definition CoalesceSectors (sector_list : list EpochOpSector)
  : result (list EpochOpSector) :=
  match Coalesce_loop (rev sector_list)
          (replicate (length sector_list) EpochOpSector_default) 0%nat ∅ with
  | Ok (res, num_unique_sectors) => Ok (rev (take num_unique_sectors res))
  | Err f => Err f
  end.

(** The coalescer in the words of the specification: of the sectors that
    share a [disk_offset] only the latest in input order is kept, and the
    sectors kept stay in input order. *)
Fixpoint keep_latest (sectors : list EpochOpSector) : list EpochOpSector :=
  match sectors with
  | [] => []
  | s :: later =>
      if decide (disk_offset s ∈ map disk_offset later)
      then keep_latest later
      else s :: keep_latest later
  end.

(** The sectors accepted by the backwards walk, in the order of the walk. *)
Fixpoint walk_accepts (rev_sectors : list EpochOpSector) (seen : gset Z)
  : list EpochOpSector :=
  match rev_sectors with
  | [] => []
  | s :: rest =>
      if decide (disk_offset s ∈ seen) then walk_accepts rest seen
      else s :: walk_accepts rest ({[disk_offset s]} ∪ seen)
  end.

(** ** Crash-state generation *)

Definition u64 (z : Z) : Z := z mod 2 ^ 64.

#[global] Instance result_ret : MRet result := fun A a => Ok a.
#[global] Instance result_bind : MBind result :=
  fun A B k r =>
    match r with
    | Ok a => k a
    | Err f => Err f
    end.

(** The loop [for (unsigned int i = 0; i < src.size(); ++i)
      dst.at(i) = f(src.at(i));], entered with counter [i]. *)
Fixpoint copy_loop {A B : Type} (f : A -> B) (fuel : nat) (src : list A)
    (i : Z) (dst : list B) : result (list B) :=
  match fuel with
  | O => Err OutOfFuel
  | S fuel' =>
      if i <? Z.of_nat (length src) then
        match src !! Z.to_nat i with
        | Some a =>
            dst' ← store_at (Z.to_nat i) (f a) dst;
            copy_loop f fuel' src (u32 (i + 1)) dst'
        | None => Err OutOfRange
        end
      else Ok dst
  end.

(** [dst.resize(src.size())] on a cleared or fresh vector, then the loop.
    The budget covers one test per element and the closing test; a vector
    of [2^32] or more elements keeps the 32-bit counter below its size for
    ever, and the budget then runs out. *)
Definition copy_vector {A B : Type} (f : A -> B) (dflt : B) (src : list A)
  : result (list B) :=
  copy_loop f (S (length src)) src 0 (replicate (length src) dflt).

(** The loop that interleaves [bio_index] and [bio_sector_index] into the
    hash of a sector state, entered with counter [i]. *)
Fixpoint sector_hash_loop (fuel : nat) (res : list DiskWriteData) (i : Z)
    (hash : list Z) : result (list Z) :=
  match fuel with
  | O => Err OutOfFuel
  | S fuel' =>
      if i <? Z.of_nat (length res) then
        match res !! Z.to_nat i with
        | Some d =>
            h1 ← store_at (Z.to_nat (u32 (Z.shiftl i 1))) (bio_index d) hash;
            h2 ← store_at (Z.to_nat (u32 (u32 (Z.shiftl i 1) + 1)))
                    (bio_sector_index d) h1;
            sector_hash_loop fuel' res (u32 (i + 1)) h2
        | None => Err OutOfRange
        end
      else Ok hash
  end.

Definition sector_hash (res : list DiskWriteData) : result (list Z) :=
  sector_hash_loop (S (length res)) res 0 (replicate (length res * 2) 0).

(** [epoch_op::ToWriteData]. *)
Definition ToWriteData (o : epoch_op) : DiskWriteData :=
  mk_dwd true (abs_index o) 0
    (write_sector (metadata (op o)) * kKernelSectorSize)
    (size (metadata (op o))) (data (op o)) 0.

(** [EpochOpSector::ToWriteData]; a sector built by the default constructor
    has no parent to read. *)
Definition Sector_ToWriteData (s : EpochOpSector) : option DiskWriteData :=
  match parent s with
  | Some p =>
      Some (mk_dwd false (abs_index p) (parent_sector_index s) (disk_offset s)
              (sector_bytes s) (data (op p))
              (max_sector_size s * parent_sector_index s))
  | None => None
  end.

Definition DiskWriteData_default : DiskWriteData := mk_dwd false 0 0 0 0 [] 0.

(** Modelled from the spec: [PermuteTestResult], the log record of one
    crash state.  Its declaration is outside the sources at hand; the
    generator writes its [crash_state] field only, the other fields are
    carried along in [log_rest]. *)
Record PermuteTestResult (X : Type) : Type := mk_log {
  crash_state : list DiskWriteData;
  log_rest : X
}.
Arguments mk_log {X} _ _.
Arguments crash_state {X} _.
Arguments log_rest {X} _.

(** The pure virtual hooks of [Permuter], implemented by the reorder
    strategies.  [T] is the state a strategy keeps between calls (its random
    generator, its position in an enumeration).  A hook reads the epochs,
    rewrites the vector it is handed and may write to the log. *)
Class Strategy (T X : Type) : Type := {
  gen_one_state :
    T -> list epoch -> list epoch_op -> PermuteTestResult X ->
    bool * list epoch_op * PermuteTestResult X * T;
  gen_one_sector_state :
    T -> list epoch -> list DiskWriteData -> PermuteTestResult X ->
    bool * list DiskWriteData * PermuteTestResult X * T
}.

(** The members of [Permuter].  [completed_permutations_] is an
    [unordered_set] of [unsigned int] vectors under [BioVectorHash] and
    [BioVectorEqual], which is equality of vectors: a finite set of
    lists. *)
Record Permuter : Type := mk_permuter {
  sector_size_ : Z;
  epochs_ : list epoch;
  completed_permutations_ : gset (list Z)
}.

(** [max_retries], computed in [size_t] arithmetic at the entry of both
    generators. *)
Definition max_retries_of (memo : gset (list Z)) : Z :=
  if u64 (kRetryMultiplier * Z.of_nat (base.size memo)) <? kMinRetries
  then kMinRetries
  else u64 (kRetryMultiplier * Z.of_nat (base.size memo)).

(** [completed_permutations_.count(hash)]. *)
Definition memo_count (memo : gset (list Z)) (hash : list Z) : Z :=
  if decide (hash ∈ memo) then 1 else 0.

(** What is live when a proposal loop is left. *)
Record loop_exit (C T X : Type) : Type := mk_exit {
  exit_new_state : bool;
  exit_state : list C;
  exit_hash : list Z;
  exit_exists : Z;
  exit_retries : Z;
  exit_log : PermuteTestResult X;
  exit_strategy : T
}.
Arguments mk_exit {C T X} _ _ _ _ _ _ _.
Arguments exit_new_state {C T X} _.
Arguments exit_state {C T X} _.
Arguments exit_hash {C T X} _.
Arguments exit_exists {C T X} _.
Arguments exit_retries {C T X} _.
Arguments exit_log {C T X} _.
Arguments exit_strategy {C T X} _.

Section Generator.
Context {T X : Type} `{Strategy T X}.

(** The [do ... while (exists > 0)] loop of [GenerateCrashState]. *)
Fixpoint whole_loop (fuel : nat) (p : Permuter) (max_retries : Z)
    (st : T) (crash_state : list epoch_op) (log : PermuteTestResult X)
    (retries : Z) : result (loop_exit epoch_op T X) :=
  match fuel with
  | O => Err OutOfFuel
  | S fuel' =>
      let '(new_state, crash_state, log, st) :=
        gen_one_state st (epochs_ p) crash_state log in
      crash_state_hash ← copy_vector abs_index 0 crash_state;
      let retries := u64 (retries + 1) in
      let exists_ := memo_count (completed_permutations_ p) crash_state_hash in
      if negb new_state || (max_retries <=? retries) then
        Ok (mk_exit new_state crash_state crash_state_hash exists_ retries
              log st)
      else if 0 <? exists_ then
        whole_loop fuel' p max_retries st crash_state log retries
      else
        Ok (mk_exit new_state crash_state crash_state_hash exists_ retries
              log st)
  end.

(** The [do ... while (exists > 0)] loop of [GenerateSectorCrashState]. *)
Fixpoint sector_loop (fuel : nat) (p : Permuter) (max_retries : Z)
    (st : T) (res : list DiskWriteData) (log : PermuteTestResult X)
    (retries : Z) : result (loop_exit DiskWriteData T X) :=
  match fuel with
  | O => Err OutOfFuel
  | S fuel' =>
      let '(new_state, res, log, st) :=
        gen_one_sector_state st (epochs_ p) res log in
      crash_state_hash ← sector_hash res;
      let retries := u64 (retries + 1) in
      let exists_ := memo_count (completed_permutations_ p) crash_state_hash in
      if negb new_state || (max_retries <=? retries) then
        Ok (mk_exit new_state res crash_state_hash exists_ retries log st)
      else if 0 <? exists_ then
        sector_loop fuel' p max_retries st res log retries
      else
        Ok (mk_exit new_state res crash_state_hash exists_ retries log st)
  end.

Definition memo_insert (hash : list Z) (p : Permuter) : Permuter :=
  mk_permuter (sector_size_ p) (epochs_ p)
    ({[hash]} ∪ completed_permutations_ p).

Definition set_crash_state (res : list DiskWriteData)
    (log : PermuteTestResult X) : PermuteTestResult X :=
  mk_log res (log_rest log).

(** What a generator call leaves behind: the returned flag, the [res]
    vector, the log, the permuter and the strategy; and, for the
    statements below, the hash the call settled on and the number of
    proposals it asked for. *)
Record call_result : Type := mk_call {
  returned : bool;
  call_res : list DiskWriteData;
  call_log : PermuteTestResult X;
  call_permuter : Permuter;
  call_strategy : T;
  call_hash : list Z;
  call_retries : Z
}.

(** [Permuter::GenerateCrashState], with a budget for its proposal
    loop. *)
Definition GenerateCrashState_fuel (fuel : nat) (p : Permuter) (st : T)
    (res : list DiskWriteData) (log_data : PermuteTestResult X)
  : result call_result :=
  let max_retries := max_retries_of (completed_permutations_ p) in
  e ← whole_loop fuel p max_retries st [] log_data 0;
  res ← copy_vector ToWriteData DiskWriteData_default (exit_state e);
  let log_data := set_crash_state res (exit_log e) in
  if exit_exists e =? 0 then
    Ok (mk_call (exit_new_state e) res log_data
          (memo_insert (exit_hash e) p) (exit_strategy e)
          (exit_hash e) (exit_retries e))
  else
    Ok (mk_call false res log_data p (exit_strategy e)
          (exit_hash e) (exit_retries e)).

(** [Permuter::GenerateSectorCrashState], with a budget for its proposal
    loop. *)
Definition GenerateSectorCrashState_fuel (fuel : nat) (p : Permuter) (st : T)
    (res : list DiskWriteData) (log_data : PermuteTestResult X)
  : result call_result :=
  let max_retries := max_retries_of (completed_permutations_ p) in
  e ← sector_loop fuel p max_retries st res log_data 0;
  let res := exit_state e in
  let log_data := set_crash_state res (exit_log e) in
  if exit_exists e =? 0 then
    Ok (mk_call (exit_new_state e) res log_data
          (memo_insert (exit_hash e) p) (exit_strategy e)
          (exit_hash e) (exit_retries e))
  else
    Ok (mk_call false res log_data p (exit_strategy e)
          (exit_hash e) (exit_retries e)).

(** The two generators, their loops given the [max_retries] rounds that
    the retry counter allows. *)
Definition GenerateCrashState (p : Permuter) (st : T)
    (res : list DiskWriteData) (log_data : PermuteTestResult X)
  : result call_result :=
  GenerateCrashState_fuel
    (Z.to_nat (max_retries_of (completed_permutations_ p))) p st res log_data.

Definition GenerateSectorCrashState (p : Permuter) (st : T)
    (res : list DiskWriteData) (log_data : PermuteTestResult X)
  : result call_result :=
  GenerateSectorCrashState_fuel
    (Z.to_nat (max_retries_of (completed_permutations_ p))) p st res log_data.

(** What a caller may do with one [Permuter], in any order: ask for a
    crash state at either granularity, each time handing in a result
    vector and a log, or load a trace again with either segmenter. *)
Inductive call : Type :=
| CallGenerate (res : list DiskWriteData) (log_data : PermuteTestResult X)
| CallGenerateSector (res : list DiskWriteData)
    (log_data : PermuteTestResult X)
| CallInit (sector_size : Z) (trace : list disk_write)
| CallInitSoft (sector_size : Z) (trace : list disk_write).

Definition set_epochs (sector_size : Z) (epochs : list epoch) (p : Permuter)
  : Permuter :=
  mk_permuter sector_size epochs (completed_permutations_ p).

(** A sequence of calls on one instance; the outcome of each generator
    call is recorded with the granularity it was made at. *)
Fixpoint run_calls (calls : list call) (p : Permuter) (st : T)
  : result (list (bool * call_result) * Permuter * T) :=
  match calls with
  | [] => Ok ([], p, st)
  | c :: rest =>
      match c with
      | CallGenerate res log_data =>
          r ← GenerateCrashState p st res log_data;
          '(rs, p', st') ← run_calls rest (call_permuter r) (call_strategy r);
          Ok ((false, r) :: rs, p', st')
      | CallGenerateSector res log_data =>
          r ← GenerateSectorCrashState p st res log_data;
          '(rs, p', st') ← run_calls rest (call_permuter r) (call_strategy r);
          Ok ((true, r) :: rs, p', st')
      | CallInit sector_size trace =>
          run_calls rest
            (set_epochs sector_size (InitDataVector sector_size trace) p) st
      | CallInitSoft sector_size trace =>
          run_calls rest
            (set_epochs sector_size (InitDataVectorSoft sector_size trace) p)
            st
      end
  end.

(** The hashes of the calls that returned [true]. *)
Definition accepted_hashes (rs : list (bool * call_result)) : list (list Z) :=
  map (fun r => call_hash (snd r)) (filter (fun r => returned (snd r) = true) rs).

(** The hash of a crash state in sector mode, in the words of the
    specification: the pairs [(bio_index, bio_sector_index)],
    interleaved. *)
Definition interleaved_pairs (res : list DiskWriteData) : list Z :=
  flat_map (fun d => [bio_index d; bio_sector_index d]) res.

(** The strategy proposes vectors short enough for the 32-bit counters
    of the hash loops: below [2^32] ops, below [2^31] sector writes. *)
Definition proposals_bounded : Prop :=
  (forall st epochs crash_state log,
      Z.of_nat (length (snd (fst (fst (gen_one_state st epochs crash_state log)))))
      < 2 ^ 32)
  /\ (forall st epochs res log,
         Z.of_nat
           (length (snd (fst (fst (gen_one_sector_state st epochs res log)))))
         < 2 ^ 31).

(** Every sector proposal, and every whole-op proposal, hashes into the
    given memo set. *)
Definition sector_proposals_seen (memo : gset (list Z)) : Prop :=
  forall st epochs res log,
    exists h,
      sector_hash (snd (fst (fst (gen_one_sector_state st epochs res log))))
      = Ok h
      /\ h ∈ memo.

Definition whole_proposals_seen (memo : gset (list Z)) : Prop :=
  forall st epochs crash_state log,
    exists h,
      copy_vector abs_index 0
        (snd (fst (fst (gen_one_state st epochs crash_state log))))
      = Ok h
      /\ h ∈ memo.

(** The hash loops return on every proposal of the strategy. *)
Definition whole_hashable : Prop :=
  forall st epochs crash_state log,
    exists h,
      copy_vector abs_index 0
        (snd (fst (fst (gen_one_state st epochs crash_state log))))
      = Ok h.

Definition sector_hashable : Prop :=
  forall st epochs res log,
    exists h,
      sector_hash (snd (fst (fst (gen_one_sector_state st epochs res log))))
      = Ok h.

(** What one generator call does to the memo, and what its hash is. *)
Definition call_ok (sector : bool) (p : Permuter) (r : call_result) : Prop :=
  (returned r = true -> call_hash r ∉ completed_permutations_ p)
  /\ (call_hash r ∉ completed_permutations_ p ->
      completed_permutations_ (call_permuter r)
      = {[call_hash r]} ∪ completed_permutations_ p)
  /\ (call_hash r ∈ completed_permutations_ p ->
      call_permuter r = p /\ returned r = false)
  /\ (if sector
      then Z.of_nat (length (call_res r)) < 2 ^ 31 ->
           call_hash r = interleaved_pairs (call_res r)
      else call_hash r = map bio_index (call_res r)).

End Generator.

(** ** The proposals of one call *)

(** What a strategy hook hands back: the flag, the vector it rewrote, the
    log and its own state. *)
Definition proposed_flag {C T X : Type}
    (x : bool * list C * PermuteTestResult X * T) : bool := fst (fst (fst x)).
Definition proposed_state {C T X : Type}
    (x : bool * list C * PermuteTestResult X * T) : list C :=
  snd (fst (fst x)).
Definition proposed_log {C T X : Type}
    (x : bool * list C * PermuteTestResult X * T) : PermuteTestResult X :=
  snd (fst x).
Definition proposed_strategy {C T X : Type}
    (x : bool * list C * PermuteTestResult X * T) : T := snd x.

(** Proposal number [k], counted from 0, of a hook that is asked again and
    again: each call is handed the strategy state, the vector and the log
    that the call before left. *)
Fixpoint nth_proposal {C T X : Type}
    (hook : T -> list C -> PermuteTestResult X ->
            bool * list C * PermuteTestResult X * T)
    (k : nat) (st : T) (v : list C) (log : PermuteTestResult X)
  : bool * list C * PermuteTestResult X * T :=
  match k with
  | O => hook st v log
  | S k' =>
      let '(_, v', log', st') := hook st v log in
      nth_proposal hook k' st' v' log'
  end.

(** The shape that the two [do ... while (exists > 0)] loops share: the
    hook, the hash of its proposal, the retry count and the three ways
    out. *)
Fixpoint proposal_loop {C T X : Type}
    (hook : T -> list C -> PermuteTestResult X ->
            bool * list C * PermuteTestResult X * T)
    (hash : list C -> result (list Z)) (memo : gset (list Z)) (max_retries : Z)
    (fuel : nat) (st : T) (v : list C) (log : PermuteTestResult X)
    (retries : Z) : result (loop_exit C T X) :=
  match fuel with
  | O => Err OutOfFuel
  | S fuel' =>
      let '(new_state, v, log, st) := hook st v log in
      crash_state_hash ← hash v;
      let retries := u64 (retries + 1) in
      let exists_ := memo_count memo crash_state_hash in
      if negb new_state || (max_retries <=? retries) then
        Ok (mk_exit new_state v crash_state_hash exists_ retries log st)
      else if 0 <? exists_ then
        proposal_loop hook hash memo max_retries fuel' st v log retries
      else
        Ok (mk_exit new_state v crash_state_hash exists_ retries log st)
  end.

(** The proposals that a call of [GenerateCrashState], or of
    [GenerateSectorCrashState], on the permuter [p] gets from the strategy:
    the hook is asked on [epochs_ p], first with the state, the vector and
    the log the call starts from. *)
Definition whole_proposal {T X : Type} `{Strategy T X} (p : Permuter)
    (k : nat) (st : T) (crash_state : list epoch_op)
    (log : PermuteTestResult X)
  : bool * list epoch_op * PermuteTestResult X * T :=
  nth_proposal (fun st crash_state log =>
                  gen_one_state st (epochs_ p) crash_state log)
    k st crash_state log.

Definition sector_proposal {T X : Type} `{Strategy T X} (p : Permuter)
    (k : nat) (st : T) (res : list DiskWriteData) (log : PermuteTestResult X)
  : bool * list DiskWriteData * PermuteTestResult X * T :=
  nth_proposal (fun st res log =>
                  gen_one_sector_state st (epochs_ p) res log)
    k st res log.

(** A loop that goes through the proposals [proposal 0], [proposal 1], ...
    gets as far as asking for proposal [k]: every proposal before it came
    with the flag set and a hash that is in the memo. *)
Definition asked_for {C T X : Type} (memo : gset (list Z))
    (hash : list C -> result (list Z))
    (proposal : nat -> bool * list C * PermuteTestResult X * T) (k : nat)
  : Prop :=
  forall i : nat,
    (i < k)%nat ->
    proposed_flag (proposal i) = true
    /\ exists h,
         hash (proposed_state (proposal i)) = Ok h /\ h ∈ memo.

(** A loop that goes through the proposals [proposal 0], [proposal 1], ...
    stops at proposal [j]: every proposal before it came with the flag set
    and a hash that is in the memo, and proposal [j] comes with the flag
    cleared, or is the one that uses up the retries, or has a hash that is
    not in the memo. *)
Definition loop_stops_at {C T X : Type} (memo : gset (list Z))
    (max_retries : Z) (hash_of : list C -> list Z)
    (proposal : nat -> bool * list C * PermuteTestResult X * T) (j : nat)
  : Prop :=
  (forall i : nat,
      (i < j)%nat ->
      proposed_flag (proposal i) = true
      /\ hash_of (proposed_state (proposal i)) ∈ memo)
  /\ (proposed_flag (proposal j) = false
      \/ max_retries <= Z.of_nat (S j)
      \/ hash_of (proposed_state (proposal j)) ∉ memo).

(** What is live when the loop is left at proposal [j]: that proposal, its
    hash and its count in the memo, and one retry per proposal asked
    for. *)
Definition exit_at {C T X : Type} (memo : gset (list Z))
    (hash_of : list C -> list Z)
    (proposal : nat -> bool * list C * PermuteTestResult X * T) (j : nat)
  : loop_exit C T X :=
  mk_exit (proposed_flag (proposal j)) (proposed_state (proposal j))
    (hash_of (proposed_state (proposal j)))
    (memo_count memo (hash_of (proposed_state (proposal j))))
    (Z.of_nat (S j)) (proposed_log (proposal j))
    (proposed_strategy (proposal j)).

(** A strategy to evaluate the generators on: it proposes the same crash
    state every time, the two halves of a split barrier recorded at
    position 0 in whole-op mode, the first sector of that position in
    sector mode, and counts its proposals. *)
Definition sample_barrier : disk_write := bio 8 4096 0 F_WRITE_FLUSH [7].

#[global] Instance sample_strategy : Strategy nat unit := {|
  gen_one_state n _ _ log :=
    (true,
     [mk_epoch_op 0 (fst (SplitBarrier sample_barrier));
      mk_epoch_op 0 (snd (SplitBarrier sample_barrier))],
     log, S n);
  gen_one_sector_state n _ _ log :=
    (true, [mk_dwd false 0 0 4096 512 [7] 0], log, S n)
|}.

Definition sample_permuter : Permuter := mk_permuter 512 [] ∅.
Definition sample_log : PermuteTestResult unit := mk_log [] tt.

(** ** Vocabulary of the further properties *)

(** [BioVectorEqual::operator()] with its loop and checked reads:
    [for (unsigned int i = 0; i < a.size(); ++i)
       if (a.at(i) != b.at(i)) return false;]. *)
Fixpoint BioVectorEqual_loop (fuel : nat) (a b : list Z) (i : Z) : result bool :=
  match fuel with
  | O => Err OutOfFuel
  | S fuel' =>
      if i <? Z.of_nat (length a) then
        match a !! Z.to_nat i, b !! Z.to_nat i with
        | Some x, Some y =>
            if negb (x =? y) then Ok false
            else BioVectorEqual_loop fuel' a b (u32 (i + 1))
        | _, _ => Err OutOfRange
        end
      else Ok true
  end.

Definition BioVectorEqual_at (a b : list Z) : result bool :=
  if negb (length a =? length b)%nat then Ok false
  else BioVectorEqual_loop (S (length a)) a b 0.

(** The number of ops of a list that carry the META flag. *)
Definition meta_count (l : list epoch_op) : Z :=
  Z.of_nat (length (filter (fun o => is_meta (op o) = true) l)).

(** The number of epochs marked [has_barrier]. *)
Definition barrier_epochs (l : list epoch) : nat :=
  length (filter (fun e => has_barrier e = true) l).

(** The records that [InitDataVector] treats as barriers, and those that
    [InitDataVectorSoft] does: the soft variant looks at the checkpoint
    flag first. *)
Definition flag_barriers (trace : list disk_write) : nat :=
  length (filter (fun w => is_barrier w = true) trace).

Definition soft_barriers (trace : list disk_write) : nat :=
  length (filter (fun w => is_checkpoint w = false /\ is_barrier w = true)
            trace).

(** The records that [InitDataVector] treats as checkpoints. *)
Definition flag_checkpoints (trace : list disk_write) : Z :=
  Z.of_nat (length (filter (fun w => is_barrier w = false
                                     /\ is_checkpoint w = true) trace)).

(** Barrier ops sit only at the end of the epoch they close. *)
Definition barrier_only_last (e : epoch) : Prop :=
  forall (k : nat) (o : epoch_op),
    ops e !! k = Some o ->
    is_barrier (op o) = true ->
    has_barrier e = true /\ S k = length (ops e).

(** The tracker after a sequence of writes, starting empty. *)
Definition tracker_feed (T : list disk_write) : list (Z * Z) :=
  fold_left (fun ranges w => snd (FindOverlapsAndInsert w ranges)) T [].

(** The bytes of a list of sectors. *)
Definition total_bytes (sectors : list EpochOpSector) : Z :=
  fold_right Z.add 0 (map sector_bytes sectors).

(** A property [Qc] of the epochs left behind and a property [Qo] of the
    epoch under construction. *)
Definition epochs_inv (Qo Qc : epoch -> Prop) (v : seg_view) : Prop :=
  Forall Qc (v_closed v)
  /\ match v_cur v with Some cur => Qo cur | None => True end.

(** The epoch being filled has not seen its barrier yet. *)
Definition cur_open (v : seg_view) : Prop :=
  match v_cur v with Some c => has_barrier c = false | None => True end.

(** All ops of a list of epochs, epoch after epoch. *)
Definition all_ops (epochs : list epoch) : list epoch_op :=
  concat (map ops epochs).

(** The ops that the record at position [i] leaves in the epochs.  A
    record that a segmenter takes for a checkpoint leaves none: the soft
    one looks at the checkpoint flag first, the flag-only one only after
    the barrier test.  A barrier that can be split leaves its two halves,
    any other record itself. *)
Definition ops_of_record (soft : bool) (i : Z) (w : disk_write)
  : list epoch_op :=
  if (if soft then is_checkpoint w
      else negb (is_barrier w) && is_checkpoint w)
  then []
  else if CanSplitBarrier w
       then [mk_epoch_op i (fst (SplitBarrier w));
             mk_epoch_op i (snd (SplitBarrier w))]
       else [mk_epoch_op i w].

Fixpoint ops_of_trace (soft : bool) (i : Z) (trace : list disk_write)
  : list epoch_op :=
  match trace with
  | [] => []
  | w :: rest => ops_of_record soft i w ++ ops_of_trace soft (u32 (i + 1)) rest
  end.

(** The checkpoint id of an epoch that a barrier closed, for the flag-only
    segmenter: the checkpoints recorded before that barrier, counted from
    [-1].  The barrier is the last op of the epoch and its [abs_index] is
    its position in the trace [pre]. *)
Definition closed_id_ok (pre : list disk_write) (e : epoch) : Prop :=
  has_barrier e = true
  /\ exists o,
       last (ops e) = Some o
       /\ (Z.to_nat (abs_index o) < length pre)%nat
       /\ checkpoint_epoch e
          = flag_checkpoints (take (Z.to_nat (abs_index o)) pre) - 1.

(** What the flag-only walk keeps true of the checkpoint ids after the
    records [pre]. *)
Definition flag_id_inv (pre : list disk_write) (v : seg_view) : Prop :=
  v_abs_index v = Z.of_nat (length pre)
  /\ v_checkpoint v = flag_checkpoints pre - 1
  /\ Forall (closed_id_ok pre) (v_closed v)
  /\ match v_cur v with
     | Some c => has_barrier c = false /\ checkpoint_epoch c = v_checkpoint v
     | None => True
     end.

(** The ids of the epochs never decrease and stay between [-1] and the
    counter. *)
Definition flag_id_sorted (v : seg_view) : Prop :=
  StronglySorted Z.le (map checkpoint_epoch (v_closed v))
  /\ Forall (fun e => -1 <= checkpoint_epoch e <= v_checkpoint v) (v_closed v)
  /\ -1 <= v_checkpoint v
  /\ match v_cur v with
     | Some c => checkpoint_epoch c = v_checkpoint v
     | None => True
     end.

(** The records that [InitDataVectorSoft] treats as checkpoints. *)
Definition soft_checkpoints (trace : list disk_write) : Z :=
  Z.of_nat (length (filter (fun w => is_checkpoint w = true) trace)).

(** The checkpoint id that the soft segmenter has at hand after [n]
    checkpoints, counted from [-1]; the epoch opened at entry starts from
    the [0] that [AddNewEpoch] wrote. *)
Definition soft_id_of (first : bool) (n : Z) : Z :=
  if first then Z.max 0 (n - 1) else n - 1.

(** The checkpoint id of an epoch of the soft segmenter: fixed by the
    checkpoints recorded before its first op, or by all checkpoints of
    [pre] while it has no op. *)
Definition soft_id_ok (pre : list disk_write) (first : bool) (e : epoch)
  : Prop :=
  match head (ops e) with
  | Some o =>
      (Z.to_nat (abs_index o) < length pre)%nat
      /\ checkpoint_epoch e
         = soft_id_of first
             (soft_checkpoints (take (Z.to_nat (abs_index o)) pre))
  | None => checkpoint_epoch e = soft_id_of first (soft_checkpoints pre)
  end.

Definition soft_closed_ok (pre : list disk_write) (l : list epoch) : Prop :=
  forall (k : nat) (e : epoch),
    l !! k = Some e -> ops e <> [] /\ soft_id_ok pre (Nat.eqb k 0) e.

(** What the soft walk keeps true of the checkpoint ids after the records
    [pre]. *)
Definition soft_id_inv (pre : list disk_write) (v : seg_view) : Prop :=
  v_abs_index v = Z.of_nat (length pre)
  /\ v_checkpoint v = soft_checkpoints pre - 1
  /\ soft_closed_ok pre (v_closed v)
  /\ exists cur,
       v_cur v = Some cur
       /\ soft_id_ok pre (Nat.eqb (length (v_closed v)) 0) cur
       /\ (0 < v_last_time v -> ops cur <> []).

(** The strategy never reports that it ran out of states. *)
Definition always_new_state {T X : Type} `{Strategy T X} : Prop :=
  (forall st epochs crash_state log,
      fst (fst (fst (gen_one_state st epochs crash_state log))) = true)
  /\ (forall st epochs res log,
         fst (fst (fst (gen_one_sector_state st epochs res log))) = true).

(** The epochs [l'] continue the epochs [l]: every epoch of [l] is still
    at its position, with its ops and possibly more after them, and
    unchanged if a barrier had closed it. *)
Definition epochs_extend (l l' : list epoch) : Prop :=
  forall (k : nat) (e : epoch),
    l !! k = Some e ->
    exists e',
      l' !! k = Some e'
      /\ ops e `prefix_of` ops e'
      /\ (has_barrier e = true -> e' = e).

(** Whether the flag-only segmenter holds an open epoch after a trace: it
    does unless the trace is empty or ends with a barrier that is not
    split. *)
Definition flag_open_after (trace : list disk_write) : nat :=
  match last trace with
  | Some w => if is_barrier w && negb (CanSplitBarrier w) then 0 else 1
  | None => 0
  end.

(** Two epochs that differ at most in their checkpoint id. *)
Definition same_but_id (e e' : epoch) : Prop :=
  ops e = ops e'
  /\ num_meta e = num_meta e'
  /\ overlaps e = overlaps e'
  /\ has_barrier e = has_barrier e'.

(** An epoch that holds at least one op. *)
Definition has_ops (e : epoch) : Prop := (0 < length (ops e))%nat.

(** The record was submitted in the window of one soft-epoch delay that
    starts at [t0]. *)
Definition within_delay (t0 : Z) (w : disk_write) : Prop :=
  t0 <= s64 (time_ns (metadata w)) < t0 + kSoftEpochMaxDelayNs.

(** The two walks side by side on such a trace. *)
Definition agree_inv (t0 : Z) (vf vs : seg_view) : Prop :=
  Forall2 same_but_id (v_closed vf) (v_closed vs)
  /\ (exists cs,
        v_cur vs = Some cs
        /\ match v_cur vf with
           | Some cf => same_but_id cf cs /\ v_ranges vf = v_ranges vs
           | None => same_but_id fresh_epoch cs /\ v_ranges vs = []
           end)
  /\ v_abs_index vf = v_abs_index vs
  /\ (v_last_time vs = 0
      \/ t0 <= v_last_time vs < t0 + kSoftEpochMaxDelayNs).

(** * Properties *)

(** ** The equality of the memo set *)

Lemma elements_equal_eq (a b : list Z) :
  length a = length b -> (elements_equal a b = true <-> a = b).
Proof.
  revert b. induction a as [| x a IH]; intros [| y b] Hlen; cbn in *;
    try done.
  destruct (Z.eqb_spec x y) as [-> | Hne].
  - rewrite IH by lia. split; [by intros -> | by intros [= ->]].
  - split; [discriminate | by intros [= -> _]].
Qed.

Lemma BioVectorEqual_eq (a b : list Z) : BioVectorEqual a b = true <-> a = b.
Proof.
  unfold BioVectorEqual. destruct (Nat.eqb_spec (length a) (length b)) as [Hlen | Hlen]; cbn.
  - by apply elements_equal_eq.
  - split; [discriminate | by intros ->].
Qed.

(** ** Machine arithmetic *)

Lemma s64_small (z : Z) : - 2 ^ 63 <= z < 2 ^ 63 -> s64 z = z.
Proof. intros Hz. unfold s64. rewrite Z.mod_small by lia. lia. Qed.

Lemma s64_range (z : Z) : - 2 ^ 63 <= s64 z < 2 ^ 63.
Proof.
  unfold s64. pose proof (Z.mod_pos_bound (z + 2 ^ 63) (2 ^ 64)). lia.
Qed.

Lemma u32_small z : 0 <= z < 2 ^ 32 -> u32 z = z.
Proof. intros Hz. unfold u32. apply Z.mod_small. exact Hz. Qed.

Lemma u32_range z : 0 <= u32 z < 2 ^ 32.
Proof. unfold u32. apply Z.mod_pos_bound. lia. Qed.

Lemma u64_small z : 0 <= z < 2 ^ 64 -> u64 z = z.
Proof. intros Hz. unfold u64. apply Z.mod_small. exact Hz. Qed.

Lemma u64_range z : 0 <= u64 z < 2 ^ 64.
Proof. unfold u64. apply Z.mod_pos_bound. lia. Qed.

(** ** Sector view *)

Lemma store_at_Ok {A : Type} (i : nat) (x : A) (v : list A) :
  (i < length v)%nat -> store_at i x v = Ok (<[i := x]> v).
Proof.
  intros Hi. unfold store_at.
  destruct (Nat.ltb_spec i (length v)) as [_ | Hge]; [reflexivity | lia].
Qed.

Lemma store_at_frontier {A : Type} (done : list A) (d x : A) (k : nat) :
  store_at (length done) x (done ++ replicate (S k) d)
  = Ok ((done ++ [x]) ++ replicate k d).
Proof.
  rewrite store_at_Ok.
  - f_equal. rewrite insert_app_r_alt by lia.
    rewrite Nat.sub_diag. cbn. by rewrite <- app_assoc.
  - rewrite length_app, length_replicate. lia.
Qed.

Lemma seqZ_snoc (n : Z) : 0 <= n -> seqZ 0 (n + 1) = seqZ 0 n ++ [n].
Proof.
  intros Hn. rewrite seqZ_app by lia. f_equal.
Qed.

Lemma ToSectors_loop_spec this sector_size n :
  0 <= n < 2 ^ 32 ->
  forall fuel i,
    0 <= i <= n ->
    (Z.to_nat (n - i) < fuel)%nat ->
    ToSectors_loop this sector_size n fuel i
      (map (sector_of this sector_size n) (seqZ 0 i)
       ++ replicate (Z.to_nat (n - i)) EpochOpSector_default)
    = Ok (map (sector_of this sector_size n) (seqZ 0 n)).
Proof.
  intros Hn fuel. induction fuel as [| fuel IH]; intros i Hi Hfuel; [lia |].
  cbn [ToSectors_loop].
  destruct (Z.ltb_spec i n) as [Hlt | Hge].
  - replace (Z.to_nat (n - i)) with (S (Z.to_nat (n - (i + 1)))) by lia.
    replace (Z.to_nat i)
      with (length (map (sector_of this sector_size n) (seqZ 0 i))).
    2:{ rewrite length_map, length_seqZ. reflexivity. }
    rewrite store_at_frontier.
    rewrite (u32_small (i + 1)) by lia.
    specialize (IH (i + 1)).
    rewrite seqZ_snoc, map_app in IH by lia.
    apply IH; lia.
  - assert (i = n) as -> by lia.
    rewrite Z.sub_diag. cbn. by rewrite app_nil_r.
Qed.

Lemma num_sectors_of_range this sector_size :
  0 < sector_size -> 0 <= num_sectors_of this sector_size < 2 ^ 32.
Proof.
  intros Hss. unfold num_sectors_of.
  pose proof (u32_range (size (metadata (op this)) + u32 (sector_size - 1)))
    as Hr.
  split.
  - apply Z.div_pos; lia.
  - apply Z.div_lt_upper_bound; nia.
Qed.

Lemma ToSectors_Ok this sector_size :
  0 < sector_size ->
  ToSectors this sector_size
  = Ok (map (sector_of this sector_size (num_sectors_of this sector_size))
          (seqZ 0 (num_sectors_of this sector_size))).
Proof.
  intros Hss. unfold ToSectors, ToSectors_fuel.
  destruct (Z.eqb_spec sector_size 0) as [-> | _]; [lia |].
  fold (num_sectors_of this sector_size).
  pose proof (num_sectors_of_range this sector_size Hss) as Hn.
  pose proof (ToSectors_loop_spec this sector_size _ Hn
                (S (Z.to_nat (num_sectors_of this sector_size))) 0) as Hloop.
  rewrite Z.sub_0_r in Hloop. cbn [seqZ map app] in Hloop.
  change (seqZ 0 0) with (@nil Z) in Hloop. cbn [map app] in Hloop.
  apply Hloop; lia.
Qed.




(** ** Coalescing *)

Lemma Coalesce_loop_spec (todo : list EpochOpSector) :
  forall (acc : list EpochOpSector) (k : nat) (seen : gset Z),
    (length todo <= k)%nat ->
    Coalesce_loop todo (acc ++ replicate k EpochOpSector_default)
      (length acc) seen
    = Ok (acc ++ walk_accepts todo seen
          ++ replicate (k - length (walk_accepts todo seen))
               EpochOpSector_default,
          (length acc + length (walk_accepts todo seen))%nat).
Proof.
  induction todo as [| s rest IH]; intros acc k seen Hk; cbn.
  - by rewrite Nat.sub_0_r, Nat.add_0_r.
  - cbn in Hk. destruct (decide (disk_offset s ∈ seen)) as [Hin | Hnin].
    + apply IH. lia.
    + destruct k as [| k]; [lia |].
      rewrite store_at_frontier.
      replace (S (length acc)) with (length (acc ++ [s]))
        by (rewrite length_app; cbn; lia).
      rewrite IH by lia.
      rewrite <- !app_assoc, length_app. cbn.
      do 2 f_equal. lia.
Qed.

Lemma walk_accepts_app (a b : list EpochOpSector) :
  forall seen : gset Z,
    walk_accepts (a ++ b) seen
    = walk_accepts a seen
      ++ walk_accepts b (list_to_set (map disk_offset a) ∪ seen).
Proof.
  induction a as [| s a IH]; intros seen; cbn.
  - f_equal. set_solver.
  - destruct (decide (disk_offset s ∈ seen)) as [Hin | Hnin].
    + rewrite IH. do 2 f_equal. set_solver.
    + cbn. rewrite IH. do 3 f_equal. set_solver.
Qed.

Lemma elem_of_rev {A : Type} (x : A) (l : list A) : x ∈ rev l <-> x ∈ l.
Proof. rewrite !list_elem_of_In. symmetry. apply in_rev. Qed.

Lemma walk_accepts_rev (l : list EpochOpSector) :
  rev (walk_accepts (rev l) ∅) = keep_latest l.
Proof.
  induction l as [| s later IH]; [reflexivity |].
  cbn [rev keep_latest]. rewrite walk_accepts_app, rev_app_distr, IH.
  cbn [walk_accepts].
  destruct (decide (disk_offset s ∈ map disk_offset later)) as [Hin | Hnin].
  - rewrite decide_True; [reflexivity |].
    rewrite map_rev. apply elem_of_union_l, elem_of_list_to_set.
    by apply elem_of_rev.
  - rewrite decide_False; [reflexivity |].
    rewrite map_rev. intros Hin. apply Hnin.
    apply elem_of_union in Hin as [Hin | Hin].
    + apply elem_of_list_to_set in Hin. by rewrite elem_of_rev in Hin.
    + by apply not_elem_of_empty in Hin.
Qed.

Lemma CoalesceSectors_keep_latest (l : list EpochOpSector) :
  CoalesceSectors l = Ok (keep_latest l).
Proof.
  unfold CoalesceSectors.
  pose proof (Coalesce_loop_spec (rev l) [] (length l) ∅) as Hloop.
  cbn [app length] in Hloop. rewrite Hloop by (rewrite length_rev; lia).
  cbn [Nat.add]. rewrite take_app_length. f_equal. apply walk_accepts_rev.
Qed.

Lemma keep_latest_NoDup (l : list EpochOpSector) :
  NoDup (map disk_offset l) -> keep_latest l = l.
Proof.
  induction l as [| s later IH]; [reflexivity |].
  cbn. intros Hnd. apply NoDup_cons in Hnd as [Hnin Hnd].
  rewrite decide_False by exact Hnin. f_equal. by apply IH.
Qed.

Lemma keep_latest_app (a b : list EpochOpSector) :
  keep_latest (a ++ b)
  = filter (fun x => disk_offset x ∉ map disk_offset b) (keep_latest a)
    ++ keep_latest b.
Proof.
  induction a as [| x a IH]; [reflexivity |].
  cbn [app keep_latest]. rewrite map_app.
  destruct (decide (disk_offset x ∈ map disk_offset a)) as [Ha | Ha].
  - rewrite decide_True by (apply elem_of_app; auto). exact IH.
  - destruct (decide (disk_offset x ∈ map disk_offset b)) as [Hb | Hb].
    + rewrite decide_True by (apply elem_of_app; auto).
      rewrite filter_cons_False by tauto. exact IH.
    + rewrite decide_False by (rewrite elem_of_app; tauto).
      rewrite filter_cons_True by exact Hb. cbn. by rewrite IH.
Qed.

Lemma keep_latest_sublist (l : list EpochOpSector) : sublist (keep_latest l) l.
Proof.
  induction l as [| s later IH]; cbn; [constructor |].
  destruct (decide (disk_offset s ∈ map disk_offset later)).
  - by apply sublist_cons.
  - by apply sublist_skip.
Qed.

Lemma keep_latest_offsets (l : list EpochOpSector) (o : Z) :
  o ∈ map disk_offset (keep_latest l) <-> o ∈ map disk_offset l.
Proof.
  induction l as [| s later IH]; [reflexivity |].
  cbn [keep_latest map].
  destruct (decide (disk_offset s ∈ map disk_offset later)) as [Hin | Hnin].
  - rewrite IH, elem_of_cons. split; [tauto |]. intros [-> | H]; assumption.
  - cbn [map]. rewrite !elem_of_cons, IH. reflexivity.
Qed.

Lemma keep_latest_offsets_NoDup (l : list EpochOpSector) :
  NoDup (map disk_offset (keep_latest l)).
Proof.
  induction l as [| s later IH]; cbn; [constructor |].
  destruct (decide (disk_offset s ∈ map disk_offset later)) as [Hin | Hnin].
  - exact IH.
  - cbn. constructor; [| exact IH]. by rewrite keep_latest_offsets.
Qed.

Lemma sector_offsets_NoDup this sector_size :
  0 < sector_size ->
  NoDup (map disk_offset
           (map (sector_of this sector_size (num_sectors_of this sector_size))
              (seqZ 0 (num_sectors_of this sector_size)))).
Proof.
  intros Hss. rewrite map_map.
  apply (NoDup_fmap_2_strong
           (fun i => disk_offset
                       (sector_of this sector_size
                          (num_sectors_of this sector_size) i))).
  2: apply NoDup_seqZ.
  intros x y Hx Hy Heq. apply elem_of_seqZ in Hx, Hy. cbn in Heq.
  assert (num_sectors_of this sector_size * sector_size < 2 ^ 32) as Hbound.
  { unfold num_sectors_of.
    pose proof (u32_range (size (metadata (op this)) + u32 (sector_size - 1))).
    pose proof (Z.mul_div_le
                  (u32 (size (metadata (op this)) + u32 (sector_size - 1)))
                  sector_size Hss).
    lia. }
  unfold u32 in Heq.
  set (base := kKernelSectorSize * write_sector (metadata (op this))) in *.
  assert (((base + x * sector_size) - (base + y * sector_size)) mod 2 ^ 32 = 0)
    as Hdiff.
  { rewrite Zminus_mod, Heq, Z.sub_diag. reflexivity. }
  apply Z.mod_divide in Hdiff; [| lia]. destruct Hdiff as [q Hq].
  assert (q = 0) by nia. nia.
Qed.

(** C8.  [CoalesceSectors] never fails and returns [keep_latest]: a
    subsequence of its input, in input order, in which the sector at a
    position is kept exactly when no later sector has its [disk_offset], so
    that every offset of the input is left with its latest sector and no
    offset occurs twice.  For one op and a positive [sector_size], and so
    when the size is [k * sector_size], the sectors of [ToSectors] have
    pairwise distinct offsets and come back from [CoalesceSectors] as they
    are, [k] of them when the rounding sum does not leave 32 bits. *)
Theorem CoalesceSectors_latest_per_offset :
  (forall sectors : list EpochOpSector,
      CoalesceSectors sectors = Ok (keep_latest sectors)
      /\ sublist (keep_latest sectors) sectors
      /\ NoDup (map disk_offset (keep_latest sectors))
      /\ (forall o, o ∈ map disk_offset (keep_latest sectors)
                    <-> o ∈ map disk_offset sectors)
      /\ (forall before s later,
             sectors = before ++ s :: later ->
             keep_latest sectors
             = filter (fun x => disk_offset x ∉ map disk_offset (s :: later))
                 (keep_latest before)
               ++ (if decide (disk_offset s ∈ map disk_offset later)
                   then [] else [s])
               ++ keep_latest later))
  /\ (forall (this : epoch_op) (sector_size k : Z),
         0 < sector_size ->
         0 <= k ->
         size (metadata (op this)) = k * sector_size ->
         exists sectors,
           ToSectors this sector_size = Ok sectors
           /\ CoalesceSectors sectors = Ok sectors
           /\ NoDup (map disk_offset sectors)
           /\ (k * sector_size + sector_size <= 2 ^ 32 ->
               Z.of_nat (length sectors) = k)).
Proof.
  split.
  - intros sectors. split; [apply CoalesceSectors_keep_latest |].
    split; [apply keep_latest_sublist |].
    split; [apply keep_latest_offsets_NoDup |].
    split; [apply keep_latest_offsets |].
    intros before s later ->. rewrite keep_latest_app. f_equal.
    cbn [keep_latest]. by destruct (decide _).
  - intros this sector_size k Hss Hk Hsize. eexists.
    split; [apply ToSectors_Ok; exact Hss |].
    pose proof (sector_offsets_NoDup this sector_size Hss) as Hnd.
    split; [| split; [exact Hnd |]].
    + rewrite CoalesceSectors_keep_latest. f_equal.
      by apply keep_latest_NoDup.
    + intros Hfit. rewrite length_map, length_seqZ.
      pose proof (num_sectors_of_range this sector_size Hss).
      assert (num_sectors_of this sector_size = k) as Hnum; [| lia].
      unfold num_sectors_of. rewrite Hsize.
      rewrite (u32_small (sector_size - 1)) by lia.
      rewrite u32_small by nia.
      replace (k * sector_size + (sector_size - 1))
        with ((sector_size - 1) + k * sector_size) by lia.
      rewrite Z.div_add by lia. rewrite Z.div_small by lia. lia.
Qed.

Lemma CoalesceSectors_latest_per_offset_witness :
  exists sectors,
    ToSectors (mk_epoch_op 0 (bio 8 4096 0 F_WRITE [])) 512 = Ok sectors
    /\ CoalesceSectors sectors = Ok sectors
    /\ NoDup (map disk_offset sectors)
    /\ (8 * 512 + 512 <= 2 ^ 32 -> Z.of_nat (length sectors) = 8).
Proof.
  apply (proj2 CoalesceSectors_latest_per_offset
           (mk_epoch_op 0 (bio 8 4096 0 F_WRITE [])) 512 8).
  - lia.
  - lia.
  - reflexivity.
Defined.

(** ** The segmenters and their view from the back *)

Lemma alter_last {A : Type} (f : A -> A) (l : list A) (x : A) :
  alter f (length l) (l ++ [x]) = l ++ [f x].
Proof. induction l as [| y l IH]; cbn; [reflexivity | by rewrite IH]. Qed.

Lemma lookup_last {A : Type} (l : list A) (x : A) :
  (l ++ [x]) !! length l = Some x.
Proof. induction l as [| y l IH]; cbn; [reflexivity | exact IH]. Qed.

Ltac seg_cbn :=
  cbn [seg_epochs current_epoch epoch_overlaps curr_checkpoint_epoch
       seg_abs_index last_time_seen v_closed v_cur v_ranges v_checkpoint
       v_abs_index v_last_time fst snd negb andb mbind option_bind].

Lemma upd_current_view closed ranges cp i lt (f : epoch -> epoch) cur :
  upd_current f (here closed ranges cp i lt cur)
  = here closed ranges cp i lt (f cur).
Proof.
  unfold upd_current, here, seg_of_view, view_epochs. seg_cbn.
  by rewrite alter_last.
Qed.

Lemma open_epoch_view closed ranges cp i lt cur :
  open_epoch (here closed ranges cp i lt cur)
  = here (closed ++ [cur]) ranges cp i lt fresh_epoch.
Proof.
  unfold open_epoch, here, seg_of_view, view_epochs, AddNewEpoch. seg_cbn.
  by rewrite length_app, Nat.add_comm.
Qed.

Lemma open_epoch_view_null closed ranges cp i lt :
  open_epoch (seg_of_view (mk_view closed None ranges cp i lt))
  = here closed ranges cp i lt fresh_epoch.
Proof.
  unfold open_epoch, here, seg_of_view, view_epochs, AddNewEpoch. seg_cbn.
  by rewrite app_nil_r.
Qed.

Lemma set_ranges_view closed ranges cp i lt (r : list (Z * Z)) cur :
  set_ranges r (here closed ranges cp i lt cur) = here closed r cp i lt cur.
Proof. reflexivity. Qed.

Lemma set_current_null_view closed ranges cp i lt cur :
  set_current None (here closed ranges cp i lt cur)
  = seg_of_view (mk_view (closed ++ [cur]) None ranges cp i lt).
Proof.
  unfold set_current, here, seg_of_view, view_epochs. seg_cbn.
  by rewrite app_nil_r.
Qed.

Lemma incr_checkpoint_view closed ranges cp i lt cur :
  incr_checkpoint (here closed ranges cp i lt cur)
  = here closed ranges (s32 (cp + 1)) i lt cur.
Proof. reflexivity. Qed.

Lemma incr_abs_index_view closed ranges cp i lt cur :
  incr_abs_index (here closed ranges cp i lt cur)
  = here closed ranges cp (u32 (i + 1)) lt cur.
Proof. reflexivity. Qed.

Lemma set_last_time_view closed ranges cp i lt (t : Z) cur :
  set_last_time t (here closed ranges cp i lt cur)
  = here closed ranges cp i t cur.
Proof. reflexivity. Qed.

Lemma stamp_checkpoint_view closed ranges cp i lt cur :
  stamp_checkpoint (here closed ranges cp i lt cur)
  = here closed ranges cp i lt (set_checkpoint_epoch cp cur).
Proof. unfold stamp_checkpoint. apply upd_current_view. Qed.

Lemma append_op_view closed ranges cp i lt (w : disk_write) cur :
  append_op w (here closed ranges cp i lt cur)
  = here closed ranges cp i lt (add_op i w cur).
Proof.
  unfold append_op.
  change (seg_abs_index (here closed ranges cp i lt cur)) with i.
  by rewrite !upd_current_view.
Qed.

Lemma track_overlap_view closed ranges cp i lt (w : disk_write) cur :
  track_overlap w (here closed ranges cp i lt cur)
  = here closed (snd (FindOverlapsAndInsert w ranges)) cp i lt
      (if fst (FindOverlapsAndInsert w ranges)
       then set_overlaps true cur else cur).
Proof.
  unfold track_overlap.
  change (epoch_overlaps (here closed ranges cp i lt cur)) with ranges.
  destruct (FindOverlapsAndInsert w ranges) as [[|] r]; cbn [fst snd];
    rewrite set_ranges_view; [| reflexivity].
  apply upd_current_view.
Qed.

Lemma current_lookup_view closed ranges cp i lt cur :
  current_epoch (here closed ranges cp i lt cur)
    ≫= (fun k => seg_epochs (here closed ranges cp i lt cur) !! k)
  = Some cur.
Proof.
  unfold here, seg_of_view, view_epochs. seg_cbn. apply lookup_last.
Qed.

Ltac view_rewrite :=
  repeat first
    [ rewrite upd_current_view
    | rewrite open_epoch_view
    | rewrite open_epoch_view_null
    | rewrite set_ranges_view
    | rewrite set_current_null_view
    | rewrite incr_checkpoint_view
    | rewrite incr_abs_index_view
    | rewrite set_last_time_view
    | rewrite stamp_checkpoint_view
    | rewrite append_op_view
    | rewrite track_overlap_view
    | rewrite current_lookup_view ].

Lemma flag_step_view (v : seg_view) (w : disk_write) :
  flag_step (seg_of_view v) w = seg_of_view (view_flag_step v w).
Proof.
  destruct v as [closed cur ranges cp i lt].
  unfold flag_step, view_flag_step.
  cbn [v_cur v_closed v_ranges v_checkpoint v_abs_index v_last_time].
  assert (ensure_epoch (seg_of_view (mk_view closed cur ranges cp i lt))
          = here closed (match cur with Some _ => ranges | None => [] end)
              cp i lt
              (match cur with
               | Some e => e
               | None => set_checkpoint_epoch cp fresh_epoch
               end)) as ->.
  { unfold ensure_epoch. destruct cur as [e |]; [reflexivity |].
    change (current_epoch (seg_of_view _)) with (@None nat). cbn iota.
    by view_rewrite. }
  destruct (is_barrier w); cbn [negb].
  - destruct (CanSplitBarrier w); view_rewrite.
    + change (epoch_overlaps (here _ _ _ _ _ _)) with (@nil (Z * Z)).
      by view_rewrite.
    + reflexivity.
  - destruct (is_checkpoint w); view_rewrite.
    + reflexivity.
    + unfold add_op, here. by destruct (fst (FindOverlapsAndInsert w _)).
Qed.

Lemma soft_step_view (v : seg_view) (w : disk_write) :
  is_Some (v_cur v) ->
  soft_step (seg_of_view v) w = seg_of_view (view_soft_step v w)
  /\ is_Some (v_cur (view_soft_step v w)).
Proof.
  destruct v as [closed [cur |] ranges cp i lt]; intros [c Hc]; [| discriminate].
  clear c Hc.
  change (seg_of_view (mk_view closed (Some cur) ranges cp i lt))
    with (here closed ranges cp i lt cur).
  unfold soft_step, view_soft_step; cbn [v_cur].
  destruct (is_checkpoint w).
  { rewrite incr_checkpoint_view, current_lookup_view.
    destruct (length (ops cur) =? 0)%nat; view_rewrite; eauto. }
  destruct (is_barrier w); cbn [negb].
  { destruct (CanSplitBarrier w); view_rewrite.
    - change (epoch_overlaps (here _ _ _ _ _ _)) with (@nil (Z * Z)).
      view_rewrite. eauto.
    - eauto. }
  change (last_time_seen (here closed ranges cp i lt cur)) with lt.
  cbn [v_last_time v_closed v_ranges v_checkpoint v_abs_index].
  destruct ((0 <? lt)
            && (kSoftEpochMaxDelayNs <=? s64 (s64 (time_ns (metadata w)) - lt))).
  - view_rewrite. unfold add_op, here.
    destruct (fst (FindOverlapsAndInsert w [])); eauto.
  - view_rewrite. unfold add_op, here.
    destruct (fst (FindOverlapsAndInsert w ranges)); eauto.
Qed.

Lemma flag_run_view (trace : list disk_write) (v : seg_view) :
  fold_left flag_step trace (seg_of_view v)
  = seg_of_view (fold_left view_flag_step trace v).
Proof.
  revert v. induction trace as [| w rest IH]; intros v; [reflexivity |].
  cbn [fold_left]. rewrite flag_step_view. apply IH.
Qed.

Lemma soft_run_view (trace : list disk_write) (v : seg_view) :
  is_Some (v_cur v) ->
  fold_left soft_step trace (seg_of_view v)
  = seg_of_view (fold_left view_soft_step trace v)
  /\ is_Some (v_cur (fold_left view_soft_step trace v)).
Proof.
  revert v. induction trace as [| w rest IH]; intros v Hv; [by split |].
  cbn [fold_left]. destruct (soft_step_view v w Hv) as [-> Hv'].
  by apply IH.
Qed.

Lemma InitDataVector_view (sector_size : Z) (trace : list disk_write) :
  InitDataVector sector_size trace
  = view_epochs (fold_left view_flag_step trace view_flag_init).
Proof.
  unfold InitDataVector. change flag_init with (seg_of_view view_flag_init).
  by rewrite flag_run_view.
Qed.

Lemma InitDataVectorSoft_view (sector_size : Z) (trace : list disk_write) :
  InitDataVectorSoft sector_size trace
  = drop_empty_tail
      (view_epochs (fold_left view_soft_step trace view_soft_init))
  /\ is_Some (v_cur (fold_left view_soft_step trace view_soft_init)).
Proof.
  unfold InitDataVectorSoft.
  change soft_init with (seg_of_view view_soft_init).
  destruct (soft_run_view trace view_soft_init) as [-> Hv]; [by eexists |].
  by split.
Qed.

(** Induction over the states the flag-only walk goes through. *)
Lemma view_flag_run_ind (P : seg_view -> Prop) :
  (forall v w, P v -> P (view_flag_step v w)) ->
  forall trace v, P v -> P (fold_left view_flag_step trace v).
Proof.
  intros Hstep trace. induction trace as [| w rest IH]; intros v Hv; cbn; auto.
Qed.

(** Induction over the states the soft walk goes through. *)
Lemma view_soft_run_ind (P : seg_view -> Prop) :
  (forall v w, P v -> P (view_soft_step v w)) ->
  forall trace v, P v -> P (fold_left view_soft_step trace v).
Proof.
  intros Hstep trace. induction trace as [| w rest IH]; intros v Hv; cbn; auto.
Qed.

(** ** Epochs and the barriers that close them *)

Lemma drop_empty_tail_cases (closed : list epoch) (cur : epoch) :
  drop_empty_tail (closed ++ [cur]) = closed ++ [cur]
  \/ (drop_empty_tail (closed ++ [cur]) = closed /\ ops cur = []
      /\ exists prev, last closed = Some prev
                      /\ checkpoint_epoch prev = checkpoint_epoch cur).
Proof.
  unfold drop_empty_tail.
  destruct (1 <? length (closed ++ [cur]))%nat eqn:Hlen; [| by left].
  rewrite length_app in *. cbn [length] in *.
  replace (length closed + 1 - 1)%nat with (length closed) by lia.
  rewrite lookup_last.
  destruct ((closed ++ [cur]) !! (length closed + 1 - 2)%nat) as [prev |] eqn:Hprev;
    [| by left].
  destruct (checkpoint_epoch cur =? checkpoint_epoch prev) eqn:Hcp; [| by left].
  destruct (length (ops cur) =? 0)%nat eqn:Hops; [| by left].
  cbn [andb]. right. rewrite removelast_last. split; [reflexivity |].
  apply Nat.eqb_eq in Hops. apply Z.eqb_eq in Hcp. apply Nat.ltb_lt in Hlen.
  split; [by destruct (ops cur) |].
  exists prev. split; [| lia].
  rewrite lookup_app_l in Hprev by lia.
  rewrite last_lookup. rewrite <- Hprev. f_equal. lia.
Qed.

Lemma chain_snoc (l : list epoch) (c n : epoch) :
  closed_by_barrier_or_gap (l ++ [c]) ->
  has_barrier c = true \/ soft_gap c n ->
  closed_by_barrier_or_gap (l ++ [c; n]).
Proof.
  intros Hl Hlink. induction l as [| e l IH]; [cbn; tauto |].
  destruct l as [| e2 l].
  - cbn in *. tauto.
  - cbn [app closed_by_barrier_or_gap] in *. split; [tauto |].
    apply IH. tauto.
Qed.

Lemma chain_upd_last (l : list epoch) (c c' : epoch) :
  closed_by_barrier_or_gap (l ++ [c]) ->
  (forall b, head (ops c) = Some b -> head (ops c') = Some b) ->
  closed_by_barrier_or_gap (l ++ [c']).
Proof.
  intros Hl Hhead. induction l as [| e l IH]; [exact I |].
  destruct l as [| e2 l].
  - cbn in *. split; [| exact I]. destruct Hl as [[Hb | Hgap] _]; [by left |].
    right. destruct Hgap as (a & b & Ha & Hb & Ht). exists a, b. auto.
  - cbn [app closed_by_barrier_or_gap] in *. split; [tauto |].
    apply IH. tauto.
Qed.

Lemma chain_prefix (l : list epoch) (c : epoch) :
  closed_by_barrier_or_gap (l ++ [c]) -> closed_by_barrier_or_gap l.
Proof.
  induction l as [| e l IH]; [done |].
  destruct l as [| e2 l]; [done |].
  cbn [app closed_by_barrier_or_gap]. intros [Hlink Hrest].
  split; [exact Hlink |]. by apply IH.
Qed.

Lemma chain_lookup (l : list epoch) :
  closed_by_barrier_or_gap l ->
  forall (i : nat) (e e' : epoch),
    l !! i = Some e -> l !! S i = Some e' ->
    has_barrier e = true \/ soft_gap e e'.
Proof.
  induction l as [| x l IH]; intros Hl i e e' He He'; [done |].
  destruct l as [| y l]; [done |].
  destruct Hl as [Hlink Hrest].
  destruct i as [| i].
  - cbn in He, He'. by simplify_eq.
  - apply (IH Hrest i); assumption.
Qed.

Lemma head_snoc {A : Type} (l : list A) (x b : A) :
  head l = Some b -> head (l ++ [x]) = Some b.
Proof. by destruct l. Qed.

Lemma soft_chain_step (v : seg_view) (w : disk_write) :
  soft_chain_inv v -> soft_chain_inv (view_soft_step v w).
Proof.
  intros (cur & Hcur & Hchain & Htime).
  destruct v as [closed c ranges cp i lt]. cbn in Hcur, Hchain, Htime. subst c.
  unfold view_soft_step, soft_chain_inv.
  cbn [v_cur v_closed v_ranges v_checkpoint v_abs_index v_last_time].
  destruct (is_checkpoint w).
  { eexists. split; [reflexivity |]. cbn [v_closed v_last_time]. split.
    - eapply chain_upd_last; [exact Hchain |]. by destruct (_ =? _)%nat.
    - intros Hlt. destruct (Htime Hlt) as (a & Ha & Hlta). exists a.
      by destruct (_ =? _)%nat. }
  destruct (is_barrier w); cbn [negb].
  { destruct (CanSplitBarrier w);
      (eexists; split; [reflexivity |]; cbn [v_closed v_last_time]; split;
       [| lia]);
      rewrite <- app_assoc; cbn [app];
      (apply chain_snoc; [| by left]);
      (eapply chain_upd_last; [exact Hchain |]);
      intros b Hb; cbn; by apply head_snoc. }
  destruct ((0 <? lt)
            && (kSoftEpochMaxDelayNs <=? s64 (s64 (time_ns (metadata w)) - lt)))
    eqn:Hgap.
  - apply andb_true_iff in Hgap as [Hpos Hdelay].
    apply Z.ltb_lt in Hpos. apply Z.leb_le in Hdelay.
    destruct (Htime Hpos) as (a & Ha & Hlta).
    eexists. split; [reflexivity |]. cbn [v_closed v_last_time]. split.
    + rewrite <- app_assoc. cbn [app]. apply chain_snoc; [exact Hchain |].
      right. exists a, (mk_epoch_op i w).
      split; [exact Ha |]. split; [by destruct (fst _) |].
      cbn. rewrite <- Hlta. split; [lia | exact Hdelay].
    + intros _. exists (mk_epoch_op i w). split; [| reflexivity].
      destruct (fst _); cbn; rewrite ?last_snoc; reflexivity.
  - eexists. split; [reflexivity |]. cbn [v_closed v_last_time]. split.
    + eapply chain_upd_last; [exact Hchain |].
      intros b Hb. destruct (fst _); cbn; by apply head_snoc.
    + intros _. exists (mk_epoch_op i w). split; [| reflexivity].
      destruct (fst _); cbn; rewrite ?last_snoc; reflexivity.
Qed.

Lemma soft_chain_run (trace : list disk_write) :
  soft_chain_inv (fold_left view_soft_step trace view_soft_init).
Proof.
  apply (view_soft_run_ind soft_chain_inv); [apply soft_chain_step |].
  exists fresh_epoch. split; [reflexivity |]. split; [exact I |].
  cbn. lia.
Qed.

Lemma flag_closed_step (v : seg_view) (w : disk_write) :
  Forall (fun e => has_barrier e = true) (v_closed v) ->
  Forall (fun e => has_barrier e = true) (v_closed (view_flag_step v w)).
Proof.
  intros Hv. unfold view_flag_step.
  destruct (is_barrier w), (is_checkpoint w); cbn [negb];
    try destruct (CanSplitBarrier w); cbn [v_closed]; try exact Hv.
  all: apply Forall_app; split; [exact Hv |]; by repeat constructor.
Qed.

Lemma soft_gap_is_exact (e e' : epoch) (b : epoch_op) :
  soft_gap e e' ->
  head (ops e') = Some b ->
  0 <= s64 (time_ns (metadata (op b))) ->
  soft_gap_exact e e'.
Proof.
  intros (a & b' & Ha & Hb' & Hpos & Hdelay) Hb Hnn.
  assert (b' = b) as -> by congruence.
  exists a, b. repeat split; try assumption.
  pose proof (s64_range (time_ns (metadata (op a)))) as Hra.
  pose proof (s64_range (time_ns (metadata (op b)))) as Hrb.
  rewrite s64_small in Hdelay by lia. exact Hdelay.
Qed.

(** C6 as the code has it.  After flag-only segmentation every epoch but
    the last has [has_barrier = true].  After soft segmentation an epoch
    with a successor has [has_barrier = true] or was closed by a soft time
    gap: the time of the first op of its successor minus the positive time
    of its own last op, taken in signed 64 bits as the segmenter takes it,
    is at least 2.5 s.  When the time stamp of that first op is below
    [2^63] ns the difference is exact: the op was submitted at least 2.5 s
    after the last op of the epoch. *)
Theorem epochs_closed_by_barrier_or_gap (sector_size : Z)
    (trace : list disk_write) :
  (forall (i : nat) (e : epoch),
      InitDataVector sector_size trace !! i = Some e ->
      (S i < length (InitDataVector sector_size trace))%nat ->
      has_barrier e = true)
  /\ (forall (i : nat) (e e' : epoch),
         InitDataVectorSoft sector_size trace !! i = Some e ->
         InitDataVectorSoft sector_size trace !! S i = Some e' ->
         has_barrier e = true \/ soft_gap e e')
  /\ (forall (i : nat) (e e' : epoch) (b : epoch_op),
         InitDataVectorSoft sector_size trace !! i = Some e ->
         InitDataVectorSoft sector_size trace !! S i = Some e' ->
         head (ops e') = Some b ->
         0 <= s64 (time_ns (metadata (op b))) ->
         has_barrier e = true \/ soft_gap_exact e e').
Proof.
  assert (forall (i : nat) (e e' : epoch),
             InitDataVectorSoft sector_size trace !! i = Some e ->
             InitDataVectorSoft sector_size trace !! S i = Some e' ->
             has_barrier e = true \/ soft_gap e e') as Hsoft.
  { destruct (InitDataVectorSoft_view sector_size trace) as [-> _].
    destruct (soft_chain_run trace) as (cur & Hcur & Hchain & _).
    unfold view_epochs. rewrite Hcur.
    apply chain_lookup.
    destruct (drop_empty_tail_cases
                (v_closed (fold_left view_soft_step trace view_soft_init)) cur)
      as [-> | (-> & _)]; [exact Hchain |].
    by apply chain_prefix in Hchain. }
  split; [| split; [exact Hsoft |]].
  - rewrite InitDataVector_view. intros i e He Hlen.
    assert (Forall (fun e => has_barrier e = true)
              (v_closed (fold_left view_flag_step trace view_flag_init)))
      as Hclosed.
    { apply (view_flag_run_ind
               (fun v => Forall (fun e => has_barrier e = true) (v_closed v)));
        [apply flag_closed_step | constructor]. }
    unfold view_epochs in *.
    destruct (v_cur _) as [cur |]; rewrite length_app in Hlen; cbn in Hlen.
    + rewrite lookup_app_l in He by lia.
      rewrite Forall_lookup in Hclosed. by apply (Hclosed i).
    + rewrite app_nil_r in He.
      rewrite Forall_lookup in Hclosed. by apply (Hclosed i).
  - intros i e e' b He He' Hb Hnn.
    destruct (Hsoft i e e' He He') as [Hbar | Hgap]; [by left |].
    right. by apply (soft_gap_is_exact e e' b).
Qed.

Lemma epochs_closed_by_barrier_or_gap_witness :
  exists e e' b,
    InitDataVectorSoft 512
      [bio 0 1024 1000000000 F_WRITE [1]; bio 1 1024 4000000000 F_WRITE [2]]
    = [e; e']
    /\ head (ops e') = Some b
    /\ (has_barrier e = true \/ soft_gap_exact e e').
Proof.
  do 3 eexists. split; [vm_compute; reflexivity |].
  split; [reflexivity |].
  eapply (proj2 (proj2 (epochs_closed_by_barrier_or_gap 512
                          [bio 0 1024 1000000000 F_WRITE [1];
                           bio 1 1024 4000000000 F_WRITE [2]])) 0%nat).
  - reflexivity.
  - reflexivity.
  - reflexivity.
  - vm_compute. discriminate.
Defined.

(** C6 as stated fails for soft segmentation: two plain writes 3 s apart
    end up in two epochs and the first has no barrier. *)
Lemma soft_gap_epoch_without_barrier :
  ~ (forall (sector_size : Z) (trace : list disk_write) (i : nat) (e : epoch),
        InitDataVectorSoft sector_size trace !! i = Some e ->
        (S i < length (InitDataVectorSoft sector_size trace))%nat ->
        has_barrier e = true).
Proof.
  intros H.
  specialize (H 512
                [bio 0 1024 1000000000 F_WRITE [1];
                 bio 1 1024 4000000000 F_WRITE [2]]
                0%nat).
  vm_compute in H. specialize (H _ eq_refl). 
  assert (false = true) as Hf by (apply H; lia). discriminate.
Qed.

(** ** Checkpoint ids of the epochs *)

Lemma flag_checkpoint_step (v : seg_view) (w : disk_write) :
  is_checkpoint w = false ->
  v_checkpoint v = -1
  /\ Forall (fun e => checkpoint_epoch e = -1) (view_epochs v) ->
  v_checkpoint (view_flag_step v w) = -1
  /\ Forall (fun e => checkpoint_epoch e = -1)
       (view_epochs (view_flag_step v w)).
Proof.
  intros Hw [Hcp Hall]. destruct v as [closed cur ranges cp i lt].
  cbn in Hcp. subst cp. unfold view_epochs in *. cbn [v_closed v_cur] in Hall.
  apply Forall_app in Hall as [Hclosed Hcur].
  unfold view_flag_step. rewrite Hw.
  cbn [v_cur v_closed v_ranges v_checkpoint v_abs_index v_last_time].
  assert (checkpoint_epoch
            (match cur with
             | Some e => e
             | None => set_checkpoint_epoch (-1) fresh_epoch
             end) = -1) as Hc.
  { destruct cur as [e |]; [| reflexivity]. by inversion Hcur. }
  set (c := match cur with
            | Some e => e
            | None => set_checkpoint_epoch (-1) fresh_epoch
            end) in *.
  destruct (is_barrier w); cbn [negb];
    [destruct (CanSplitBarrier w) |];
    cbn [v_checkpoint v_closed v_cur]; (split; [reflexivity |]);
    repeat (apply Forall_app; split); try exact Hclosed;
    repeat constructor; cbn; try exact Hc.
  destruct (fst (FindOverlapsAndInsert w _)); exact Hc.
Qed.

(** The flag-only half of C7 holds: without checkpoint records every epoch
    of [InitDataVector] carries the id [-1]. *)
Lemma InitDataVector_no_checkpoint (sector_size : Z) (trace : list disk_write) :
  no_checkpoint trace ->
  Forall (fun e => checkpoint_epoch e = -1) (InitDataVector sector_size trace).
Proof.
  intros Hno. rewrite InitDataVector_view.
  enough (forall v,
             v_checkpoint v = -1
             /\ Forall (fun e => checkpoint_epoch e = -1) (view_epochs v) ->
             v_checkpoint (fold_left view_flag_step trace v) = -1
             /\ Forall (fun e => checkpoint_epoch e = -1)
                  (view_epochs (fold_left view_flag_step trace v))) as Hrun.
  { apply Hrun. split; [reflexivity | constructor]. }
  induction Hno as [| w rest Hw Hrest IH]; intros v Hv; [exact Hv |].
  cbn [fold_left]. apply IH. by apply flag_checkpoint_step.
Qed.

(** The soft walk on a trace without checkpoints: the epoch opened at
    entry keeps the id [0] that [AddNewEpoch] gave it. *)
Lemma soft_first_checkpoint_step (v : seg_view) (w : disk_write) :
  is_checkpoint w = false ->
  (exists first rest, view_epochs v = first :: rest
                      /\ checkpoint_epoch first = 0 /\ is_Some (v_cur v)) ->
  exists first rest, view_epochs (view_soft_step v w) = first :: rest
                     /\ checkpoint_epoch first = 0
                     /\ is_Some (v_cur (view_soft_step v w)).
Proof.
  intros Hw (first & rest & Hv & Hfirst & [cur Hcur]).
  destruct v as [closed c ranges cp i lt]. cbn in Hcur. subst c.
  unfold view_epochs in Hv. cbn [v_closed v_cur] in Hv.
  unfold view_soft_step, view_epochs. rewrite Hw.
  cbn [v_cur v_closed v_ranges v_checkpoint v_abs_index v_last_time].
  destruct closed as [| c0 closed]; cbn [app] in Hv; simplify_eq.
  - destruct (is_barrier w); cbn [negb];
      [destruct (CanSplitBarrier w) |
       destruct ((0 <? lt) && _); destruct (fst _)];
      cbn [v_closed v_cur app]; do 2 eexists;
      (split; [reflexivity |]); (split; [| by eexists]); exact Hfirst.
  - destruct (is_barrier w); cbn [negb];
      [destruct (CanSplitBarrier w) |
       destruct ((0 <? lt) && _); destruct (fst _)];
      cbn [v_closed v_cur app]; do 2 eexists;
      (split; [reflexivity |]); (split; [| by eexists]); exact Hfirst.
Qed.

Lemma InitDataVectorSoft_first_checkpoint (sector_size : Z)
    (trace : list disk_write) :
  no_checkpoint trace ->
  exists first rest,
    InitDataVectorSoft sector_size trace = first :: rest
    /\ checkpoint_epoch first = 0.
Proof.
  intros Hno. destruct (InitDataVectorSoft_view sector_size trace) as [-> _].
  assert (exists first rest,
             view_epochs (fold_left view_soft_step trace view_soft_init)
             = first :: rest
             /\ checkpoint_epoch first = 0
             /\ is_Some (v_cur (fold_left view_soft_step trace view_soft_init)))
    as (first & rest & Hv & Hfirst & [cur Hcur]).
  { generalize view_soft_init
      (ex_intro (fun first => exists rest,
                     view_epochs view_soft_init = first :: rest
                     /\ checkpoint_epoch first = 0
                     /\ is_Some (v_cur view_soft_init))
         fresh_epoch
         (ex_intro _ [] (conj eq_refl (conj eq_refl (ex_intro _ fresh_epoch eq_refl))))).
    induction Hno as [| w rest' Hw Hrest IH]; intros v Hv; [exact Hv |].
    cbn [fold_left]. apply IH. by apply soft_first_checkpoint_step. }
  unfold view_epochs in *. rewrite Hcur in *.
  destruct (drop_empty_tail_cases
              (v_closed (fold_left view_soft_step trace view_soft_init)) cur)
    as [-> | (-> & _ & prev & Hprev & _)]; [by eauto |].
  destruct (v_closed _) as [| c0 closed]; [discriminate |].
  cbn [app] in Hv. simplify_eq. eauto.
Qed.

(** C7 at a trace of one plain write, which has no checkpoint record: the
    flag-only segmenter gives its epoch the id [-1]; the soft segmenter
    leaves the epoch it opened at entry with the id [0] written by
    [AddNewEpoch]. *)
Theorem soft_entry_epoch_checkpoint_id :
  map checkpoint_epoch (InitDataVector 512 [bio 0 4096 0 F_WRITE []]) = [-1]
  /\ map checkpoint_epoch (InitDataVectorSoft 512 [bio 0 4096 0 F_WRITE []])
     = [0]
  /\ map checkpoint_epoch (InitDataVectorSoft 512 [bio 0 0 0 F_FLUSH []])
     = [0; -1].
Proof. repeat split; vm_compute; reflexivity. Qed.

(** ** Absolute indices across the epochs *)

Lemma all_indices_app (l1 l2 : list epoch) :
  all_indices (l1 ++ l2) = all_indices l1 ++ all_indices l2.
Proof. unfold all_indices. by rewrite map_app, concat_app, map_app. Qed.

Lemma all_indices_one (e : epoch) : all_indices [e] = map abs_index (ops e).
Proof. unfold all_indices. cbn. by rewrite app_nil_r. Qed.

Lemma all_indices_cur (c : option epoch) :
  all_indices match c with Some e => [e] | None => [] end
  = match c with Some e => map abs_index (ops e) | None => [] end.
Proof. destruct c; [apply all_indices_one | reflexivity]. Qed.

Lemma CanSplitBarrier_is_barrier (w : disk_write) :
  CanSplitBarrier w = true -> is_barrier w = true.
Proof.
  unfold CanSplitBarrier, is_barrier.
  destruct (has_flush_flag w), (has_flush_seq_flag w), (has_FUA_flag w);
    cbn; try reflexivity; intros H; discriminate.
Qed.

Lemma not_barrier_not_split (w : disk_write) :
  is_barrier w = false -> CanSplitBarrier w = false.
Proof.
  intros Hb. destruct (CanSplitBarrier w) eqn:Hs; [| reflexivity].
  apply CanSplitBarrier_is_barrier in Hs. congruence.
Qed.

Ltac indices_simpl :=
  unfold view_epochs; cbn [v_closed v_cur];
  rewrite ?all_indices_app, ?all_indices_one, ?all_indices_cur;
  unfold add_op; cbn [ops push_back_op add_num_meta set_overlaps
                      set_has_barrier set_checkpoint_epoch fresh_epoch];
  rewrite ?map_app; cbn [map abs_index app];
  rewrite <- ?app_assoc; cbn [app]; rewrite ?app_nil_r.

Lemma flag_step_indices (v : seg_view) (w : disk_write) :
  checkpoint_wf w ->
  all_indices (view_epochs (view_flag_step v w))
  = all_indices (view_epochs v) ++ index_trace (v_abs_index v) w
  /\ v_abs_index (view_flag_step v w) = u32 (v_abs_index v + 1).
Proof.
  intros Hwf. destruct v as [closed cur ranges cp i lt].
  unfold view_flag_step, index_trace, checkpoint_wf in *.
  cbn [v_cur v_closed v_ranges v_checkpoint v_abs_index v_last_time].
  destruct (is_barrier w) eqn:Hb; cbn [negb].
  - destruct (is_checkpoint w); [by discriminate Hwf |].
    destruct (CanSplitBarrier w); (split; [| reflexivity]);
      destruct cur as [e |]; indices_simpl; reflexivity.
  - rewrite (not_barrier_not_split w Hb).
    destruct (is_checkpoint w); (split; [| reflexivity]).
    + destruct cur as [e |]; indices_simpl; reflexivity.
    + destruct (fst (FindOverlapsAndInsert w _));
        destruct cur as [e |]; indices_simpl; reflexivity.
Qed.

Lemma soft_step_indices (v : seg_view) (w : disk_write) :
  is_Some (v_cur v) ->
  all_indices (view_epochs (view_soft_step v w))
  = all_indices (view_epochs v) ++ index_trace (v_abs_index v) w
  /\ v_abs_index (view_soft_step v w) = u32 (v_abs_index v + 1)
  /\ is_Some (v_cur (view_soft_step v w)).
Proof.
  destruct v as [closed [cur |] ranges cp i lt]; intros [c Hc]; [| discriminate].
  clear c Hc. unfold view_soft_step, index_trace.
  cbn [v_cur v_closed v_ranges v_checkpoint v_abs_index v_last_time].
  destruct (is_checkpoint w).
  { split; [| split; [reflexivity | by eexists]].
    destruct (_ =? _)%nat; indices_simpl; reflexivity. }
  destruct (is_barrier w) eqn:Hb; cbn [negb].
  - destruct (CanSplitBarrier w);
      (split; [| split; [reflexivity | by eexists]]);
      indices_simpl; reflexivity.
  - rewrite (not_barrier_not_split w Hb).
    split; [| split; [reflexivity | by eexists]].
    destruct ((0 <? lt) && _); destruct (fst (FindOverlapsAndInsert w _));
      indices_simpl; reflexivity.
Qed.

Lemma flag_run_indices (trace : list disk_write) :
  Forall checkpoint_wf trace ->
  forall v,
    0 <= v_abs_index v ->
    v_abs_index v + Z.of_nat (length trace) <= 2 ^ 32 ->
    all_indices (view_epochs (fold_left view_flag_step trace v))
    = all_indices (view_epochs v) ++ expected_indices (v_abs_index v) trace.
Proof.
  induction 1 as [| w rest Hw Hrest IH]; intros v Hlo Hhi.
  - cbn. by rewrite app_nil_r.
  - cbn [fold_left expected_indices]. cbn [length] in Hhi.
    destruct (flag_step_indices v w Hw) as [Hidx Habs].
    destruct rest as [| w' rest'].
    + cbn [fold_left expected_indices]. by rewrite app_nil_r.
    + cbn [length] in Hhi. rewrite u32_small in Habs by lia.
      rewrite IH; cbn [length]; rewrite ?Habs; try lia.
      rewrite Hidx, <- app_assoc. reflexivity.
Qed.

Lemma soft_run_indices (trace : list disk_write) :
  forall v,
    is_Some (v_cur v) ->
    0 <= v_abs_index v ->
    v_abs_index v + Z.of_nat (length trace) <= 2 ^ 32 ->
    all_indices (view_epochs (fold_left view_soft_step trace v))
    = all_indices (view_epochs v) ++ expected_indices (v_abs_index v) trace.
Proof.
  induction trace as [| w rest IH]; intros v Hcur Hlo Hhi.
  - cbn. by rewrite app_nil_r.
  - cbn [fold_left expected_indices]. cbn [length] in Hhi.
    destruct (soft_step_indices v w Hcur) as (Hidx & Habs & Hcur').
    fold (index_trace (v_abs_index v) w).
    destruct rest as [| w' rest'].
    + cbn [fold_left expected_indices]. by rewrite app_nil_r.
    + cbn [length] in Hhi. rewrite u32_small in Habs by lia.
      rewrite IH; cbn [length]; rewrite ?Habs; try lia; [| exact Hcur'].
      rewrite Hidx, <- app_assoc. reflexivity.
Qed.

Lemma drop_empty_tail_indices (closed : list epoch) (cur : epoch) :
  all_indices (drop_empty_tail (closed ++ [cur])) = all_indices (closed ++ [cur]).
Proof.
  destruct (drop_empty_tail_cases closed cur) as [-> | (-> & Hops & _)];
    [reflexivity |].
  rewrite all_indices_app, all_indices_one, Hops. cbn. by rewrite app_nil_r.
Qed.

Lemma expected_indices_bounds (trace : list disk_write) :
  forall i x,
    x ∈ expected_indices i trace -> i <= x < i + Z.of_nat (length trace).
Proof.
  induction trace as [| w rest IH]; intros i x Hx; cbn in Hx.
  - by apply elem_of_nil in Hx.
  - cbn [length]. apply elem_of_app in Hx as [Hx | Hx].
    + destruct (is_checkpoint w); [by apply elem_of_nil in Hx |].
      destruct (CanSplitBarrier w);
        repeat (apply elem_of_cons in Hx as [-> | Hx]); try lia;
        by apply elem_of_nil in Hx.
    + apply IH in Hx. lia.
Qed.

Lemma expected_indices_sorted (trace : list disk_write) :
  forall i, StronglySorted Z.le (expected_indices i trace).
Proof.
  induction trace as [| w rest IH]; intros i; cbn; [constructor |].
  assert (Forall (Z.le i) (expected_indices (i + 1) rest)) as Hge.
  { apply Forall_forall. intros x Hx.
    apply expected_indices_bounds in Hx. lia. }
  destruct (is_checkpoint w); [apply IH |].
  destruct (CanSplitBarrier w); cbn.
  - constructor; [constructor; [apply IH | exact Hge] |].
    constructor; [lia | exact Hge].
  - constructor; [apply IH | exact Hge].
Qed.

Lemma expected_indices_count (trace : list disk_write) :
  forall (i : Z) (k : nat) (r : disk_write),
    trace !! k = Some r ->
    count_occ Z.eq_dec (expected_indices i trace) (i + Z.of_nat k)
    = if is_checkpoint r then 0%nat
      else if CanSplitBarrier r then 2%nat else 1%nat.
Proof.
  induction trace as [| w rest IH]; intros i k r Hk; [done |].
  cbn [expected_indices]. rewrite count_occ_app.
  destruct k as [| k]; cbn in Hk.
  - simplify_eq. rewrite Z.add_0_r.
    rewrite (proj1 (count_occ_not_In Z.eq_dec (expected_indices (i + 1) rest) i)).
    2:{ intros Hin. apply list_elem_of_In, expected_indices_bounds in Hin. lia. }
    destruct (is_checkpoint r); [reflexivity |].
    destruct (CanSplitBarrier r); cbn;
      destruct (Z.eq_dec i i); try reflexivity; congruence.
  - replace (i + Z.of_nat (S k)) with ((i + 1) + Z.of_nat k) by lia.
    rewrite (IH _ _ _ Hk).
    assert (i <> i + 1 + Z.of_nat k) as Hne by lia.
    destruct (is_checkpoint w); [reflexivity |].
    destruct (CanSplitBarrier w); cbn;
      destruct (Z.eq_dec i (i + 1 + Z.of_nat k)); try congruence; reflexivity.
Qed.

(** C3.  For a trace that respects the data model (a checkpoint record
    carries no barrier flag) and whose positions fit the 32-bit counter,
    the [abs_index] values met when going through the epochs in order, for
    either segmenter, are [expected_indices 0 trace]: a non-decreasing
    sequence of positions of the trace in which the position of a
    checkpoint does not occur, that of a split barrier occurs twice and
    every other position once. *)
Theorem abs_index_coverage (sector_size : Z) (trace : list disk_write) :
  Forall checkpoint_wf trace ->
  Z.of_nat (length trace) <= 2 ^ 32 ->
  all_indices (InitDataVector sector_size trace) = expected_indices 0 trace
  /\ all_indices (InitDataVectorSoft sector_size trace)
     = expected_indices 0 trace
  /\ StronglySorted Z.le (expected_indices 0 trace)
  /\ (forall x, x ∈ expected_indices 0 trace ->
                0 <= x < Z.of_nat (length trace))
  /\ (forall (k : nat) (r : disk_write),
         trace !! k = Some r ->
         count_occ Z.eq_dec (expected_indices 0 trace) (Z.of_nat k)
         = if is_checkpoint r then 0%nat
           else if CanSplitBarrier r then 2%nat else 1%nat).
Proof.
  intros Hwf Hlen. split; [| split; [| split; [| split]]].
  - rewrite InitDataVector_view.
    by rewrite (flag_run_indices trace Hwf view_flag_init).
  - destruct (InitDataVectorSoft_view sector_size trace) as [-> [cur Hcur]].
    unfold view_epochs at 1. rewrite Hcur, drop_empty_tail_indices.
    pose proof (soft_run_indices trace view_soft_init) as Hrun.
    unfold view_epochs at 1 in Hrun. rewrite Hcur in Hrun.
    rewrite Hrun; [reflexivity | by eexists | done | exact Hlen].
  - apply expected_indices_sorted.
  - intros x Hx. apply expected_indices_bounds in Hx. lia.
  - intros k r Hk. apply (expected_indices_count trace 0 k r Hk).
Qed.

Lemma abs_index_coverage_witness :
  all_indices
    (InitDataVector 512
       [bio 0 4096 0 F_WRITE [1]; bio 0 0 0 F_CHECKPOINT [];
        bio 8 4096 0 F_WRITE_FLUSH [2]])
  = [0; 2; 2]
  /\ all_indices
       (InitDataVectorSoft 512
          [bio 0 4096 0 F_WRITE [1]; bio 0 0 0 F_CHECKPOINT [];
           bio 8 4096 0 F_WRITE_FLUSH [2]])
     = [0; 2; 2].
Proof.
  pose proof (abs_index_coverage 512
                [bio 0 4096 0 F_WRITE [1]; bio 0 0 0 F_CHECKPOINT [];
                 bio 8 4096 0 F_WRITE_FLUSH [2]]) as H.
  destruct H as (Hflag & Hsoft & _).
  - repeat constructor; unfold checkpoint_wf; cbn; congruence.
  - cbn. lia.
  - split; [exact Hflag | exact Hsoft].
Defined.

(** ** Split barriers *)

Lemma u32_succ_add (a n : Z) : u32 (u32 (a + 1) + n) = u32 (a + 1 + n).
Proof. unfold u32. apply Zplus_mod_idemp_l. Qed.

Lemma view_flag_step_abs (v : seg_view) (w : disk_write) :
  v_abs_index (view_flag_step v w) = u32 (v_abs_index v + 1).
Proof.
  unfold view_flag_step.
  destruct (is_barrier w), (is_checkpoint w); cbn [negb];
    try destruct (CanSplitBarrier w); reflexivity.
Qed.

Lemma view_soft_step_abs (v : seg_view) (w : disk_write) :
  is_Some (v_cur v) ->
  v_abs_index (view_soft_step v w) = u32 (v_abs_index v + 1)
  /\ is_Some (v_cur (view_soft_step v w)).
Proof.
  intros [cur Hcur]. unfold view_soft_step. rewrite Hcur.
  destruct (is_checkpoint w); [by eauto |].
  destruct (is_barrier w); cbn [negb];
    [destruct (CanSplitBarrier w) |]; by eauto.
Qed.

Lemma flag_run_abs (trace : list disk_write) :
  forall v,
    0 <= v_abs_index v < 2 ^ 32 ->
    v_abs_index (fold_left view_flag_step trace v)
    = u32 (v_abs_index v + Z.of_nat (length trace)).
Proof.
  induction trace as [| w rest IH]; intros v Hv.
  - cbn. rewrite Z.add_0_r. symmetry. by apply u32_small.
  - cbn [fold_left length]. rewrite IH.
    + rewrite view_flag_step_abs, u32_succ_add. f_equal. lia.
    + rewrite view_flag_step_abs. apply u32_range.
Qed.

Lemma soft_run_abs (trace : list disk_write) :
  forall v,
    is_Some (v_cur v) ->
    0 <= v_abs_index v < 2 ^ 32 ->
    v_abs_index (fold_left view_soft_step trace v)
    = u32 (v_abs_index v + Z.of_nat (length trace))
    /\ is_Some (v_cur (fold_left view_soft_step trace v)).
Proof.
  induction trace as [| w rest IH]; intros v Hcur Hv.
  - cbn. rewrite Z.add_0_r. split; [| exact Hcur].
    symmetry. by apply u32_small.
  - cbn [fold_left length].
    destruct (view_soft_step_abs v w Hcur) as [Habs Hcur'].
    destruct (IH (view_soft_step v w) Hcur') as [-> Hcur''].
    + rewrite Habs. apply u32_range.
    + split; [| exact Hcur'']. rewrite Habs, u32_succ_add. f_equal. lia.
Qed.

(** The two halves that [SplitBarrier] makes of a splittable barrier. *)
Lemma SplitBarrier_halves (b : disk_write) :
  CanSplitBarrier b = true ->
  halves_of b (fst (SplitBarrier b)) (snd (SplitBarrier b)).
Proof.
  intros Hsplit. destruct b as [[sector len t [w f fs fu m c]] payload].
  unfold halves_of, CanSplitBarrier, SplitBarrier, has_flush_flag,
    has_flush_seq_flag, has_write_flag, has_FUA_flag, is_meta,
    is_checkpoint in *.
  cbn in *. destruct f, fs; cbn in *; try discriminate; repeat split.
Qed.

Lemma view_flag_step_split (v : seg_view) (b : disk_write) :
  CanSplitBarrier b = true ->
  view_flag_step v b
  = mk_view
      (v_closed v
       ++ [set_has_barrier true
             (add_op (v_abs_index v) (fst (SplitBarrier b))
                match v_cur v with
                | Some e => e
                | None => set_checkpoint_epoch (v_checkpoint v) fresh_epoch
                end)])
      (Some (add_op (v_abs_index v) (snd (SplitBarrier b))
               (set_checkpoint_epoch (v_checkpoint v) fresh_epoch)))
      (snd (FindOverlapsAndInsert (snd (SplitBarrier b)) []))
      (v_checkpoint v) (u32 (v_abs_index v + 1)) (v_last_time v).
Proof.
  intros Hsplit. unfold view_flag_step.
  by rewrite (CanSplitBarrier_is_barrier b Hsplit), Hsplit.
Qed.

Lemma view_flag_step_write (v : seg_view) (w : disk_write) :
  is_barrier w = false ->
  is_checkpoint w = false ->
  exists cur',
    view_flag_step v w
    = mk_view (v_closed v) (Some cur')
        (snd (FindOverlapsAndInsert w
                match v_cur v with Some _ => v_ranges v | None => [] end))
        (v_checkpoint v) (u32 (v_abs_index v + 1)) (v_last_time v)
    /\ ops cur'
       = ops match v_cur v with
             | Some e => e
             | None => set_checkpoint_epoch (v_checkpoint v) fresh_epoch
             end
         ++ [mk_epoch_op (v_abs_index v) w].
Proof.
  intros Hw Hcp. unfold view_flag_step. rewrite Hw, Hcp. cbn [negb].
  eexists. split; [reflexivity |].
  by destruct (fst (FindOverlapsAndInsert w _)).
Qed.

Lemma InitDataVector_snoc (sector_size : Z) (pre : list disk_write)
    (w : disk_write) :
  InitDataVector sector_size (pre ++ [w])
  = view_epochs
      (view_flag_step (fold_left view_flag_step pre view_flag_init) w).
Proof. by rewrite InitDataVector_view, fold_left_app. Qed.

Lemma flag_step_open (v : seg_view) (w : disk_write) :
  cur_open v -> cur_open (view_flag_step v w).
Proof.
  unfold cur_open. destruct v as [closed cur ranges cp i lt].
  cbn [v_cur]. intros Hopen.
  assert (has_barrier match cur with
                      | Some e => e
                      | None => set_checkpoint_epoch cp fresh_epoch
                      end = false) as Hc by (by destruct cur).
  unfold view_flag_step.
  cbn [v_cur v_closed v_ranges v_checkpoint v_abs_index v_last_time].
  destruct (is_barrier w); cbn [negb].
  - by destruct (CanSplitBarrier w).
  - destruct (is_checkpoint w); cbn [v_cur]; [exact Hc |].
    by destruct (fst _).
Qed.

Lemma soft_step_open (v : seg_view) (w : disk_write) :
  cur_open v -> cur_open (view_soft_step v w).
Proof.
  unfold cur_open. destruct v as [closed [cur |] ranges cp i lt];
    cbn [v_cur]; intros Hopen; [| exact I].
  unfold view_soft_step.
  cbn [v_cur v_closed v_ranges v_checkpoint v_abs_index v_last_time].
  destruct (is_checkpoint w); cbn [v_cur]; [by destruct (_ =? _)%nat |].
  destruct (is_barrier w); cbn [negb].
  - by destruct (CanSplitBarrier w).
  - destruct ((0 <? lt) && _); cbn [v_cur]; by destruct (fst _).
Qed.

(** The epoch that the cleanup of the soft variant drops comes after an
    epoch that a barrier closed. *)
Lemma dropped_after_barrier (closed : list epoch) (cur p : epoch) :
  closed_by_barrier_or_gap (closed ++ [cur]) ->
  ops cur = [] ->
  last closed = Some p ->
  has_barrier p = true.
Proof.
  intros Hchain Hnil Hlast.
  apply last_Some in Hlast as [l ->].
  destruct (chain_lookup _ Hchain (length l) p cur) as [Hb | Hgap].
  - rewrite <- app_assoc. by rewrite lookup_app_r, Nat.sub_diag by lia.
  - rewrite <- app_assoc, lookup_app_r by lia.
    by replace (S (length l) - length l)%nat with 1%nat by lia.
  - exact Hb.
  - destruct Hgap as (a & b & _ & Hb & _). rewrite Hnil in Hb. discriminate.
Qed.

(** C2.  A barrier that satisfies the splittable predicate, met after any
    prefix of a trace, is cut into two halves that carry the position of
    the barrier as their [abs_index].  The first half has size 0, no data
    and the flags of the barrier, FLUSH or FLUSH_SEQ among them; it goes to
    the back of the current epoch, which gets [has_barrier = true]: the
    last epoch built for the prefix whenever that epoch is still open, a
    new one only when the prefix left none open.  The second half keeps
    the data, the size and every flag but FLUSH and FLUSH_SEQ, and is the
    only op of a newly opened epoch.  In flag-only mode a plain write that
    follows joins that new epoch.  The soft segmenter looks for a
    checkpoint flag first, so its part is stated for a barrier that is not
    a checkpoint. *)
Theorem split_barrier_segmentation (sector_size : Z) (pre : list disk_write)
    (b : disk_write) :
  CanSplitBarrier b = true ->
  let first := fst (SplitBarrier b) in
  let second := snd (SplitBarrier b) in
  let i := u32 (Z.of_nat (length pre)) in
  halves_of b first second
  /\ split_across (InitDataVector sector_size pre)
       (InitDataVector sector_size (pre ++ [b])) i first second
  /\ (forall w,
         is_barrier w = false ->
         is_checkpoint w = false ->
         joins_last (InitDataVector sector_size (pre ++ [b]))
           (InitDataVector sector_size (pre ++ [b; w]))
           (mk_epoch_op (u32 (i + 1)) w))
  /\ (is_checkpoint b = false ->
      split_across (InitDataVectorSoft sector_size pre)
        (InitDataVectorSoft sector_size (pre ++ [b])) i first second).
Proof.
  intros Hsplit first second i.
  pose proof (CanSplitBarrier_is_barrier b Hsplit) as Hbar.
  split; [by apply SplitBarrier_halves |].
  pose proof (flag_run_abs pre view_flag_init) as Habs.
  cbn [view_flag_init v_abs_index] in Habs.
  rewrite Z.add_0_l in Habs. specialize (Habs ltac:(lia)). fold i in Habs.
  split; [| split].
  - rewrite InitDataVector_snoc, InitDataVector_view.
    pose proof (view_flag_run_ind cur_open flag_step_open pre view_flag_init I)
      as Hopen.
    assert (Forall (fun e => has_barrier e = true)
              (v_closed (fold_left view_flag_step pre view_flag_init)))
      as Hclosed.
    { apply (view_flag_run_ind
               (fun v => Forall (fun e => has_barrier e = true) (v_closed v)));
        [apply flag_closed_step | constructor]. }
    destruct (fold_left view_flag_step pre view_flag_init)
      as [closed cur ranges cp j lt].
    unfold cur_open in Hopen. cbn in Habs, Hopen, Hclosed. subst j.
    unfold view_flag_step. rewrite Hbar, Hsplit.
    cbn [negb v_cur v_closed v_ranges v_checkpoint v_abs_index v_last_time].
    fold first second. unfold view_epochs. cbn [v_closed v_cur].
    rewrite <- app_assoc. cbn [app].
    destruct cur as [c |].
    + exists closed, c. do 2 eexists. split; [by left |].
      split; [reflexivity |]. by repeat split.
    + exists closed, (set_checkpoint_epoch cp fresh_epoch). do 2 eexists.
      split.
      { right. split; [by rewrite app_nil_r |]. split; [reflexivity |].
        intros p Hp. rewrite Forall_forall in Hclosed. apply Hclosed.
        apply last_Some in Hp as [l ->]. apply elem_of_app. right.
        apply list_elem_of_here. }
      split; [reflexivity |]. by repeat split.
  - intros w Hw Hcp.
    replace (pre ++ [b; w]) with ((pre ++ [b]) ++ [w])
      by (by rewrite <- app_assoc).
    rewrite (InitDataVector_snoc _ (pre ++ [b])), InitDataVector_view.
    rewrite fold_left_app. cbn [fold_left].
    rewrite (view_flag_step_split _ b Hsplit), Habs.
    match goal with
    | |- context [view_flag_step ?v w] =>
        destruct (view_flag_step_write v w Hw Hcp) as (cur' & -> & Hops)
    end.
    cbn [v_cur v_abs_index] in Hops.
    unfold view_epochs. cbn [v_closed v_cur].
    do 3 eexists. split; [reflexivity |]. split; [reflexivity |].
    exact Hops.
  - intros Hcp.
    destruct (InitDataVectorSoft_view sector_size pre) as [-> [c Hc]].
    destruct (InitDataVectorSoft_view sector_size (pre ++ [b])) as [-> _].
    rewrite fold_left_app. cbn [fold_left].
    destruct (soft_run_abs pre view_soft_init) as [Hsabs _];
      [by eexists | cbn; lia |].
    cbn [view_soft_init v_abs_index] in Hsabs.
    rewrite Z.add_0_l in Hsabs. fold i in Hsabs.
    pose proof (view_soft_run_ind cur_open soft_step_open pre view_soft_init
                  eq_refl) as Hopen.
    destruct (soft_chain_run pre) as (c' & Hc' & Hchain & _).
    destruct (fold_left view_soft_step pre view_soft_init)
      as [closed cur ranges cp j lt].
    unfold cur_open in Hopen. cbn in Hc, Hc', Hsabs, Hopen, Hchain.
    subst cur j. injection Hc' as <-.
    unfold view_soft_step. rewrite Hcp, Hbar, Hsplit.
    cbn [negb v_cur v_closed v_ranges v_checkpoint v_abs_index v_last_time].
    fold first second. unfold view_epochs. cbn [v_closed v_cur].
    exists closed, c. do 2 eexists.
    split.
    { destruct (drop_empty_tail_cases closed c) as [-> | (-> & Hops & _)];
        [by left |].
      right. split; [reflexivity |]. split; [exact Hops |].
      intros p Hp. by apply (dropped_after_barrier closed c p). }
    split.
    { match goal with
      | |- drop_empty_tail (?l ++ [?n]) = _ =>
          destruct (drop_empty_tail_cases l n) as [-> | (_ & Hops & _)]
      end.
      - by rewrite <- app_assoc.
      - cbn in Hops. discriminate. }
    by repeat split.
Qed.

Lemma split_barrier_segmentation_witness :
  split_across
    (InitDataVector 512 [bio 0 4096 0 F_WRITE [1]])
    (InitDataVector 512
       ([bio 0 4096 0 F_WRITE [1]] ++ [bio 8 4096 0 F_WRITE_FLUSH [2]]))
    (u32 1)
    (fst (SplitBarrier (bio 8 4096 0 F_WRITE_FLUSH [2])))
    (snd (SplitBarrier (bio 8 4096 0 F_WRITE_FLUSH [2])))
  /\ split_across
       (InitDataVectorSoft 512 [bio 0 4096 0 F_WRITE [1]])
       (InitDataVectorSoft 512
          ([bio 0 4096 0 F_WRITE [1]] ++ [bio 8 4096 0 F_WRITE_FLUSH [2]]))
       (u32 1)
       (fst (SplitBarrier (bio 8 4096 0 F_WRITE_FLUSH [2])))
       (snd (SplitBarrier (bio 8 4096 0 F_WRITE_FLUSH [2]))).
Proof.
  destruct (split_barrier_segmentation 512 [bio 0 4096 0 F_WRITE [1]]
              (bio 8 4096 0 F_WRITE_FLUSH [2]) eq_refl)
    as (_ & Hflag & _ & Hsoft).
  split; [exact Hflag | exact (Hsoft eq_refl)].
Defined.

(** ** The overlap tracker *)

Lemma range_wf_bounds (w : disk_write) :
  range_wf w -> 0 <= op_lo w /\ op_lo w <= op_hi w /\ op_hi w < 2 ^ 32.
Proof. unfold range_wf, op_lo, op_hi. lia. Qed.

(** On a well-formed range the source scan is the tracker of the
    specification. *)
Lemma scan_ranges_wf (w : disk_write) (ranges : list (Z * Z)) :
  range_wf w ->
  scan_ranges w (op_lo w) (op_hi w) ranges
  = tracker_scan (op_lo w) (op_hi w) ranges.
Proof.
  intros Hwf. pose proof (range_wf_bounds w Hwf) as Hb.
  induction ranges as [| [first second] rest IH]; cbn [scan_ranges tracker_scan].
  - change (write_sector (metadata w) + size (metadata w) - 1) with (op_hi w).
    change (write_sector (metadata w)) with (op_lo w).
    rewrite !u32_small by lia. reflexivity.
  - change (write_sector (metadata w) + size (metadata w) - 1) with (op_hi w).
    change (write_sector (metadata w)) with (op_lo w).
    rewrite !u32_small by lia. rewrite IH.
    destruct (_ || _); [| destruct (_ <? _); [reflexivity | by destruct (tracker_scan _ _ _)]].
    do 2 f_equal. f_equal.
    + destruct (Z.ltb_spec (op_lo w) first); lia.
    + destruct (Z.ltb_spec second (op_hi w)); lia.
Qed.

Lemma FindOverlapsAndInsert_wf (w : disk_write) (ranges : list (Z * Z)) :
  range_wf w ->
  FindOverlapsAndInsert w ranges = tracker_scan (op_lo w) (op_hi w) ranges.
Proof.
  intros Hwf. pose proof (range_wf_bounds w Hwf) as Hb.
  unfold FindOverlapsAndInsert. fold (op_lo w).
  rewrite (u32_small (op_lo w)) by lia.
  replace (op_lo w + size (metadata w) - 1) with (op_hi w)
    by (unfold op_lo, op_hi; lia).
  rewrite u32_small by lia. by apply scan_ranges_wf.
Qed.

Lemma intersect_test (first second s e : Z) :
  first <= second -> s <= e ->
  ((first <=? s) && (s <=? second))
  || ((first <=? e) && (e <=? second))
  || ((s <=? first) && (second <=? e)) = true
  <-> first <= e /\ s <= second.
Proof.
  intros Hr Hw. rewrite !orb_true_iff, !andb_true_iff, !Z.leb_le.
  split; [lia |]. intros [Hfe Hss].
  destruct (Z_le_gt_dec first s); [left; left; lia |].
  destruct (Z_le_gt_dec second e); [right; lia | left; right; lia].
Qed.

Lemma sorted_from_weaken (lo lo' : Z) (ranges : list (Z * Z)) :
  lo' <= lo -> sorted_from lo ranges -> sorted_from lo' ranges.
Proof.
  destruct ranges as [| [f l] rest]; cbn; [done |].
  intros Hlo (Hf & Hfl & Hrest). repeat split; [lia | lia | exact Hrest].
Qed.

Lemma sorted_from_elem (ranges : list (Z * Z)) :
  forall lo r,
    sorted_from lo ranges -> r ∈ ranges -> lo <= fst r /\ fst r <= snd r.
Proof.
  induction ranges as [| [f l] rest IH]; intros lo r Hs Hr.
  - by apply elem_of_nil in Hr.
  - destruct Hs as (Hlo & Hfl & Hrest).
    apply elem_of_cons in Hr as [-> | Hr]; [cbn; lia |].
    destruct (IH f r Hrest Hr). lia.
Qed.

Lemma tracker_scan_found (s e : Z) (ranges : list (Z * Z)) :
  s <= e ->
  forall lo,
    sorted_from lo ranges ->
    fst (tracker_scan s e ranges) = true
    <-> exists r, r ∈ ranges /\ fst r <= e /\ s <= snd r.
Proof.
  intros Hse. induction ranges as [| [f l] rest IH]; intros lo Hs.
  - cbn. split; [discriminate |]. intros (r & Hr & _).
    by apply elem_of_nil in Hr.
  - destruct Hs as (Hlo & Hfl & Hrest). cbn [tracker_scan].
    destruct (_ || _) eqn:Hc.
    + apply intersect_test in Hc; [| lia | lia]. cbn [fst].
      split; [| reflexivity]. intros _. exists (f, l).
      split; [apply list_elem_of_here | exact Hc].
    + assert (~ (f <= e /\ s <= l)) as Hno.
      { intros Hyes. apply (intersect_test f l s e Hfl Hse) in Hyes.
        congruence. }
      destruct (Z.ltb_spec e f) as [Hef | Hfe]; cbn [fst].
      * split; [discriminate |]. intros (r & Hr & Hre & Hsr).
        apply elem_of_cons in Hr as [-> | Hr]; [cbn in *; lia |].
        destruct (sorted_from_elem rest f r Hrest Hr). lia.
      * rewrite (IH f Hrest). split.
        -- intros (r & Hr & Hre). exists r. split; [by apply list_elem_of_further | exact Hre].
        -- intros (r & Hr & Hre & Hsr).
           apply elem_of_cons in Hr as [-> | Hr]; [cbn in *; lia |].
           exists r. auto.
Qed.

Lemma tracker_scan_sorted (s e : Z) (ranges : list (Z * Z)) :
  s <= e ->
  forall lo,
    lo <= s ->
    sorted_from lo ranges ->
    sorted_from lo (snd (tracker_scan s e ranges)).
Proof.
  intros Hse. induction ranges as [| [f l] rest IH]; intros lo Hlos Hs.
  - cbn. lia.
  - destruct Hs as (Hlo & Hfl & Hrest). cbn [tracker_scan].
    destruct (_ || _) eqn:Hc.
    + cbn [snd sorted_from]. split; [lia |]. split; [lia |].
      apply (sorted_from_weaken f); [lia | exact Hrest].
    + assert (~ (f <= e /\ s <= l)) as Hno.
      { intros Hyes. apply (intersect_test f l s e Hfl Hse) in Hyes.
        congruence. }
      destruct (Z.ltb_spec e f) as [Hef | Hfe]; cbn [snd sorted_from].
      * repeat split; try lia. exact Hrest.
      * split; [lia |]. split; [lia |]. apply IH; [lia | exact Hrest].
Qed.

Lemma tracker_scan_cover (s e : Z) (ranges : list (Z * Z)) :
  (forall r, r ∈ ranges ->
             exists r', r' ∈ snd (tracker_scan s e ranges)
                        /\ fst r' <= fst r /\ snd r <= snd r')
  /\ exists r', r' ∈ snd (tracker_scan s e ranges)
                /\ fst r' <= s /\ e <= snd r'.
Proof.
  induction ranges as [| [f l] rest [IHold IHnew]].
  - split.
    + intros r Hr. by apply elem_of_nil in Hr.
    + exists (s, e). cbn. split; [apply list_elem_of_here | lia].
  - cbn [tracker_scan]. destruct (_ || _).
    + cbn [snd]. split.
      * intros r Hr. apply elem_of_cons in Hr as [-> | Hr].
        -- exists (Z.min f s, Z.max l e).
           split; [apply list_elem_of_here | cbn; lia].
        -- exists r. split; [by apply list_elem_of_further | lia].
      * exists (Z.min f s, Z.max l e).
        split; [apply list_elem_of_here | cbn; lia].
    + destruct (e <? f); cbn [snd].
      * split.
        -- intros r Hr. exists r.
           split; [by apply list_elem_of_further | lia].
        -- exists (s, e). split; [apply list_elem_of_here | cbn; lia].
      * split.
        -- intros r Hr. apply elem_of_cons in Hr as [-> | Hr].
           ++ exists (f, l). split; [apply list_elem_of_here | cbn; lia].
           ++ destruct (IHold r Hr) as (r' & Hr' & Hle).
              exists r'. split; [by apply list_elem_of_further | exact Hle].
        -- destruct IHnew as (r' & Hr' & Hle).
           exists r'. split; [by apply list_elem_of_further | exact Hle].
Qed.

Lemma tracker_scan_sound (s e : Z) (ranges : list (Z * Z)) :
  s <= e ->
  (forall r, r ∈ ranges -> fst r <= snd r) ->
  forall r' x,
    r' ∈ snd (tracker_scan s e ranges) ->
    fst r' <= x <= snd r' ->
    s <= x <= e \/ exists r, r ∈ ranges /\ fst r <= x <= snd r.
Proof.
  intros Hse. induction ranges as [| [f l] rest IH]; intros Hwf r' x Hr' Hx.
  - cbn in Hr'. apply list_elem_of_singleton in Hr' as ->. cbn in Hx. by left.
  - assert (f <= l) as Hfl by (apply (Hwf (f, l)); apply list_elem_of_here).
    assert (forall r, r ∈ rest -> fst r <= snd r) as Hwf'.
    { intros r Hr. apply Hwf. by apply list_elem_of_further. }
    cbn [tracker_scan] in Hr'. destruct (_ || _) eqn:Hc.
    + apply intersect_test in Hc; [| lia | lia]. cbn [snd] in Hr'.
      apply elem_of_cons in Hr' as [-> | Hr'].
      * cbn in Hx. destruct (Z_le_gt_dec s x) as [Hsx | Hsx].
        -- destruct (Z_le_gt_dec x e); [left; lia |].
           right. exists (f, l). split; [apply list_elem_of_here | cbn; lia].
        -- right. exists (f, l). split; [apply list_elem_of_here | cbn; lia].
      * right. exists r'. split; [by apply list_elem_of_further | exact Hx].
    + destruct (e <? f); cbn [snd] in Hr'.
      * apply elem_of_cons in Hr' as [-> | Hr']; [by left |].
        right. exists r'. split; [exact Hr' | exact Hx].
      * apply elem_of_cons in Hr' as [-> | Hr'].
        -- right. exists (f, l). split; [apply list_elem_of_here | exact Hx].
        -- destruct (IH Hwf' r' x Hr' Hx) as [Hin | (r & Hr & Hrx)];
             [by left |].
           right. exists r. split; [by apply list_elem_of_further | exact Hrx].
Qed.

Lemma ranges_intersect_sym (a b : disk_write) :
  ranges_intersect a b <-> ranges_intersect b a.
Proof. unfold ranges_intersect. split; intros (x & H1 & H2); eauto. Qed.

Lemma ranges_intersect_b_spec (a b : disk_write) :
  ranges_intersect_b a b = true <-> ranges_intersect a b.
Proof.
  unfold ranges_intersect_b, ranges_intersect. rewrite Z.leb_le. split.
  - intros H. exists (Z.max (op_lo a) (op_lo b)). lia.
  - intros (x & H1 & H2). lia.
Qed.

Lemma has_overlapping_pair_snoc (l : list disk_write) (w : disk_write) :
  has_overlapping_pair (l ++ [w])
  <-> has_overlapping_pair l \/ exists a, a ∈ l /\ ranges_intersect a w.
Proof.
  split.
  - intros (i & j & a & b & Hne & Hi & Hj & Hab).
    destruct (decide (i < length l)%nat) as [Hil | Hil];
      destruct (decide (j < length l)%nat) as [Hjl | Hjl].
    + left. rewrite lookup_app_l in Hi, Hj by lia. by exists i, j, a, b.
    + right. rewrite lookup_app_l in Hi by lia.
      rewrite lookup_app_r in Hj by lia.
      apply list_lookup_singleton_Some in Hj as [_ <-].
      exists a. split; [by eapply list_elem_of_lookup_2 | exact Hab].
    + right. rewrite lookup_app_l in Hj by lia.
      rewrite lookup_app_r in Hi by lia.
      apply list_lookup_singleton_Some in Hi as [_ <-].
      exists b. split; [by eapply list_elem_of_lookup_2 |].
      by apply ranges_intersect_sym.
    + rewrite lookup_app_r in Hi, Hj by lia.
      apply list_lookup_singleton_Some in Hi as [Hi _].
      apply list_lookup_singleton_Some in Hj as [Hj _]. lia.
  - intros [(i & j & a & b & Hne & Hi & Hj & Hab) | (a & Ha & Haw)].
    + exists i, j, a, b. split; [exact Hne |].
      split; [by apply lookup_app_l_Some |].
      split; [by apply lookup_app_l_Some | exact Hab].
    + apply list_elem_of_lookup in Ha as [i Hi].
      exists i, (length l), a, w.
      pose proof (lookup_lt_Some _ _ _ Hi).
      split; [lia |]. split; [by apply lookup_app_l_Some |].
      split; [apply lookup_last | exact Haw].
Qed.

Lemma has_overlapping_pair_nil : ~ has_overlapping_pair [].
Proof. intros (i & j & a & b & _ & Hi & _). by destruct i. Qed.

(** Feeding one more well-formed write to the tracker. *)
Lemma tracker_inv_step (T : list disk_write) (ranges : list (Z * Z))
    (w : disk_write) :
  range_wf w ->
  tracker_inv T ranges ->
  tracker_inv (T ++ [w]) (snd (FindOverlapsAndInsert w ranges))
  /\ (fst (FindOverlapsAndInsert w ranges) = true
      <-> exists a, a ∈ T /\ ranges_intersect a w).
Proof.
  intros Hwf (Hsorted & Hcover & Hsound).
  rewrite (FindOverlapsAndInsert_wf w ranges Hwf).
  pose proof (range_wf_bounds w Hwf) as (Hlo & Hle & Hhi).
  assert (forall r, r ∈ ranges -> fst r <= snd r) as Hrwf.
  { intros r Hr. by destruct (sorted_from_elem ranges 0 r Hsorted Hr). }
  destruct (tracker_scan_cover (op_lo w) (op_hi w) ranges) as [Hold Hnew].
  split; [split; [| split] |].
  - by apply tracker_scan_sorted.
  - intros a Ha. apply elem_of_app in Ha as [Ha | Ha].
    + destruct (Hcover a Ha) as (r & Hr & Hra).
      destruct (Hold r Hr) as (r' & Hr' & Hrr'). exists r'. split; [exact Hr' | lia].
    + apply list_elem_of_singleton in Ha as ->. exact Hnew.
  - intros r' x Hr' Hx.
    destruct (tracker_scan_sound (op_lo w) (op_hi w) ranges Hle Hrwf r' x Hr' Hx)
      as [Hin | (r & Hr & Hrx)].
    + exists w. split; [apply elem_of_app; right; apply list_elem_of_here | exact Hin].
    + destruct (Hsound r x Hr Hrx) as (a & Ha & Hax).
      exists a. split; [apply elem_of_app; by left | exact Hax].
  - rewrite (tracker_scan_found (op_lo w) (op_hi w) ranges Hle 0 Hsorted).
    split.
    + intros (r & Hr & Hre & Hsr). pose proof (Hrwf r Hr) as Hr_wf.
      destruct (Hsound r (Z.max (fst r) (op_lo w)) Hr ltac:(lia))
        as (a & Ha & Hax).
      exists a. split; [exact Ha |].
      exists (Z.max (fst r) (op_lo w)). split; [exact Hax | lia].
    + intros (a & Ha & x & Hxa & Hxw).
      destruct (Hcover a Ha) as (r & Hr & Hra).
      exists r. split; [exact Hr | lia].
Qed.

Lemma tracker_inv_nil : tracker_inv [] [].
Proof.
  split; [exact I |]. split.
  - intros w Hw. by apply elem_of_nil in Hw.
  - intros r x Hr. by apply elem_of_nil in Hr.
Qed.

(** ** The overlap flag along the walk *)

Lemma cur_inv_fresh (cp : Z) : cur_inv (set_checkpoint_epoch cp fresh_epoch) [].
Proof.
  split; [reflexivity |]. intros _. split; [apply tracker_inv_nil |].
  cbn. split; [discriminate |]. intros H. by apply has_overlapping_pair_nil in H.
Qed.

Lemma cur_inv_checkpoint (cur : epoch) (ranges : list (Z * Z)) (cp : Z) :
  cur_inv cur ranges -> cur_inv (set_checkpoint_epoch cp cur) ranges.
Proof. intros H. exact H. Qed.

Lemma cur_inv_write (cur : epoch) (ranges : list (Z * Z)) (i : Z)
    (w : disk_write) :
  cur_inv cur ranges ->
  cur_inv
    (add_op i w
       (if fst (FindOverlapsAndInsert w ranges)
        then set_overlaps true cur else cur))
    (snd (FindOverlapsAndInsert w ranges)).
Proof.
  intros [Hbar Hinv]. split.
  { by destruct (fst _). }
  intros Hwf.
  assert (ops (add_op i w
                 (if fst (FindOverlapsAndInsert w ranges)
                  then set_overlaps true cur else cur))
          = ops cur ++ [mk_epoch_op i w]) as Hops by (by destruct (fst _)).
  rewrite Hops in *. rewrite map_app in *. cbn [map op] in *.
  apply Forall_app in Hwf as [Hold Hw]. rewrite Forall_singleton in Hw.
  destruct (Hinv Hold) as [Htr Hflag].
  destruct (tracker_inv_step _ _ w Hw Htr) as [Htr' Hfound].
  split; [exact Htr' |].
  rewrite has_overlapping_pair_snoc, <- Hfound, <- Hflag.
  destruct (fst (FindOverlapsAndInsert w ranges)); cbn.
  - split; auto.
  - split; [auto |]. intros [H | H]; [exact H | discriminate].
Qed.

Lemma cur_inv_write_soft (cur : epoch) (ranges : list (Z * Z)) (i : Z)
    (w : disk_write) :
  cur_inv cur ranges ->
  cur_inv
    (if fst (FindOverlapsAndInsert w ranges)
     then set_overlaps true (add_op i w cur) else add_op i w cur)
    (snd (FindOverlapsAndInsert w ranges)).
Proof.
  intros H. apply (cur_inv_write cur ranges i w) in H.
  by destruct (fst (FindOverlapsAndInsert w ranges)).
Qed.

Lemma FindOverlapsAndInsert_nil (w : disk_write) :
  fst (FindOverlapsAndInsert w []) = false.
Proof. reflexivity. Qed.

Lemma cur_inv_second_half (cp i : Z) (w : disk_write) :
  cur_inv (add_op i w (set_checkpoint_epoch cp fresh_epoch))
    (snd (FindOverlapsAndInsert w [])).
Proof.
  pose proof (cur_inv_write _ _ i w (cur_inv_fresh cp)) as H.
  by rewrite FindOverlapsAndInsert_nil in H.
Qed.

Lemma epoch_ok_closed_by_barrier (cur : epoch) (ranges : list (Z * Z)) (i : Z)
    (w : disk_write) :
  cur_inv cur ranges ->
  epoch_overlap_ok (set_has_barrier true (add_op i w cur)).
Proof.
  intros [Hbar Hinv]. unfold epoch_overlap_ok, tracked.
  cbn [has_barrier set_has_barrier ops add_op add_num_meta push_back_op overlaps].
  rewrite removelast_last. intros Hwf. by apply Hinv.
Qed.

Lemma epoch_ok_closed_by_gap (cur : epoch) (ranges : list (Z * Z)) :
  cur_inv cur ranges -> epoch_overlap_ok cur.
Proof.
  intros [Hbar Hinv]. unfold epoch_overlap_ok, tracked. rewrite Hbar.
  intros Hwf. by apply Hinv.
Qed.

Lemma barrier_last_closed (cur : epoch) (i : Z) (w : disk_write) :
  is_barrier w = true ->
  barrier_last (set_has_barrier true (add_op i w cur)).
Proof.
  intros Hw _. exists (mk_epoch_op i w). split; [| exact Hw].
  cbn. apply last_snoc.
Qed.

Lemma is_barrier_first_half (b : disk_write) :
  is_barrier (fst (SplitBarrier b)) = is_barrier b.
Proof. reflexivity. Qed.

Lemma barrier_last_open (cur : epoch) (ranges : list (Z * Z)) :
  cur_inv cur ranges -> barrier_last cur.
Proof. intros [Hbar _] H. congruence. Qed.

Lemma overlap_inv_flag_step (v : seg_view) (w : disk_write) :
  overlap_inv v -> overlap_inv (view_flag_step v w).
Proof.
  intros [Hclosed Hcur]. destruct v as [closed cur ranges cp i lt].
  cbn [v_closed v_cur v_ranges] in Hclosed, Hcur.
  assert (cur_inv
            (match cur with
             | Some e => e
             | None => set_checkpoint_epoch cp fresh_epoch
             end)
            (match cur with Some _ => ranges | None => [] end)) as Hc.
  { destruct cur; [exact Hcur | apply cur_inv_fresh]. }
  unfold view_flag_step, overlap_inv.
  cbn [v_cur v_closed v_ranges v_checkpoint v_abs_index v_last_time].
  destruct (is_barrier w) eqn:Hb; cbn [negb].
  - destruct (CanSplitBarrier w); cbn [v_closed v_cur v_ranges]; split;
      try exact I; try apply cur_inv_second_half;
      (apply Forall_app; split; [exact Hclosed |]);
      apply Forall_singleton; split;
      try (eapply epoch_ok_closed_by_barrier; exact Hc);
      apply barrier_last_closed; exact Hb.
  - destruct (is_checkpoint w); cbn [v_closed v_cur v_ranges];
      (split; [exact Hclosed |]).
    + by apply cur_inv_checkpoint.
    + by apply cur_inv_write.
Qed.

Lemma overlap_inv_soft_step (v : seg_view) (w : disk_write) :
  overlap_inv v -> overlap_inv (view_soft_step v w).
Proof.
  intros [Hclosed Hcur]. destruct v as [closed [cur |] ranges cp i lt];
    [| by split].
  cbn [v_closed v_cur v_ranges] in Hclosed, Hcur.
  unfold view_soft_step, overlap_inv.
  cbn [v_cur v_closed v_ranges v_checkpoint v_abs_index v_last_time].
  destruct (is_checkpoint w).
  { cbn [v_closed v_cur v_ranges]. split; [exact Hclosed |].
    destruct (_ =? _)%nat; [by apply cur_inv_checkpoint | exact Hcur]. }
  destruct (is_barrier w) eqn:Hb; cbn [negb].
  - destruct (CanSplitBarrier w); cbn [v_closed v_cur v_ranges]; split;
      try apply cur_inv_second_half; try apply cur_inv_fresh;
      (apply Forall_app; split; [exact Hclosed |]);
      apply Forall_singleton; split;
      try (eapply epoch_ok_closed_by_barrier; exact Hcur);
      apply barrier_last_closed; exact Hb.
  - destruct ((0 <? lt) && _); cbn [v_closed v_cur v_ranges]; split.
    + apply Forall_app. split; [exact Hclosed |].
      apply Forall_singleton. split.
      * by eapply epoch_ok_closed_by_gap.
      * by eapply barrier_last_open.
    + apply cur_inv_write_soft, cur_inv_fresh.
    + exact Hclosed.
    + by apply cur_inv_write_soft.
Qed.

Lemma overlap_inv_epochs (v : seg_view) :
  overlap_inv v ->
  Forall (fun e => epoch_overlap_ok e /\ barrier_last e) (view_epochs v).
Proof.
  intros [Hclosed Hcur]. unfold view_epochs.
  apply Forall_app. split; [exact Hclosed |].
  destruct (v_cur v) as [cur |]; [| constructor].
  apply Forall_singleton. split.
  - by eapply epoch_ok_closed_by_gap.
  - by eapply barrier_last_open.
Qed.

Lemma drop_empty_tail_sublist (l : list epoch) (e : epoch) :
  e ∈ drop_empty_tail l -> e ∈ l.
Proof.
  destruct (decide (l = [])) as [-> | Hne]; [done |].
  destruct (exists_last Hne) as (closed & cur & ->).
  destruct (drop_empty_tail_cases closed cur) as [-> | (-> & _)]; [done |].
  intros He. apply elem_of_app. by left.
Qed.

(** C1 as the code has it.  In an epoch produced by either segmenter the
    barrier op that closed it, its last op when [has_barrier] is set, never
    goes through the tracker.  When the other ops have ranges that the
    32-bit arithmetic represents as they are (size at least 1, end below
    [2^32]), the [overlaps] flag is true exactly when two of those ops, at
    distinct positions and in either order, have intersecting ranges
    [[write_sector, write_sector + size - 1]]: the incremental extension of
    ranges loses no overlap and invents none. *)
Theorem overlaps_flag_of_tracked_ops (sector_size : Z)
    (trace : list disk_write) (e : epoch) :
  e ∈ InitDataVector sector_size trace
  \/ e ∈ InitDataVectorSoft sector_size trace ->
  (has_barrier e = true ->
   exists o, last (ops e) = Some o /\ is_barrier (op o) = true)
  /\ (Forall range_wf (tracked e) ->
      (overlaps e = true <-> has_overlapping_pair (tracked e)))
  /\ (forall a b, ranges_intersect a b <-> ranges_intersect b a).
Proof.
  intros He.
  enough (epoch_overlap_ok e /\ barrier_last e) as [Hok Hlast].
  { split; [exact Hlast |]. split; [exact Hok | apply ranges_intersect_sym]. }
  destruct He as [He | He].
  - rewrite InitDataVector_view in He.
    pose proof (view_flag_run_ind overlap_inv overlap_inv_flag_step trace
                  view_flag_init) as Hinv.
    apply overlap_inv_epochs in Hinv; [| by split; [constructor |]].
    rewrite Forall_forall in Hinv. by apply Hinv.
  - destruct (InitDataVectorSoft_view sector_size trace) as [Heq _].
    rewrite Heq in He. apply drop_empty_tail_sublist in He.
    pose proof (view_soft_run_ind overlap_inv overlap_inv_soft_step trace
                  view_soft_init) as Hinv.
    apply overlap_inv_epochs in Hinv;
      [| split; [constructor | apply (cur_inv_fresh 0)]].
    rewrite Forall_forall in Hinv. by apply Hinv.
Qed.

Lemma overlaps_flag_of_tracked_ops_witness :
  exists e,
    InitDataVector 512
      [bio 0 1024 0 F_WRITE [1]; bio 1 1024 0 F_WRITE [2];
       bio 100 512 0 F_WRITE_FUA [3]] = [e]
    /\ (overlaps e = true <-> has_overlapping_pair (tracked e)).
Proof.
  eexists. split; [vm_compute; reflexivity |].
  apply (overlaps_flag_of_tracked_ops 512
           [bio 0 1024 0 F_WRITE [1]; bio 1 1024 0 F_WRITE [2];
            bio 100 512 0 F_WRITE_FUA [3]]).
  - left. vm_compute. apply list_elem_of_here.
  - repeat constructor; cbn; lia.
Defined.

(** C1 as stated fails in both directions.  A FUA write that closes an
    epoch is appended without a look at the tracker: it overlaps the write
    before it and the flag stays false.  A write of size 0 has an empty
    range, which intersects nothing, and yet raises the flag when its start
    sector lies inside an earlier range.  A range that ends past [2^32] is
    cut to 32 bits and then meets a write at sector 0. *)
Lemma overlaps_flag_not_pairwise :
  (exists e,
      e ∈ InitDataVector 512
            [bio 1 1024 0 F_WRITE [1]; bio 0 1024 0 F_WRITE_FUA [2]]
      /\ overlaps e = false
      /\ has_overlapping_pair (map op (ops e)))
  /\ (exists e,
         e ∈ InitDataVector 512
               [bio 3 4 0 F_WRITE [1]; bio 5 0 0 F_WRITE []]
         /\ overlaps e = true
         /\ ~ has_overlapping_pair (map op (ops e)))
  /\ (exists e,
         e ∈ InitDataVector 512
               [bio 0 1 0 F_WRITE [1]; bio 4294967295 2 0 F_WRITE [2; 3]]
         /\ overlaps e = true
         /\ ~ has_overlapping_pair (map op (ops e))).
Proof.
  split; [| split].
  - eexists. split; [vm_compute; apply list_elem_of_here |].
    split; [reflexivity |].
    exists 0%nat, 1%nat. do 2 eexists.
    split; [lia |]. split; [reflexivity |]. split; [reflexivity |].
    exists 1. unfold op_lo, op_hi. cbn. lia.
  - eexists. split; [vm_compute; apply list_elem_of_here |].
    split; [reflexivity |].
    intros (i & j & a & b & Hne & Hi & Hj & x & Ha & Hb).
    destruct i as [| [| i]], j as [| [| j]]; cbn in Hi, Hj;
      try discriminate; try lia;
      simplify_eq; unfold op_lo, op_hi in *; cbn in *; lia.
  - eexists. split; [vm_compute; apply list_elem_of_here |].
    split; [reflexivity |].
    intros (i & j & a & b & Hne & Hi & Hj & x & Ha & Hb).
    destruct i as [| [| i]], j as [| [| j]]; cbn in Hi, Hj;
      try discriminate; try lia;
      simplify_eq; unfold op_lo, op_hi in *; cbn in *; lia.
Qed.

(** ** The hash loops *)

Lemma bind_Ok {A B : Type} (r : result A) (k : A -> result B) (b : B) :
  r ≫= k = Ok b <-> exists a, r = Ok a /\ k a = Ok b.
Proof.
  destruct r as [a | f]; cbn.
  - split; [by exists a | by intros (a' & [= <-] & Hk)].
  - split; [discriminate | by intros (a' & [=] & _)].
Qed.

Lemma store_at_frontier_eq {A : Type} (done : list A) (d x : A) (k i : nat) :
  i = length done ->
  store_at i x (done ++ replicate (S k) d) = Ok ((done ++ [x]) ++ replicate k d).
Proof. intros ->. apply store_at_frontier. Qed.

Lemma copy_loop_spec {A B : Type} (f : A -> B) (d : B) (src : list A) :
  Z.of_nat (length src) < 2 ^ 32 ->
  forall (fuel k : nat),
    (k <= length src)%nat ->
    (length src - k < fuel)%nat ->
    copy_loop f fuel src (Z.of_nat k)
      (map f (take k src) ++ replicate (length src - k) d)
    = Ok (map f src).
Proof.
  intros Hlen fuel. induction fuel as [| fuel IH]; intros k Hk Hfuel; [lia |].
  cbn [copy_loop].
  destruct (Z.ltb_spec (Z.of_nat k) (Z.of_nat (length src))) as [Hlt | Hge].
  - rewrite Nat2Z.id.
    destruct (lookup_lt_is_Some_2 src k ltac:(lia)) as [a Ha]. rewrite Ha.
    replace (length src - k)%nat with (S (length src - S k)) by lia.
    rewrite store_at_frontier_eq
      by (rewrite length_map, length_take; lia).
    cbn [mbind result_bind].
    rewrite u32_small by lia.
    replace (Z.of_nat k + 1) with (Z.of_nat (S k)) by lia.
    specialize (IH (S k)). rewrite (take_S_r _ _ _ Ha), map_app in IH.
    apply IH; lia.
  - assert (k = length src) as -> by lia.
    rewrite Nat.sub_diag, firstn_all. cbn. by rewrite app_nil_r.
Qed.

Lemma copy_vector_Ok {A B : Type} (f : A -> B) (d : B) (src : list A) :
  Z.of_nat (length src) < 2 ^ 32 -> copy_vector f d src = Ok (map f src).
Proof.
  intros Hlen. unfold copy_vector.
  pose proof (copy_loop_spec f d src Hlen (S (length src)) 0) as Hloop.
  rewrite Nat.sub_0_r in Hloop. apply Hloop; lia.
Qed.

Lemma copy_loop_long {A B : Type} (f : A -> B) (src : list A) :
  2 ^ 32 <= Z.of_nat (length src) ->
  forall (fuel : nat) (i : Z) (dst h : list B),
    0 <= i < 2 ^ 32 -> copy_loop f fuel src i dst <> Ok h.
Proof.
  intros Hlen fuel. induction fuel as [| fuel IH]; intros i dst h Hi; [done |].
  cbn [copy_loop].
  destruct (Z.ltb_spec i (Z.of_nat (length src))) as [_ | Hge]; [| lia].
  destruct (src !! Z.to_nat i); [| done].
  destruct (store_at _ _ dst) as [dst' |]; [| done]. cbn [mbind result_bind].
  apply IH, u32_range.
Qed.

(** Whenever the whole-op hash loop returns, it returns the sequence of
    [abs_index] values. *)
Lemma copy_vector_Ok_inv {A B : Type} (f : A -> B) (d : B) (src : list A)
    (h : list B) :
  copy_vector f d src = Ok h -> h = map f src.
Proof.
  intros Hh. destruct (Z_lt_ge_dec (Z.of_nat (length src)) (2 ^ 32)) as [Hlt | Hge].
  - rewrite copy_vector_Ok in Hh by exact Hlt. congruence.
  - exfalso. revert Hh. apply copy_loop_long; lia.
Qed.

Lemma interleaved_pairs_length (res : list DiskWriteData) :
  length (interleaved_pairs res) = (2 * length res)%nat.
Proof.
  unfold interleaved_pairs. induction res as [| d res IH]; [reflexivity |].
  cbn. rewrite IH. lia.
Qed.

Lemma interleaved_pairs_snoc (res : list DiskWriteData) (d : DiskWriteData) :
  interleaved_pairs (res ++ [d])
  = interleaved_pairs res ++ [bio_index d; bio_sector_index d].
Proof. unfold interleaved_pairs. by rewrite flat_map_app. Qed.

Lemma sector_hash_loop_spec (res : list DiskWriteData) :
  Z.of_nat (length res) < 2 ^ 31 ->
  forall (fuel k : nat),
    (k <= length res)%nat ->
    (length res - k < fuel)%nat ->
    sector_hash_loop fuel res (Z.of_nat k)
      (interleaved_pairs (take k res) ++ replicate (2 * (length res - k)) 0)
    = Ok (interleaved_pairs res).
Proof.
  intros Hlen fuel. induction fuel as [| fuel IH]; intros k Hk Hfuel; [lia |].
  cbn [sector_hash_loop].
  destruct (Z.ltb_spec (Z.of_nat k) (Z.of_nat (length res))) as [Hlt | Hge].
  - rewrite Nat2Z.id.
    destruct (lookup_lt_is_Some_2 res k ltac:(lia)) as [d Hd]. rewrite Hd.
    rewrite Z.shiftl_mul_pow2 by lia. change (2 ^ 1) with 2.
    rewrite (u32_small (Z.of_nat k * 2)) by lia.
    rewrite (u32_small (Z.of_nat k * 2 + 1)) by lia.
    replace (2 * (length res - k))%nat
      with (S (S (2 * (length res - S k)))) by lia.
    rewrite store_at_frontier_eq
      by (rewrite interleaved_pairs_length, length_take; lia).
    cbn [mbind result_bind].
    rewrite store_at_frontier_eq
      by (rewrite length_app, interleaved_pairs_length, length_take; cbn; lia).
    cbn [mbind result_bind].
    rewrite u32_small by lia.
    replace (Z.of_nat k + 1) with (Z.of_nat (S k)) by lia.
    specialize (IH (S k)).
    rewrite (take_S_r _ _ _ Hd), interleaved_pairs_snoc in IH.
    rewrite <- IH by lia. f_equal.
    rewrite <- !app_assoc. reflexivity.
  - assert (k = length res) as -> by lia.
    rewrite Nat.sub_diag, firstn_all. cbn. by rewrite app_nil_r.
Qed.

(** Below [2^31] sector writes the sector hash is the interleaving of the
    specification. *)
Lemma sector_hash_Ok (res : list DiskWriteData) :
  Z.of_nat (length res) < 2 ^ 31 ->
  sector_hash res = Ok (interleaved_pairs res).
Proof.
  intros Hlen. unfold sector_hash.
  pose proof (sector_hash_loop_spec res Hlen (S (length res)) 0) as Hloop.
  rewrite Nat.sub_0_r in Hloop. cbn [take interleaved_pairs flat_map app] in Hloop.
  replace (length res * 2)%nat with (2 * length res)%nat by lia.
  apply Hloop; lia.
Qed.

(** ** The proposal loops and the memo *)

(** ** The rounds of a proposal loop *)

Lemma proposal_loop_round {C T X : Type}
    (hook : T -> list C -> PermuteTestResult X ->
            bool * list C * PermuteTestResult X * T)
    (hash : list C -> result (list Z)) (memo : gset (list Z)) (M : Z)
    (fuel : nat) (st : T) (v : list C) (log : PermuteTestResult X) (r : Z)
    (ns : bool) (v' : list C) (log' : PermuteTestResult X) (st' : T)
    (h : list Z) :
  hook st v log = (ns, v', log', st') ->
  hash v' = Ok h ->
  proposal_loop hook hash memo M (S fuel) st v log r
  = if negb ns || (M <=? u64 (r + 1)) then
      Ok (mk_exit ns v' h (memo_count memo h) (u64 (r + 1)) log' st')
    else if 0 <? memo_count memo h then
      proposal_loop hook hash memo M fuel st' v' log' (u64 (r + 1))
    else Ok (mk_exit ns v' h (memo_count memo h) (u64 (r + 1)) log' st').
Proof.
  intros Hhook Hhash. cbn [proposal_loop]. rewrite Hhook, Hhash. reflexivity.
Qed.

Lemma nth_proposal_S {C T X : Type}
    (hook : T -> list C -> PermuteTestResult X ->
            bool * list C * PermuteTestResult X * T)
    (k : nat) (st : T) (v : list C) (log : PermuteTestResult X)
    (ns : bool) (v' : list C) (log' : PermuteTestResult X) (st' : T) :
  hook st v log = (ns, v', log', st') ->
  nth_proposal hook (S k) st v log = nth_proposal hook k st' v' log'.
Proof. intros Hhook. cbn [nth_proposal]. by rewrite Hhook. Qed.

(** A loop given [budget + 1] retries, whose hash loop returns on every
    proposal it gets to, stops at one of its first [budget + 1] proposals:
    proposal [j] is the first that comes with the flag cleared, or uses up
    the retries, or is not in the memo.  The loop asks for the proposals
    [0 .. j] and no other: with fewer than [j + 1] rounds it has not
    returned. *)
Lemma proposal_loop_rounds {C T X : Type}
    (hook : T -> list C -> PermuteTestResult X ->
            bool * list C * PermuteTestResult X * T)
    (hash : list C -> result (list Z)) (memo : gset (list Z)) (M : Z) :
  M < 2 ^ 64 ->
  forall (budget : nat) (r : Z) (st : T) (v : list C)
         (log : PermuteTestResult X),
    0 <= r ->
    r + Z.of_nat (S budget) = M ->
    (forall k, (k <= budget)%nat ->
               asked_for memo hash (fun k => nth_proposal hook k st v log) k ->
               exists h,
                 hash (proposed_state (nth_proposal hook k st v log)) = Ok h) ->
    exists (j : nat) (h : list Z),
      (j <= budget)%nat
      /\ hash (proposed_state (nth_proposal hook j st v log)) = Ok h
      /\ asked_for memo hash (fun k => nth_proposal hook k st v log) j
      /\ (proposed_flag (nth_proposal hook j st v log) = false
          \/ M <= r + Z.of_nat (S j)
          \/ h ∉ memo)
      /\ (forall fuel, (j < fuel)%nat ->
                       proposal_loop hook hash memo M fuel st v log r
                       = Ok (mk_exit
                               (proposed_flag (nth_proposal hook j st v log))
                               (proposed_state (nth_proposal hook j st v log))
                               h (memo_count memo h) (r + Z.of_nat (S j))
                               (proposed_log (nth_proposal hook j st v log))
                               (proposed_strategy
                                  (nth_proposal hook j st v log))))
      /\ (forall fuel, (fuel <= j)%nat ->
                       proposal_loop hook hash memo M fuel st v log r
                       = Err OutOfFuel).
Proof.
  intros HM. induction budget as [| budget IH]; intros r st v log Hr Hsum Hhash.
  - destruct (Hhash 0%nat ltac:(lia)) as [h Hh]; [intros i Hi; lia |].
    cbn [nth_proposal] in Hh.
    destruct (hook st v log) as [[[ns v'] log'] st'] eqn:Hhook.
    cbn [proposed_state fst snd] in Hh.
    exists 0%nat, h. cbn [nth_proposal]. rewrite Hhook.
    cbn [proposed_state proposed_flag proposed_log proposed_strategy
         fst snd].
    split; [lia |]. split; [exact Hh |].
    split; [intros i Hi; lia |]. split; [right; left; lia |].
    split.
    + intros [| fuel] Hfuel; [lia |].
      rewrite (proposal_loop_round _ _ _ _ _ _ _ _ _ _ _ _ _ _ Hhook Hh).
      rewrite u64_small by lia.
      replace (M <=? r + 1) with true by (symmetry; apply Z.leb_le; lia).
      rewrite orb_true_r. do 2 f_equal; lia.
    + intros fuel Hfuel. by replace fuel with 0%nat by lia.
  - destruct (Hhash 0%nat ltac:(lia)) as [h Hh]; [intros i Hi; lia |].
    cbn [nth_proposal] in Hh.
    destruct (hook st v log) as [[[ns v'] log'] st'] eqn:Hhook.
    cbn [proposed_state fst snd] in Hh.
    assert (u64 (r + 1) = r + 1) as Hu by (rewrite u64_small; lia).
    assert ((M <=? r + 1) = false) as Hlt by (apply Z.leb_gt; lia).
    destruct (decide (ns = true /\ h ∈ memo)) as [[-> Hin] | Hstop].
    + assert (forall k,
                 asked_for memo hash
                   (fun k => nth_proposal hook k st' v' log') k ->
                 asked_for memo hash
                   (fun k => nth_proposal hook k st v log) (S k)) as Hshift.
      { intros k Hk [| i] Hi.
        - cbn [nth_proposal]. rewrite Hhook. split; [reflexivity |].
          exists h. by split.
        - rewrite (nth_proposal_S _ i _ _ _ _ _ _ _ Hhook).
          apply Hk. lia. }
      destruct (IH (r + 1) st' v' log' ltac:(lia) ltac:(lia))
        as (j & hj & Hj & Hhj & Hbefore & Hreason & Hok & Hout).
      { intros k Hk Hasked.
        destruct (Hhash (S k) ltac:(lia) (Hshift k Hasked)) as [hk Hhk].
        rewrite (nth_proposal_S _ _ _ _ _ _ _ _ _ Hhook) in Hhk. eauto. }
      exists (S j), hj.
      rewrite !(nth_proposal_S _ j _ _ _ _ _ _ _ Hhook).
      split; [lia |]. split; [exact Hhj |].
      split; [by apply Hshift |].
      split.
      { destruct Hreason as [Hf | [Hm | Hn]]; [by left | right; left; lia |
                                                 by right; right]. }
      split.
      * intros [| fuel] Hfuel; [lia |].
        rewrite (proposal_loop_round _ _ _ _ _ _ _ _ _ _ _ _ _ _ Hhook Hh).
        rewrite Hu, Hlt. cbn [negb orb].
        replace (0 <? memo_count memo h) with true
          by (unfold memo_count; by rewrite decide_True).
        rewrite (Hok fuel ltac:(lia)). do 2 f_equal; lia.
      * intros [| fuel] Hfuel; [reflexivity |].
        rewrite (proposal_loop_round _ _ _ _ _ _ _ _ _ _ _ _ _ _ Hhook Hh).
        rewrite Hu, Hlt. cbn [negb orb].
        replace (0 <? memo_count memo h) with true
          by (unfold memo_count; by rewrite decide_True).
        apply Hout. lia.
    + exists 0%nat, h. cbn [nth_proposal]. rewrite Hhook.
      cbn [proposed_state proposed_flag proposed_log proposed_strategy
           fst snd].
      split; [lia |]. split; [exact Hh |].
      split; [intros i Hi; lia |]. split.
      { destruct ns; [| by left]. right. right. intros Hin. by apply Hstop. }
      split.
      * intros [| fuel] Hfuel; [lia |].
        rewrite (proposal_loop_round _ _ _ _ _ _ _ _ _ _ _ _ _ _ Hhook Hh).
        rewrite Hu, Hlt.
        replace (r + Z.of_nat 1) with (r + 1) by lia.
        destruct ns; cbn [negb orb]; [| reflexivity].
        replace (0 <? memo_count memo h) with false; [reflexivity |].
        unfold memo_count. rewrite decide_False; [reflexivity |].
        intros Hin. by apply Hstop.
      * intros fuel Hfuel. by replace fuel with 0%nat by lia.
Qed.

Lemma asked_for_earlier {C T X : Type} (memo : gset (list Z))
    (hash : list C -> result (list Z))
    (proposal : nat -> bool * list C * PermuteTestResult X * T) (i k : nat) :
  (i <= k)%nat -> asked_for memo hash proposal k ->
  asked_for memo hash proposal i.
Proof. intros Hik Hk i' Hi'. apply Hk. lia. Qed.

(** The same for a loop that starts with no retry used, read with the
    value [hash_of] of the hash that the hash loop computes. *)
Lemma proposal_loop_stops {C T X : Type}
    (hook : T -> list C -> PermuteTestResult X ->
            bool * list C * PermuteTestResult X * T)
    (hash : list C -> result (list Z)) (hash_of : list C -> list Z)
    (memo : gset (list Z)) (M : Z) (st : T) (v : list C)
    (log : PermuteTestResult X) :
  1 <= M < 2 ^ 64 ->
  (forall k : nat,
      Z.of_nat k < M ->
      asked_for memo hash (fun k => nth_proposal hook k st v log) k ->
      hash (proposed_state (nth_proposal hook k st v log))
      = Ok (hash_of (proposed_state (nth_proposal hook k st v log)))) ->
  exists j : nat,
    Z.of_nat (S j) <= M
    /\ asked_for memo hash (fun k => nth_proposal hook k st v log) j
    /\ loop_stops_at memo M hash_of (fun k => nth_proposal hook k st v log) j
    /\ (forall fuel, (j < fuel)%nat ->
                     proposal_loop hook hash memo M fuel st v log 0
                     = Ok (exit_at memo hash_of
                             (fun k => nth_proposal hook k st v log) j))
    /\ (forall fuel, (fuel <= j)%nat ->
                     proposal_loop hook hash memo M fuel st v log 0
                     = Err OutOfFuel).
Proof.
  intros HM Hhash.
  destruct (proposal_loop_rounds hook hash memo M ltac:(lia)
              (Z.to_nat M - 1) 0 st v log ltac:(lia) ltac:(lia))
    as (j & h & Hj & Hh & Hbefore & Hreason & Hok & Hout).
  { intros k Hk Hasked. eexists. apply Hhash; [lia | exact Hasked]. }
  rewrite Hhash in Hh by (lia || exact Hbefore). injection Hh as <-.
  exists j. split; [lia |]. split; [exact Hbefore |]. split; [split |].
  - intros i Hi. destruct (Hbefore i Hi) as (Hflag & hi & Hhi & Hin).
    cbn beta in Hhi. rewrite Hhash in Hhi.
    + injection Hhi as <-. by split.
    + lia.
    + apply (asked_for_earlier _ _ _ i j); [lia | exact Hbefore].
  - destruct Hreason as [Hf | [Hm | Hn]]; [by left | right; left; lia |
                                             by right; right].
  - split; [| exact Hout]. intros fuel Hfuel. rewrite (Hok fuel Hfuel).
    unfold exit_at. do 2 f_equal; lia.
Qed.

Section GeneratorProps.
Context {T X : Type} `{Strategy T X}.

Lemma memo_count_zero (memo : gset (list Z)) (h : list Z) :
  (memo_count memo h =? 0) = true <-> h ∉ memo.
Proof.
  unfold memo_count. destruct (decide (h ∈ memo)); cbn; split; try done.
Qed.

Lemma memo_count_pos (memo : gset (list Z)) (h : list Z) :
  (0 <? memo_count memo h) = true <-> h ∈ memo.
Proof.
  unfold memo_count. destruct (decide (h ∈ memo)); cbn; split; try done.
Qed.

(** What holds when the whole-op loop is left, however it is left. *)
Lemma whole_loop_exit (fuel : nat) (p : Permuter) (M : Z) :
  forall st cs log r e,
    whole_loop fuel p M st cs log r = Ok e ->
    exit_exists e = memo_count (completed_permutations_ p) (exit_hash e)
    /\ copy_vector abs_index 0 (exit_state e) = Ok (exit_hash e)
    /\ (exit_new_state e = false \/ M <= exit_retries e
        \/ exit_hash e ∉ completed_permutations_ p).
Proof.
  induction fuel as [| fuel IH]; intros st cs log r e Hloop; [done |].
  cbn [whole_loop] in Hloop.
  destruct (gen_one_state st (epochs_ p) cs log) as [[[ns cs'] log'] st'].
  apply bind_Ok in Hloop as (h & Hh & Hloop).
  destruct (negb ns || (M <=? u64 (r + 1))) eqn:Hbreak.
  - injection Hloop as <-. cbn. split; [reflexivity |]. split; [exact Hh |].
    apply orb_true_iff in Hbreak as [Hns | HM].
    + left. by destruct ns.
    + right. left. by apply Z.leb_le.
  - destruct (0 <? memo_count (completed_permutations_ p) h) eqn:Hex.
    + by apply IH in Hloop.
    + injection Hloop as <-. cbn. split; [reflexivity |]. split; [exact Hh |].
      right. right. intros Hin. apply memo_count_pos in Hin. congruence.
Qed.

Lemma sector_loop_exit (fuel : nat) (p : Permuter) (M : Z) :
  forall st res log r e,
    sector_loop fuel p M st res log r = Ok e ->
    exit_exists e = memo_count (completed_permutations_ p) (exit_hash e)
    /\ sector_hash (exit_state e) = Ok (exit_hash e)
    /\ (exit_new_state e = false \/ M <= exit_retries e
        \/ exit_hash e ∉ completed_permutations_ p).
Proof.
  induction fuel as [| fuel IH]; intros st res log r e Hloop; [done |].
  cbn [sector_loop] in Hloop.
  destruct (gen_one_sector_state st (epochs_ p) res log)
    as [[[ns res'] log'] st'].
  apply bind_Ok in Hloop as (h & Hh & Hloop).
  destruct (negb ns || (M <=? u64 (r + 1))) eqn:Hbreak.
  - injection Hloop as <-. cbn. split; [reflexivity |]. split; [exact Hh |].
    apply orb_true_iff in Hbreak as [Hns | HM].
    + left. by destruct ns.
    + right. left. by apply Z.leb_le.
  - destruct (0 <? memo_count (completed_permutations_ p) h) eqn:Hex.
    + by apply IH in Hloop.
    + injection Hloop as <-. cbn. split; [reflexivity |]. split; [exact Hh |].
      right. right. intros Hin. apply memo_count_pos in Hin. congruence.
Qed.

Lemma GenerateCrashState_fuel_ok (fuel : nat) p st res log r :
  GenerateCrashState_fuel fuel p st res log = Ok r -> call_ok false p r.
Proof.
  unfold GenerateCrashState_fuel. intros Hcall.
  apply bind_Ok in Hcall as (e & Hloop & Hcall).
  apply bind_Ok in Hcall as (res' & Hres & Hcall).
  apply whole_loop_exit in Hloop as (Hex & Hhash & _).
  apply copy_vector_Ok_inv in Hres, Hhash.
  assert (exit_hash e = map bio_index res') as Hbio.
  { rewrite Hres, Hhash, map_map. reflexivity. }
  destruct (exit_exists e =? 0) eqn:Hz; injection Hcall as <-;
    rewrite Hex in Hz; unfold call_ok; cbn.
  - apply memo_count_zero in Hz. repeat split; try done.
  - assert (exit_hash e ∈ completed_permutations_ p) as Hin.
    { destruct (decide (exit_hash e ∈ completed_permutations_ p)); [done |].
      apply memo_count_zero in n. congruence. }
    repeat split; try done.
Qed.

Lemma GenerateSectorCrashState_fuel_ok (fuel : nat) p st res log r :
  GenerateSectorCrashState_fuel fuel p st res log = Ok r -> call_ok true p r.
Proof.
  unfold GenerateSectorCrashState_fuel. intros Hcall.
  apply bind_Ok in Hcall as (e & Hloop & Hcall).
  apply sector_loop_exit in Hloop as (Hex & Hhash & _).
  assert (Z.of_nat (length (exit_state e)) < 2 ^ 31 ->
          exit_hash e = interleaved_pairs (exit_state e)) as Hbio.
  { intros Hlen. rewrite sector_hash_Ok in Hhash by exact Hlen. congruence. }
  destruct (exit_exists e =? 0) eqn:Hz; injection Hcall as <-;
    rewrite Hex in Hz; unfold call_ok; cbn.
  - apply memo_count_zero in Hz. repeat split; try done.
  - assert (exit_hash e ∈ completed_permutations_ p) as Hin.
    { destruct (decide (exit_hash e ∈ completed_permutations_ p)); [done |].
      apply memo_count_zero in n. congruence. }
    repeat split; try done.
Qed.

Lemma call_ok_memo_mono (sector : bool) p
    (r : call_result (T := T) (X := X)) :
  call_ok sector p r ->
  completed_permutations_ p ⊆ completed_permutations_ (call_permuter r).
Proof.
  intros (_ & Hnew & Hold & _).
  destruct (decide (call_hash r ∈ completed_permutations_ p)) as [Hin | Hnin].
  - by destruct (Hold Hin) as [-> _].
  - rewrite (Hnew Hnin). set_solver.
Qed.

Lemma call_ok_accepted_in (sector : bool) p
    (r : call_result (T := T) (X := X)) :
  call_ok sector p r ->
  returned r = true ->
  call_hash r ∈ completed_permutations_ (call_permuter r).
Proof.
  intros (Hret & Hnew & _) Htrue. rewrite (Hnew (Hret Htrue)). set_solver.
Qed.

(** Along a sequence of calls: the accepted hashes are pairwise distinct
    and were not in the memo at the start, the memo only grows, and each
    call is as [call_ok] says. *)
Lemma run_calls_accepted (calls : list call) :
  forall p st rs p' st',
    run_calls calls p st = Ok (rs, p', st') ->
    NoDup (accepted_hashes rs)
    /\ (forall h, h ∈ accepted_hashes rs -> h ∉ completed_permutations_ p)
    /\ completed_permutations_ p ⊆ completed_permutations_ p'
    /\ Forall (fun r => exists q, call_ok (fst r) q (snd r)) rs.
Proof.
  induction calls as [| c rest IH]; intros p st rs p' st' Hrun.
  - injection Hrun as <- <- <-. cbn.
    split; [constructor |]. split; [by intros h Hh; apply elem_of_nil in Hh |].
    split; [done | constructor].
  - cbn [run_calls] in Hrun.
    assert (forall (sector : bool) (r : call_result (T := T) (X := X)) rs0,
               call_ok sector p r ->
               run_calls rest (call_permuter r) (call_strategy r)
               = Ok (rs0, p', st') ->
               NoDup (accepted_hashes ((sector, r) :: rs0))
               /\ (forall h, h ∈ accepted_hashes ((sector, r) :: rs0) ->
                             h ∉ completed_permutations_ p)
               /\ completed_permutations_ p ⊆ completed_permutations_ p'
               /\ Forall (fun r => exists q, call_ok (fst r) q (snd r))
                    ((sector, r) :: rs0)) as Hgen.
    { intros sector r rs0 Hok Hrest.
      destruct (IH _ _ _ _ _ Hrest) as (Hnd & Hfresh & Hmono & Hall).
      pose proof (call_ok_memo_mono sector p r Hok) as Hstep.
      split; [| split; [| split]].
      - unfold accepted_hashes. cbn [filter list_filter].
        destruct (decide (returned (sector, r).2 = true)) as [Htrue | _];
          [| exact Hnd].
        cbn [map]. constructor; [| exact Hnd].
        intros Hin. apply Hfresh in Hin. apply Hin.
        by apply (call_ok_accepted_in sector p r).
      - intros h Hh. unfold accepted_hashes in Hh. cbn [filter list_filter] in Hh.
        destruct (decide (returned (sector, r).2 = true)) as [Htrue | _].
        + cbn [map] in Hh. apply elem_of_cons in Hh as [-> | Hh].
          * by apply Hok.
          * apply Hfresh in Hh. set_solver.
        + apply Hfresh in Hh. set_solver.
      - set_solver.
      - constructor; [by exists p | exact Hall]. }
    destruct c as [res log | res log | ss trace | ss trace].
    + apply bind_Ok in Hrun as (r & Hr & Hrun).
      apply bind_Ok in Hrun as ([[rs0 p0] st0] & Hrest & Hrun).
      injection Hrun as <- <- <-.
      apply (Hgen false r rs0); [| exact Hrest].
      by apply GenerateCrashState_fuel_ok in Hr.
    + apply bind_Ok in Hrun as (r & Hr & Hrun).
      apply bind_Ok in Hrun as ([[rs0 p0] st0] & Hrest & Hrun).
      injection Hrun as <- <- <-.
      apply (Hgen true r rs0); [| exact Hrest].
      by apply GenerateSectorCrashState_fuel_ok in Hr.
    + by apply IH in Hrun.
    + by apply IH in Hrun.
Qed.

(** One round of each loop. *)
Lemma whole_loop_round (fuel : nat) p M st cs log r :
  whole_loop (S fuel) p M st cs log r
  = let '(new_state, crash_state, log, st) :=
      gen_one_state st (epochs_ p) cs log in
    crash_state_hash ← copy_vector abs_index 0 crash_state;
    let retries := u64 (r + 1) in
    let exists_ := memo_count (completed_permutations_ p) crash_state_hash in
    if negb new_state || (M <=? retries) then
      Ok (mk_exit new_state crash_state crash_state_hash exists_ retries
            log st)
    else if 0 <? exists_ then
      whole_loop fuel p M st crash_state log retries
    else
      Ok (mk_exit new_state crash_state crash_state_hash exists_ retries
            log st).
Proof. reflexivity. Qed.

Lemma sector_loop_round (fuel : nat) p M st res log r :
  sector_loop (S fuel) p M st res log r
  = let '(new_state, res, log, st) :=
      gen_one_sector_state st (epochs_ p) res log in
    crash_state_hash ← sector_hash res;
    let retries := u64 (r + 1) in
    let exists_ := memo_count (completed_permutations_ p) crash_state_hash in
    if negb new_state || (M <=? retries) then
      Ok (mk_exit new_state res crash_state_hash exists_ retries log st)
    else if 0 <? exists_ then
      sector_loop fuel p M st res log retries
    else
      Ok (mk_exit new_state res crash_state_hash exists_ retries log st).
Proof. reflexivity. Qed.

Lemma proposals_bounded_hashable :
  proposals_bounded -> whole_hashable /\ sector_hashable.
Proof.
  intros [Hw Hs]. split.
  - intros st epochs cs log. eexists. apply copy_vector_Ok, Hw.
  - intros st epochs res log. eexists. apply sector_hash_Ok, Hs.
Qed.

(** Each loop entered with [retries = r] and [S k] rounds left before
    [max_retries]: it runs some [n] rounds, [1 <= n <= S k], asks the
    strategy once per round, and leaves with [retries = r + n]. *)
Lemma whole_loop_runs (p : Permuter) (M : Z) :
  whole_hashable ->
  M < 2 ^ 64 ->
  forall (k : nat) r st cs log,
    0 <= r ->
    r + Z.of_nat (S k) = M ->
    exists e (n : nat),
      (1 <= n <= S k)%nat
      /\ exit_retries e = r + Z.of_nat n
      /\ (forall fuel, (n <= fuel)%nat ->
                       whole_loop fuel p M st cs log r = Ok e)
      /\ (forall fuel, (fuel < n)%nat ->
                       whole_loop fuel p M st cs log r = Err OutOfFuel).
Proof.
  intros Hhash HM k.
  induction k as [| k IH]; intros r st cs log Hr Hk.
  - destruct (Hhash st (epochs_ p) cs log) as [h Hh].
    destruct (gen_one_state st (epochs_ p) cs log) as [[[ns cs'] log'] st']
      eqn:Hg.
    cbn [fst snd] in Hh.
    eexists. exists 1%nat. split; [lia |].
    split; [| split].
    2:{ intros [| fuel] Hfuel; [lia |].
        rewrite whole_loop_round, Hg, Hh. cbn [mbind result_bind].
        rewrite u64_small by lia.
        replace (M <=? r + 1) with true by (symmetry; apply Z.leb_le; lia).
        rewrite orb_true_r. reflexivity. }
    + cbn. lia.
    + intros [| fuel] Hfuel; [reflexivity | lia].
  - destruct (Hhash st (epochs_ p) cs log) as [h Hh].
    destruct (gen_one_state st (epochs_ p) cs log) as [[[ns cs'] log'] st']
      eqn:Hg.
    cbn [fst snd] in Hh.
    assert (forall fuel,
               whole_loop (S fuel) p M st cs log r
               = if negb ns then
                   Ok (mk_exit ns cs' h
                         (memo_count (completed_permutations_ p) h)
                         (r + 1) log' st')
                 else if 0 <? memo_count (completed_permutations_ p) h
                 then whole_loop fuel p M st' cs' log' (r + 1)
                 else
                   Ok (mk_exit ns cs' h
                         (memo_count (completed_permutations_ p) h)
                         (r + 1) log' st')) as Hround.
    { intros fuel. rewrite whole_loop_round, Hg, Hh. cbn [mbind result_bind].
      rewrite u64_small by lia.
      replace (M <=? r + 1) with false by (symmetry; apply Z.leb_gt; lia).
      rewrite orb_false_r. reflexivity. }
    destruct (negb ns) eqn:Hns;
      [| destruct (0 <? memo_count (completed_permutations_ p) h) eqn:Hex].
    + eexists. exists 1%nat. split; [lia |]. split; [| split].
      2:{ intros [| fuel] Hfuel; [lia |]. rewrite Hround. reflexivity. }
      * reflexivity.
      * intros [| fuel] Hfuel; [reflexivity | lia].
    + destruct (IH (r + 1) st' cs' log' ltac:(lia) ltac:(lia))
        as (e & n & Hn & Hret & Hok & Hout).
      exists e, (S n). split; [lia |]. split; [lia |]. split.
      * intros [| fuel] Hfuel; [lia |]. rewrite Hround. apply Hok. lia.
      * intros [| fuel] Hfuel; [reflexivity |]. rewrite Hround.
        apply Hout. lia.
    + eexists. exists 1%nat. split; [lia |]. split; [| split].
      2:{ intros [| fuel] Hfuel; [lia |]. rewrite Hround. reflexivity. }
      * reflexivity.
      * intros [| fuel] Hfuel; [reflexivity | lia].
Qed.

Lemma sector_loop_runs (p : Permuter) (M : Z) :
  sector_hashable ->
  M < 2 ^ 64 ->
  forall (k : nat) r st res log,
    0 <= r ->
    r + Z.of_nat (S k) = M ->
    exists e (n : nat),
      (1 <= n <= S k)%nat
      /\ exit_retries e = r + Z.of_nat n
      /\ (forall fuel, (n <= fuel)%nat ->
                       sector_loop fuel p M st res log r = Ok e)
      /\ (forall fuel, (fuel < n)%nat ->
                       sector_loop fuel p M st res log r = Err OutOfFuel).
Proof.
  intros Hhash HM k.
  induction k as [| k IH]; intros r st res log Hr Hk.
  - destruct (Hhash st (epochs_ p) res log) as [h Hh].
    destruct (gen_one_sector_state st (epochs_ p) res log) as [[[ns res'] log'] st']
      eqn:Hg.
    cbn [fst snd] in Hh.
    eexists. exists 1%nat. split; [lia |].
    split; [| split].
    2:{ intros [| fuel] Hfuel; [lia |].
        rewrite sector_loop_round, Hg, Hh. cbn [mbind result_bind].
        rewrite u64_small by lia.
        replace (M <=? r + 1) with true by (symmetry; apply Z.leb_le; lia).
        rewrite orb_true_r. reflexivity. }
    + cbn. lia.
    + intros [| fuel] Hfuel; [reflexivity | lia].
  - destruct (Hhash st (epochs_ p) res log) as [h Hh].
    destruct (gen_one_sector_state st (epochs_ p) res log) as [[[ns res'] log'] st']
      eqn:Hg.
    cbn [fst snd] in Hh.
    assert (forall fuel,
               sector_loop (S fuel) p M st res log r
               = if negb ns then
                   Ok (mk_exit ns res' h
                         (memo_count (completed_permutations_ p) h)
                         (r + 1) log' st')
                 else if 0 <? memo_count (completed_permutations_ p) h
                 then sector_loop fuel p M st' res' log' (r + 1)
                 else
                   Ok (mk_exit ns res' h
                         (memo_count (completed_permutations_ p) h)
                         (r + 1) log' st')) as Hround.
    { intros fuel. rewrite sector_loop_round, Hg, Hh. cbn [mbind result_bind].
      rewrite u64_small by lia.
      replace (M <=? r + 1) with false by (symmetry; apply Z.leb_gt; lia).
      rewrite orb_false_r. reflexivity. }
    destruct (negb ns) eqn:Hns;
      [| destruct (0 <? memo_count (completed_permutations_ p) h) eqn:Hex].
    + eexists. exists 1%nat. split; [lia |]. split; [| split].
      2:{ intros [| fuel] Hfuel; [lia |]. rewrite Hround. reflexivity. }
      * reflexivity.
      * intros [| fuel] Hfuel; [reflexivity | lia].
    + destruct (IH (r + 1) st' res' log' ltac:(lia) ltac:(lia))
        as (e & n & Hn & Hret & Hok & Hout).
      exists e, (S n). split; [lia |]. split; [lia |]. split.
      * intros [| fuel] Hfuel; [lia |]. rewrite Hround. apply Hok. lia.
      * intros [| fuel] Hfuel; [reflexivity |]. rewrite Hround.
        apply Hout. lia.
    + eexists. exists 1%nat. split; [lia |]. split; [| split].
      2:{ intros [| fuel] Hfuel; [lia |]. rewrite Hround. reflexivity. }
      * reflexivity.
      * intros [| fuel] Hfuel; [reflexivity | lia].
Qed.

Lemma max_retries_of_range (memo : gset (list Z)) :
  kMinRetries <= max_retries_of memo < 2 ^ 64.
Proof.
  unfold max_retries_of, kMinRetries.
  pose proof (u64_range (kRetryMultiplier * Z.of_nat (base.size memo))).
  destruct (Z.ltb_spec (u64 (kRetryMultiplier * Z.of_nat (base.size memo)))
              1000); lia.
Qed.

Lemma max_retries_of_max (memo : gset (list Z)) :
  2 * Z.of_nat (base.size memo) < 2 ^ 64 ->
  max_retries_of memo = Z.max 1000 (2 * Z.of_nat (base.size memo)).
Proof.
  intros Hfit. unfold max_retries_of, kMinRetries, kRetryMultiplier.
  rewrite u64_small by lia.
  destruct (Z.ltb_spec (2 * Z.of_nat (base.size memo)) 1000); lia.
Qed.

Lemma copy_vector_Ok_length {A B : Type} (f : A -> B) (d : B) (src : list A)
    (h : list B) :
  copy_vector f d src = Ok h -> Z.of_nat (length src) < 2 ^ 32.
Proof.
  intros Hh.
  destruct (Z_lt_ge_dec (Z.of_nat (length src)) (2 ^ 32)) as [Hlt | Hge];
    [exact Hlt |].
  exfalso. revert Hh. apply copy_loop_long; lia.
Qed.

Lemma GenerateCrashState_returns p st res log :
  whole_hashable ->
  exists r, GenerateCrashState p st res log = Ok r
            /\ 1 <= call_retries r
                 <= max_retries_of (completed_permutations_ p).
Proof.
  intros Hhash.
  pose proof (max_retries_of_range (completed_permutations_ p)) as HM.
  unfold kMinRetries in HM.
  destruct (whole_loop_runs p _ Hhash (proj2 HM)
              (Z.to_nat (max_retries_of (completed_permutations_ p)) - 1)
              0 st [] log ltac:(lia) ltac:(lia))
    as (e & n & Hn & Hret & Hok & _).
  specialize (Hok (Z.to_nat (max_retries_of (completed_permutations_ p)))
                ltac:(lia)).
  pose proof (whole_loop_exit _ _ _ _ _ _ _ _ Hok) as (_ & Hcopy & _).
  unfold GenerateCrashState, GenerateCrashState_fuel.
  rewrite Hok. cbn [mbind result_bind].
  rewrite copy_vector_Ok by (by eapply copy_vector_Ok_length).
  cbn [mbind result_bind].
  destruct (exit_exists e =? 0); eexists; (split; [reflexivity |]);
    cbn [call_retries]; lia.
Qed.

Lemma GenerateSectorCrashState_returns p st res log :
  sector_hashable ->
  exists r, GenerateSectorCrashState p st res log = Ok r
            /\ 1 <= call_retries r
                 <= max_retries_of (completed_permutations_ p).
Proof.
  intros Hhash.
  pose proof (max_retries_of_range (completed_permutations_ p)) as HM.
  unfold kMinRetries in HM.
  destruct (sector_loop_runs p _ Hhash (proj2 HM)
              (Z.to_nat (max_retries_of (completed_permutations_ p)) - 1)
              0 st res log ltac:(lia) ltac:(lia))
    as (e & n & Hn & Hret & Hok & _).
  specialize (Hok (Z.to_nat (max_retries_of (completed_permutations_ p)))
                ltac:(lia)).
  unfold GenerateSectorCrashState, GenerateSectorCrashState_fuel.
  rewrite Hok. cbn [mbind result_bind].
  destruct (exit_exists e =? 0); eexists; (split; [reflexivity |]);
    cbn [call_retries]; lia.
Qed.

(** With proposals that fit the counters every sequence of calls runs to
    its end. *)
Lemma run_calls_returns (calls : list call) :
  proposals_bounded ->
  forall p st, exists rs p' st', run_calls calls p st = Ok (rs, p', st').
Proof.
  intros Hbound. destruct (proposals_bounded_hashable Hbound) as [Hw Hs].
  induction calls as [| c rest IH]; intros p st; [by do 3 eexists |].
  destruct c as [res log | res log | ss trace | ss trace]; cbn [run_calls].
  - destruct (GenerateCrashState_returns p st res log Hw) as (r & -> & _).
    cbn [mbind result_bind].
    destruct (IH (call_permuter r) (call_strategy r)) as (rs & p' & st' & ->).
    cbn. by do 3 eexists.
  - destruct (GenerateSectorCrashState_returns p st res log Hs) as (r & -> & _).
    cbn [mbind result_bind].
    destruct (IH (call_permuter r) (call_strategy r)) as (rs & p' & st' & ->).
    cbn. by do 3 eexists.
  - apply IH.
  - apply IH.
Qed.

(** C4.  Over any sequence of calls on one instance (crash states asked
    for at either granularity, traces loaded again in between) that runs
    to its end, the hashes of the calls that returned [true] are pairwise
    distinct.  The hash of a whole-op call is the sequence of the
    [bio_index] values, that is of the [abs_index] values, of the state it
    returns; the hash of a sector call is the interleaving of
    [(bio_index, bio_sector_index)] over the state it returns, as long as
    that state has fewer than [2^31] entries, beyond which the 32-bit
    index of the hash loop wraps.  With proposals that fit the counters
    every sequence does run to its end. *)
Theorem no_hash_returned_twice (calls : list call) (p : Permuter) (st : T) :
  (forall (rs : list (bool * call_result)) (p' : Permuter) (st' : T),
      run_calls calls p st = Ok (rs, p', st') ->
      NoDup (accepted_hashes rs)
      /\ (forall (k : nat) (r : call_result),
             rs !! k = Some (false, r) ->
             call_hash r = map bio_index (call_res r))
      /\ (forall (k : nat) (r : call_result),
             rs !! k = Some (true, r) ->
             Z.of_nat (length (call_res r)) < 2 ^ 31 ->
             call_hash r = interleaved_pairs (call_res r)))
  /\ (proposals_bounded ->
      exists rs p' st', run_calls calls p st = Ok (rs, p', st')).
Proof.
  split; [| intros Hbound; by apply run_calls_returns].
  intros rs p' st' Hrun.
  destruct (run_calls_accepted calls p st rs p' st' Hrun)
    as (Hnd & _ & _ & Hall).
  split; [exact Hnd |]. rewrite Forall_lookup in Hall. split.
  - intros k r Hk. destruct (Hall k _ Hk) as (q & _ & _ & _ & Hh). exact Hh.
  - intros k r Hk. destruct (Hall k _ Hk) as (q & _ & _ & _ & Hh). exact Hh.
Qed.

Lemma whole_loop_shape (fuel : nat) (p : Permuter) (M : Z) :
  forall st cs log r,
    whole_loop fuel p M st cs log r
    = proposal_loop
        (fun st cs log => gen_one_state st (epochs_ p) cs log)
        (copy_vector abs_index 0) (completed_permutations_ p) M fuel
        st cs log r.
Proof.
  induction fuel as [| fuel IH]; intros st cs log r; [reflexivity |].
  rewrite whole_loop_round. cbn [proposal_loop].
  destruct (gen_one_state st (epochs_ p) cs log) as [[[ns cs'] log'] st'].
  destruct (copy_vector abs_index 0 cs') as [h | f];
    cbn [mbind result_bind]; [| reflexivity].
  destruct (negb ns || _); [reflexivity |].
  destruct (0 <? _); [apply IH | reflexivity].
Qed.

Lemma sector_loop_shape (fuel : nat) (p : Permuter) (M : Z) :
  forall st res log r,
    sector_loop fuel p M st res log r
    = proposal_loop
        (fun st res log => gen_one_sector_state st (epochs_ p) res log)
        sector_hash (completed_permutations_ p) M fuel st res log r.
Proof.
  induction fuel as [| fuel IH]; intros st res log r; [reflexivity |].
  rewrite sector_loop_round. cbn [proposal_loop].
  destruct (gen_one_sector_state st (epochs_ p) res log)
    as [[[ns res'] log'] st'].
  destruct (sector_hash res') as [h | f];
    cbn [mbind result_bind]; [| reflexivity].
  destruct (negb ns || _); [reflexivity |].
  destruct (0 <? _); [apply IH | reflexivity].
Qed.

(** C5.  A call of either generator computes
    [max_retries = max(1000, 2 * |completed_permutations|)] (the product
    taken in 64 bits) before its loop.  When the proposals that the loop
    gets to, those the strategy makes in this call on [epochs_] and from
    the state the call starts with, fit the 32-bit counters of the hash
    loops, the loop asks
    the strategy hook for the proposals [0 .. j] and for no other, with
    [j + 1 <= max_retries]: it goes on while the hook returns true with a
    hash that is in the memo, and it is left at proposal [j] because the
    hook returned false, or the retry count reached [max_retries], or the
    hash is not in the memo.  A budget of more than [j] rounds gives the
    result, a smaller one does not.  The call returns, with [j + 1]
    retries, the strategy state that proposal [j] left, and the state of
    proposal [j] and its hash. *)
Theorem proposal_loops_bounded (p : Permuter) (st : T)
    (res : list DiskWriteData) (log : PermuteTestResult X) :
  let memo := completed_permutations_ p in
  let M := max_retries_of memo in
  (2 * Z.of_nat (base.size memo) < 2 ^ 64 ->
   M = Z.max 1000 (2 * Z.of_nat (base.size memo)))
  /\ ((forall k : nat,
          Z.of_nat k < M ->
          asked_for memo (copy_vector abs_index 0)
            (fun k => whole_proposal p k st [] log) k ->
          Z.of_nat (length (proposed_state (whole_proposal p k st [] log)))
          < 2 ^ 32) ->
      exists j : nat,
        Z.of_nat (S j) <= M
        /\ loop_stops_at memo M (map abs_index)
             (fun k => whole_proposal p k st [] log) j
        /\ (forall fuel, (j < fuel)%nat ->
                         whole_loop fuel p M st [] log 0
                         = Ok (exit_at memo (map abs_index)
                                 (fun k => whole_proposal p k st [] log) j))
        /\ (forall fuel, (fuel <= j)%nat ->
                         whole_loop fuel p M st [] log 0 = Err OutOfFuel)
        /\ exists r,
             GenerateCrashState p st res log = Ok r
             /\ call_retries r = Z.of_nat (S j)
             /\ call_strategy r
                = proposed_strategy (whole_proposal p j st [] log)
             /\ call_res r
                = map ToWriteData
                    (proposed_state (whole_proposal p j st [] log))
             /\ call_hash r
                = map abs_index
                    (proposed_state (whole_proposal p j st [] log)))
  /\ ((forall k : nat,
          Z.of_nat k < M ->
          asked_for memo sector_hash
            (fun k => sector_proposal p k st res log) k ->
          Z.of_nat (length (proposed_state (sector_proposal p k st res log)))
          < 2 ^ 31) ->
      exists j : nat,
        Z.of_nat (S j) <= M
        /\ loop_stops_at memo M interleaved_pairs
             (fun k => sector_proposal p k st res log) j
        /\ (forall fuel, (j < fuel)%nat ->
                         sector_loop fuel p M st res log 0
                         = Ok (exit_at memo interleaved_pairs
                                 (fun k => sector_proposal p k st res log) j))
        /\ (forall fuel, (fuel <= j)%nat ->
                         sector_loop fuel p M st res log 0 = Err OutOfFuel)
        /\ exists r,
             GenerateSectorCrashState p st res log = Ok r
             /\ call_retries r = Z.of_nat (S j)
             /\ call_strategy r
                = proposed_strategy (sector_proposal p j st res log)
             /\ call_res r = proposed_state (sector_proposal p j st res log)
             /\ call_hash r
                = interleaved_pairs
                    (proposed_state (sector_proposal p j st res log))).
Proof.
  intros memo M.
  pose proof (max_retries_of_range memo) as HM.
  fold M in HM. unfold kMinRetries in HM.
  split; [apply max_retries_of_max |]. split.
  - intros Hshort.
    destruct (proposal_loop_stops
                (fun st cs log => gen_one_state st (epochs_ p) cs log)
                (copy_vector abs_index 0) (map abs_index) memo M st [] log
                ltac:(lia))
      as (j & Hj & Hasked & Hstops & Hok & Hout).
    { intros k Hk Hasked. apply copy_vector_Ok. by apply Hshort. }
    exists j. split; [exact Hj |]. split; [exact Hstops |].
    split; [| split].
    + intros fuel Hfuel. rewrite whole_loop_shape. by apply Hok.
    + intros fuel Hfuel. rewrite whole_loop_shape. by apply Hout.
    + unfold GenerateCrashState, GenerateCrashState_fuel. fold memo M.
      rewrite whole_loop_shape. fold memo.
      rewrite (Hok (Z.to_nat M)) by lia.
      cbn [mbind result_bind exit_at exit_state].
      rewrite copy_vector_Ok by (apply Hshort; [lia | exact Hasked]).
      cbn [mbind result_bind exit_exists exit_new_state exit_hash exit_log
           exit_strategy exit_retries].
      destruct (_ =? 0); eexists; (split; [reflexivity |]);
        by repeat split.
  - intros Hshort.
    destruct (proposal_loop_stops
                (fun st res log => gen_one_sector_state st (epochs_ p) res log)
                sector_hash interleaved_pairs memo M st res log ltac:(lia))
      as (j & Hj & Hasked & Hstops & Hok & Hout).
    { intros k Hk Hasked. apply sector_hash_Ok. by apply Hshort. }
    exists j. split; [exact Hj |]. split; [exact Hstops |].
    split; [| split].
    + intros fuel Hfuel. rewrite sector_loop_shape. by apply Hok.
    + intros fuel Hfuel. rewrite sector_loop_shape. by apply Hout.
    + unfold GenerateSectorCrashState, GenerateSectorCrashState_fuel.
      fold memo M. rewrite sector_loop_shape. fold memo.
      rewrite (Hok (Z.to_nat M)) by lia.
      cbn [mbind result_bind exit_at exit_state exit_exists exit_new_state
           exit_hash exit_log exit_strategy exit_retries].
      destruct (_ =? 0); eexists; (split; [reflexivity |]);
        by repeat split.
Qed.

Lemma whole_loop_seen (fuel : nat) (p : Permuter) (M : Z) :
  whole_proposals_seen (completed_permutations_ p) ->
  forall st cs log r e,
    whole_loop fuel p M st cs log r = Ok e ->
    exit_hash e ∈ completed_permutations_ p.
Proof.
  intros Hseen. induction fuel as [| fuel IH]; intros st cs log r e Hloop;
    [done |].
  rewrite whole_loop_round in Hloop.
  destruct (Hseen st (epochs_ p) cs log) as (h & Hh & Hin).
  destruct (gen_one_state st (epochs_ p) cs log) as [[[ns cs'] log'] st'].
  cbn [fst snd] in Hh. rewrite Hh in Hloop. cbn [mbind result_bind] in Hloop.
  destruct (negb ns || _); [by injection Hloop as <- |].
  destruct (0 <? _); [by apply IH in Hloop | by injection Hloop as <-].
Qed.

Lemma sector_loop_seen (fuel : nat) (p : Permuter) (M : Z) :
  sector_proposals_seen (completed_permutations_ p) ->
  forall st res log r e,
    sector_loop fuel p M st res log r = Ok e ->
    exit_hash e ∈ completed_permutations_ p.
Proof.
  intros Hseen. induction fuel as [| fuel IH]; intros st res log r e Hloop;
    [done |].
  rewrite sector_loop_round in Hloop.
  destruct (Hseen st (epochs_ p) res log) as (h & Hh & Hin).
  destruct (gen_one_sector_state st (epochs_ p) res log)
    as [[[ns res'] log'] st'].
  cbn [fst snd] in Hh. rewrite Hh in Hloop. cbn [mbind result_bind] in Hloop.
  destruct (negb ns || _); [by injection Hloop as <- |].
  destruct (0 <? _); [by apply IH in Hloop | by injection Hloop as <-].
Qed.

(** A whole-op call whose every candidate is in the memo returns
    [false] and leaves the permuter as it was. *)
Lemma GenerateCrashState_all_seen p st res log :
  whole_proposals_seen (completed_permutations_ p) ->
  exists r, GenerateCrashState p st res log = Ok r
            /\ returned r = false /\ call_permuter r = p.
Proof.
  intros Hseen.
  assert (whole_hashable) as Hhash.
  { intros s ep cs l. destruct (Hseen s ep cs l) as (h & Hh & _). eauto. }
  pose proof (max_retries_of_range (completed_permutations_ p)) as HM.
  unfold kMinRetries in HM.
  destruct (whole_loop_runs p _ Hhash (proj2 HM)
              (Z.to_nat (max_retries_of (completed_permutations_ p)) - 1)
              0 st [] log ltac:(lia) ltac:(lia))
    as (e & n & Hn & _ & Hok & _).
  specialize (Hok (Z.to_nat (max_retries_of (completed_permutations_ p)))
                ltac:(lia)).
  pose proof (whole_loop_seen _ _ _ Hseen _ _ _ _ _ Hok) as Hin.
  pose proof (whole_loop_exit _ _ _ _ _ _ _ _ Hok) as (Hex & Hcopy & _).
  unfold GenerateCrashState, GenerateCrashState_fuel.
  rewrite Hok. cbn [mbind result_bind].
  rewrite copy_vector_Ok by (by eapply copy_vector_Ok_length).
  cbn [mbind result_bind].
  destruct (exit_exists e =? 0) eqn:Hz.
  - rewrite Hex in Hz. by apply memo_count_zero in Hz.
  - eexists. by split.
Qed.

(** A sector call whose every candidate is in the memo returns [false]
    and leaves the permuter as it was. *)
Lemma GenerateSectorCrashState_all_seen p st res log :
  sector_proposals_seen (completed_permutations_ p) ->
  exists r, GenerateSectorCrashState p st res log = Ok r
            /\ returned r = false /\ call_permuter r = p.
Proof.
  intros Hseen.
  assert (sector_hashable) as Hhash.
  { intros s ep v l. destruct (Hseen s ep v l) as (h & Hh & _). eauto. }
  pose proof (max_retries_of_range (completed_permutations_ p)) as HM.
  unfold kMinRetries in HM.
  destruct (sector_loop_runs p _ Hhash (proj2 HM)
              (Z.to_nat (max_retries_of (completed_permutations_ p)) - 1)
              0 st res log ltac:(lia) ltac:(lia))
    as (e & n & Hn & _ & Hok & _).
  specialize (Hok (Z.to_nat (max_retries_of (completed_permutations_ p)))
                ltac:(lia)).
  pose proof (sector_loop_seen _ _ _ Hseen _ _ _ _ _ Hok) as Hin.
  pose proof (sector_loop_exit _ _ _ _ _ _ _ _ Hok) as (Hex & _).
  unfold GenerateSectorCrashState, GenerateSectorCrashState_fuel.
  rewrite Hok. cbn [mbind result_bind].
  destruct (exit_exists e =? 0) eqn:Hz.
  - rewrite Hex in Hz. by apply memo_count_zero in Hz.
  - eexists. by split.
Qed.

(** A call whose candidates, the proposals that the strategy makes in
    this call on [epochs_], all hash into the memo finds no fresh hash
    within its retries: it returns [false] and leaves the permuter as it
    was. *)
Lemma GenerateCrashState_candidates_seen p st res log :
  (forall k : nat,
      Z.of_nat k < max_retries_of (completed_permutations_ p) ->
      asked_for (completed_permutations_ p) (copy_vector abs_index 0)
        (fun k => whole_proposal p k st [] log) k ->
      exists h,
        copy_vector abs_index 0 (proposed_state (whole_proposal p k st [] log))
        = Ok h
        /\ h ∈ completed_permutations_ p) ->
  exists r,
    GenerateCrashState p st res log = Ok r
    /\ returned r = false
    /\ call_permuter r = p
    /\ call_hash r ∈ completed_permutations_ p
    /\ 1 <= call_retries r <= max_retries_of (completed_permutations_ p).
Proof.
  intros Hseen.
  pose proof (max_retries_of_range (completed_permutations_ p)) as HM.
  unfold kMinRetries in HM.
  destruct (proposal_loop_rounds
              (fun st cs log => gen_one_state st (epochs_ p) cs log)
              (copy_vector abs_index 0) (completed_permutations_ p)
              (max_retries_of (completed_permutations_ p)) ltac:(lia)
              (Z.to_nat (max_retries_of (completed_permutations_ p)) - 1)
              0 st [] log ltac:(lia) ltac:(lia))
    as (j & h & Hj & Hh & Hasked & _ & Hok & _).
  { intros k Hk Hasked.
    destruct (Hseen k ltac:(lia) Hasked) as (hk & Hhk & _). eauto. }
  destruct (Hseen j ltac:(lia) Hasked) as (h' & Hh' & Hin).
  unfold whole_proposal in Hh'. rewrite Hh in Hh'. injection Hh' as <-.
  unfold GenerateCrashState, GenerateCrashState_fuel.
  rewrite whole_loop_shape, Hok by lia.
  cbn [mbind result_bind exit_state].
  rewrite copy_vector_Ok by (by eapply copy_vector_Ok_length).
  cbn [mbind result_bind exit_exists exit_new_state exit_hash exit_log
       exit_strategy exit_retries].
  unfold memo_count. rewrite decide_True by exact Hin.
  cbn [Z.eqb]. eexists. split; [reflexivity |]. cbn.
  repeat split; try done; lia.
Qed.

Lemma GenerateSectorCrashState_candidates_seen p st res log :
  (forall k : nat,
      Z.of_nat k < max_retries_of (completed_permutations_ p) ->
      asked_for (completed_permutations_ p) sector_hash
        (fun k => sector_proposal p k st res log) k ->
      exists h,
        sector_hash (proposed_state (sector_proposal p k st res log)) = Ok h
        /\ h ∈ completed_permutations_ p) ->
  exists r,
    GenerateSectorCrashState p st res log = Ok r
    /\ returned r = false
    /\ call_permuter r = p
    /\ call_hash r ∈ completed_permutations_ p
    /\ 1 <= call_retries r <= max_retries_of (completed_permutations_ p).
Proof.
  intros Hseen.
  pose proof (max_retries_of_range (completed_permutations_ p)) as HM.
  unfold kMinRetries in HM.
  destruct (proposal_loop_rounds
              (fun st res log => gen_one_sector_state st (epochs_ p) res log)
              sector_hash (completed_permutations_ p)
              (max_retries_of (completed_permutations_ p)) ltac:(lia)
              (Z.to_nat (max_retries_of (completed_permutations_ p)) - 1)
              0 st res log ltac:(lia) ltac:(lia))
    as (j & h & Hj & Hh & Hasked & _ & Hok & _).
  { intros k Hk Hasked.
    destruct (Hseen k ltac:(lia) Hasked) as (hk & Hhk & _). eauto. }
  destruct (Hseen j ltac:(lia) Hasked) as (h' & Hh' & Hin).
  unfold sector_proposal in Hh'. rewrite Hh in Hh'. injection Hh' as <-.
  unfold GenerateSectorCrashState, GenerateSectorCrashState_fuel.
  rewrite sector_loop_shape, Hok by lia.
  cbn [mbind result_bind exit_state exit_exists exit_new_state exit_hash
       exit_log exit_strategy exit_retries].
  unfold memo_count. rewrite decide_True by exact Hin.
  cbn [Z.eqb]. eexists. split; [reflexivity |]. cbn.
  repeat split; try done; lia.
Qed.

(** C10.  Both generators test and fill the one set
    [completed_permutations_] of plain vectors: the [bio_index] sequence
    of a whole-op state, the interleaved [(bio_index, bio_sector_index)]
    pairs of a sector state.  A hash accepted by a call at one granularity
    stays in the set of every later state of the instance, so a candidate
    of the other granularity whose hash is the same vector is counted as
    seen: a later call that settles on that vector returns [false]; and a
    later call all of whose candidates, the proposals that its loop gets
    to, made by the strategy in that call on the epochs of the later
    state, hash into the set runs out of retries or of proposals and
    returns [false] without touching the set. *)
Theorem memo_shared_across_granularities (p : Permuter) (st : T)
    (res : list DiskWriteData) (log : PermuteTestResult X)
    (r : call_result) :
  (GenerateCrashState p st res log = Ok r
   \/ GenerateSectorCrashState p st res log = Ok r) ->
  call_hash r ∉ completed_permutations_ p ->
  forall (p' : Permuter) (st' : T) (res' : list DiskWriteData)
         (log' : PermuteTestResult X),
    completed_permutations_ (call_permuter r) ⊆ completed_permutations_ p' ->
    (GenerateCrashState p st res log = Ok r ->
     call_hash r = map bio_index (call_res r))
    /\ (GenerateSectorCrashState p st res log = Ok r ->
        Z.of_nat (length (call_res r)) < 2 ^ 31 ->
        call_hash r = interleaved_pairs (call_res r))
    /\ memo_count (completed_permutations_ p') (call_hash r) = 1
    /\ (forall r',
           (GenerateCrashState p' st' res' log' = Ok r'
            \/ GenerateSectorCrashState p' st' res' log' = Ok r') ->
           call_hash r' = call_hash r ->
           returned r' = false /\ call_permuter r' = p')
    /\ ((forall k : nat,
            Z.of_nat k < max_retries_of (completed_permutations_ p') ->
            asked_for (completed_permutations_ p') sector_hash
              (fun k => sector_proposal p' k st' res' log') k ->
            exists h,
              sector_hash
                (proposed_state (sector_proposal p' k st' res' log')) = Ok h
              /\ h ∈ completed_permutations_ p') ->
        exists r', GenerateSectorCrashState p' st' res' log' = Ok r'
                   /\ returned r' = false /\ call_permuter r' = p')
    /\ ((forall k : nat,
            Z.of_nat k < max_retries_of (completed_permutations_ p') ->
            asked_for (completed_permutations_ p') (copy_vector abs_index 0)
              (fun k => whole_proposal p' k st' [] log') k ->
            exists h,
              copy_vector abs_index 0
                (proposed_state (whole_proposal p' k st' [] log')) = Ok h
              /\ h ∈ completed_permutations_ p') ->
        exists r', GenerateCrashState p' st' res' log' = Ok r'
                   /\ returned r' = false /\ call_permuter r' = p').
Proof.
  intros Hcall Hfresh p' st' res' log' Hlater.
  assert (call_hash r ∈ completed_permutations_ (call_permuter r)) as Hin.
  { destruct Hcall as [Hcall | Hcall].
    - pose proof (GenerateCrashState_fuel_ok _ p st res log r Hcall)
        as (_ & Hnew & _).
      rewrite (Hnew Hfresh). set_solver.
    - pose proof (GenerateSectorCrashState_fuel_ok _ p st res log r Hcall)
        as (_ & Hnew & _).
      rewrite (Hnew Hfresh). set_solver. }
  split; [| split; [| split; [| split; [| split]]]].
  - intros Hw.
    by destruct (GenerateCrashState_fuel_ok _ p st res log r Hw)
      as (_ & _ & _ & Hh).
  - intros Hs.
    by destruct (GenerateSectorCrashState_fuel_ok _ p st res log r Hs)
      as (_ & _ & _ & Hh).
  - unfold memo_count. rewrite decide_True; [reflexivity | set_solver].
  - intros r' Hr' Heq.
    assert (call_hash r' ∈ completed_permutations_ p') as Hin'
      by (rewrite Heq; set_solver).
    destruct Hr' as [Hr' | Hr'].
    + destruct (GenerateCrashState_fuel_ok _ p' st' res' log' r' Hr')
        as (_ & _ & Hseen & _).
      destruct (Hseen Hin') as [-> ->]. by split.
    + destruct (GenerateSectorCrashState_fuel_ok _ p' st' res' log' r' Hr')
        as (_ & _ & Hseen & _).
      destruct (Hseen Hin') as [-> ->]. by split.
  - intros Hseen.
    destruct (GenerateSectorCrashState_candidates_seen p' st' res' log' Hseen)
      as (r' & Hr' & Hret & Hp & _).
    by exists r'.
  - intros Hseen.
    destruct (GenerateCrashState_candidates_seen p' st' res' log' Hseen)
      as (r' & Hr' & Hret & Hp & _).
    by exists r'.
Qed.

End GeneratorProps.

(** ** The generators on the sample strategy *)

Lemma sample_proposals_bounded : proposals_bounded (T := nat) (X := unit).
Proof. split; intros; cbn; lia. Qed.

Lemma sample_whole_proposal (p : Permuter) (k st : nat)
    (cs : list epoch_op) (log : PermuteTestResult unit) :
  whole_proposal p k st cs log
  = (true,
     [mk_epoch_op 0 (fst (SplitBarrier sample_barrier));
      mk_epoch_op 0 (snd (SplitBarrier sample_barrier))],
     log, (k + S st)%nat).
Proof.
  unfold whole_proposal. revert st cs.
  induction k as [| k IH]; intros st cs; [reflexivity |].
  cbn [nth_proposal gen_one_state sample_strategy]. rewrite IH.
  f_equal. lia.
Qed.

Lemma sample_sector_proposal (p : Permuter) (k st : nat)
    (res : list DiskWriteData) (log : PermuteTestResult unit) :
  sector_proposal p k st res log
  = (true, [mk_dwd false 0 0 4096 512 [7] 0], log, (k + S st)%nat).
Proof.
  unfold sector_proposal. revert st res.
  induction k as [| k IH]; intros st res; [reflexivity |].
  cbn [nth_proposal gen_one_sector_state sample_strategy]. rewrite IH.
  f_equal. lia.
Qed.

Lemma proposal_loops_bounded_witness :
  exists (j : nat) r,
    Z.of_nat (S j)
    <= max_retries_of (completed_permutations_ sample_permuter)
    /\ loop_stops_at (completed_permutations_ sample_permuter)
         (max_retries_of (completed_permutations_ sample_permuter))
         (map abs_index)
         (fun k => whole_proposal sample_permuter k 0%nat [] sample_log) j
    /\ GenerateCrashState sample_permuter 0%nat [] sample_log = Ok r
    /\ call_retries r = Z.of_nat (S j)
    /\ call_strategy r
       = proposed_strategy
           (whole_proposal sample_permuter j 0%nat [] sample_log).
Proof.
  pose proof (proposal_loops_bounded sample_permuter 0%nat [] sample_log)
    as Hcall.
  cbv zeta in Hcall. destruct Hcall as (_ & Hwhole & _).
  destruct Hwhole as (j & Hj & Hstops & _ & _ & r & Hr & Hret & Hst & _).
  - intros k _ _. rewrite sample_whole_proposal. cbn. lia.
  - exists j, r. split; [exact Hj |]. split; [exact Hstops |].
    split; [exact Hr |]. split; [exact Hret | exact Hst].
Defined.

Lemma no_hash_returned_twice_witness :
  exists rs p' st',
    run_calls
      [CallGenerate [] sample_log; CallInit 512 [sample_barrier];
       CallGenerateSector [] sample_log]
      sample_permuter 0%nat
    = Ok (rs, p', st')
    /\ NoDup (accepted_hashes rs).
Proof.
  destruct (run_calls
              [CallGenerate [] sample_log; CallInit 512 [sample_barrier];
               CallGenerateSector [] sample_log]
              sample_permuter 0%nat) as [[[rs p'] st'] | f] eqn:Hrun.
  - exists rs, p', st'. split; [reflexivity |].
    apply (proj1 (no_hash_returned_twice _ _ _) _ _ _ Hrun).
  - vm_compute in Hrun. discriminate.
Defined.

Lemma memo_shared_across_granularities_witness :
  exists r r',
    GenerateCrashState sample_permuter 0%nat [] sample_log = Ok r
    /\ returned r = true
    /\ call_hash r = [0; 0]
    /\ GenerateSectorCrashState (call_permuter r) (call_strategy r) []
         sample_log = Ok r'
    /\ returned r' = false.
Proof.
  destruct (GenerateCrashState sample_permuter 0%nat [] sample_log)
    as [r | f] eqn:Hr; [| vm_compute in Hr; discriminate].
  assert (call_hash r = [0; 0] /\ returned r = true) as [Hh Ht].
  { pose proof Hr as Hr'. vm_compute in Hr'. injection Hr' as <-.
    split; reflexivity. }
  assert (call_hash r ∉ completed_permutations_ sample_permuter) as Hfresh
    by apply not_elem_of_empty.
  destruct (memo_shared_across_granularities sample_permuter 0%nat []
              sample_log r (or_introl Hr) Hfresh
              (call_permuter r) (call_strategy r) [] sample_log
              (reflexivity _)) as (_ & _ & _ & _ & Hsector & _).
  destruct Hsector as (r' & Hr' & Hfalse & _).
  { intros k _ _. exists [0; 0]. rewrite sample_sector_proposal.
    split; [reflexivity |].
    destruct (GenerateCrashState_fuel_ok _ sample_permuter 0%nat []
                sample_log r Hr) as (_ & Hnew & _).
    rewrite (Hnew Hfresh), Hh. set_solver. }
  exists r, r'. repeat split; assumption.
Defined.

(** * Further properties of the segmenters *)

(** A property of epochs that both walks establish: [Qo] holds of the
    epoch under construction, [Qc] of the epochs left behind.  [P] is what
    is known of a record that reaches a barrier branch. *)
Section EpochInvariant.
Variables (Qo Qc : epoch -> Prop) (P : disk_write -> Prop).
Hypothesis Qo_fresh : forall cp, Qo (set_checkpoint_epoch cp fresh_epoch).
Hypothesis Qo_checkpoint :
  forall cp e, Qo e -> Qo (set_checkpoint_epoch cp e).
Hypothesis Qo_overlaps : forall e, Qo e -> Qo (set_overlaps true e).
Hypothesis Qo_write :
  forall i w e,
    is_barrier w = false -> is_checkpoint w = false ->
    Qo e -> Qo (add_op i w e).
Hypothesis Qo_second :
  forall i w cp,
    CanSplitBarrier w = true -> P w ->
    Qo (add_op i (snd (SplitBarrier w)) (set_checkpoint_epoch cp fresh_epoch)).
Hypothesis Qc_first :
  forall i w e,
    CanSplitBarrier w = true -> P w -> Qo e ->
    Qc (set_has_barrier true (add_op i (fst (SplitBarrier w)) e)).
Hypothesis Qc_barrier :
  forall i w e,
    is_barrier w = true -> P w -> Qo e ->
    Qc (set_has_barrier true (add_op i w e)).
Hypothesis Qc_close : forall e, Qo e -> Qc e.

Lemma epochs_inv_flag_step (v : seg_view) (w : disk_write) :
  (is_barrier w = true -> P w) ->
  epochs_inv Qo Qc v -> epochs_inv Qo Qc (view_flag_step v w).
Proof.
  intros HP [Hclosed Hcur]. destruct v as [closed cur ranges cp i lt].
  cbn [v_closed v_cur] in Hclosed, Hcur.
  assert (Qo match cur with
             | Some e => e
             | None => set_checkpoint_epoch cp fresh_epoch
             end) as Hc by (destruct cur; auto).
  unfold view_flag_step, epochs_inv.
  cbn [v_cur v_closed v_ranges v_checkpoint v_abs_index v_last_time].
  destruct (is_barrier w) eqn:Hb; cbn [negb].
  - specialize (HP eq_refl).
    destruct (CanSplitBarrier w) eqn:Hs; cbn [v_closed v_cur]; split;
      try exact I; try (apply Forall_app; split; [exact Hclosed |];
                        apply Forall_singleton); auto.
  - destruct (is_checkpoint w) eqn:Hcp; cbn [v_closed v_cur];
      (split; [exact Hclosed |]); [auto |].
    apply Qo_write; [exact Hb | exact Hcp |].
    destruct (fst _); auto.
Qed.

Lemma epochs_inv_soft_step (v : seg_view) (w : disk_write) :
  (is_checkpoint w = false -> is_barrier w = true -> P w) ->
  epochs_inv Qo Qc v -> epochs_inv Qo Qc (view_soft_step v w).
Proof.
  intros HP [Hclosed Hcur]. destruct v as [closed [cur |] ranges cp i lt];
    [| by split].
  cbn [v_closed v_cur] in Hclosed, Hcur.
  unfold view_soft_step, epochs_inv.
  cbn [v_cur v_closed v_ranges v_checkpoint v_abs_index v_last_time].
  destruct (is_checkpoint w) eqn:Hcp.
  { cbn [v_closed v_cur]. split; [exact Hclosed |].
    destruct (_ =? _)%nat; auto. }
  destruct (is_barrier w) eqn:Hb; cbn [negb].
  - specialize (HP eq_refl eq_refl).
    destruct (CanSplitBarrier w) eqn:Hs; cbn [v_closed v_cur]; split;
      try (apply Forall_app; split; [exact Hclosed |];
           apply Forall_singleton); auto.
  - destruct ((0 <? lt) && _); cbn [v_closed v_cur]; split.
    + apply Forall_app. split; [exact Hclosed |].
      apply Forall_singleton. auto.
    + destruct (fst _); auto.
    + exact Hclosed.
    + destruct (fst _); auto.
Qed.

Lemma epochs_inv_all (v : seg_view) :
  epochs_inv Qo Qc v -> Forall Qc (view_epochs v).
Proof.
  intros [Hclosed Hcur]. unfold view_epochs. apply Forall_app.
  split; [exact Hclosed |].
  destruct (v_cur v); [apply Forall_singleton; auto | constructor].
Qed.

Lemma epochs_inv_flag (sector_size : Z) (trace : list disk_write) :
  Forall (fun w => is_barrier w = true -> P w) trace ->
  Forall Qc (InitDataVector sector_size trace).
Proof.
  intros HP. rewrite InitDataVector_view. apply epochs_inv_all.
  assert (epochs_inv Qo Qc view_flag_init) as Hinit by (split; [constructor | exact I]).
  revert Hinit. generalize view_flag_init.
  induction HP as [| w rest Hw Hrest IH]; intros v Hv; [exact Hv |].
  cbn [fold_left]. apply IH. by apply epochs_inv_flag_step.
Qed.

Lemma epochs_inv_soft (sector_size : Z) (trace : list disk_write) :
  (forall w, is_checkpoint w = false -> is_barrier w = true -> P w) ->
  Forall Qc (InitDataVectorSoft sector_size trace).
Proof.
  intros HP. destruct (InitDataVectorSoft_view sector_size trace) as [-> _].
  apply Forall_forall. intros e He. apply drop_empty_tail_sublist in He.
  revert e He. apply Forall_forall, epochs_inv_all.
  apply (view_soft_run_ind (epochs_inv Qo Qc)).
  - intros v w. apply epochs_inv_soft_step, HP.
  - split; [constructor |]. apply (Qo_fresh 0).
Qed.

End EpochInvariant.

(** ** Counting META ops *)

Lemma meta_count_snoc (l : list epoch_op) (o : epoch_op) :
  meta_count (l ++ [o]) = meta_count l + b2z (is_meta (op o)).
Proof.
  unfold meta_count. rewrite filter_app, length_app.
  destruct (is_meta (op o)) eqn:Hm.
  - rewrite filter_cons_True by exact Hm. cbn. lia.
  - rewrite filter_cons_False by congruence. cbn. lia.
Qed.

Lemma num_meta_add_op (i : Z) (w : disk_write) (e : epoch) :
  num_meta e = meta_count (ops e) ->
  num_meta (add_op i w e) = meta_count (ops (add_op i w e)).
Proof. intros He. cbn. rewrite meta_count_snoc, He. reflexivity. Qed.

(** X1.  In every epoch of either segmenter [num_meta] is the number of
    its ops that carry the META flag, the halves of split barriers
    included. *)
Theorem num_meta_counts_meta_ops (sector_size : Z) (trace : list disk_write)
    (e : epoch) :
  e ∈ InitDataVector sector_size trace
  \/ e ∈ InitDataVectorSoft sector_size trace ->
  num_meta e = meta_count (ops e).
Proof.
  set (Q := fun e : epoch => num_meta e = meta_count (ops e)).
  assert (forall l, Forall Q l -> e ∈ l -> Q e) as Hin.
  { intros l Hl He. rewrite Forall_forall in Hl. by apply Hl. }
  assert (forall i w e0, Q e0 -> Q (add_op i w e0)) as Hadd
    by (intros; by apply num_meta_add_op).
  assert (forall cp, Q (set_checkpoint_epoch cp fresh_epoch)) as Hfresh
    by (intros; reflexivity).
  intros [He | He]; (eapply Hin; [| exact He]).
  - apply (epochs_inv_flag Q Q (fun _ => True)).
    + exact Hfresh.
    + intros cp e0 H. exact H.
    + intros e0 H. exact H.
    + intros i w e0 _ _ H. by apply Hadd.
    + intros i w cp _ _. apply Hadd, Hfresh.
    + intros i w e0 _ _ H. by apply (Hadd i _ e0).
    + intros i w e0 _ _ H. by apply (Hadd i w e0).
    + intros e0 H. exact H.
    + by apply Forall_forall.
  - apply (epochs_inv_soft Q Q (fun _ => True)).
    + exact Hfresh.
    + intros cp e0 H. exact H.
    + intros e0 H. exact H.
    + intros i w e0 _ _ H. by apply Hadd.
    + intros i w cp _ _. apply Hadd, Hfresh.
    + intros i w e0 _ _ H. by apply (Hadd i _ e0).
    + intros i w e0 _ _ H. by apply (Hadd i w e0).
    + intros e0 H. exact H.
    + done.
Qed.

Lemma num_meta_counts_meta_ops_witness :
  exists e,
    InitDataVector 512
      [bio 0 512 0 (fl true false false false true false) [1];
       bio 8 512 0 F_WRITE [2]] = [e]
    /\ num_meta e = meta_count (ops e).
Proof.
  eexists. split; [vm_compute; reflexivity |].
  apply (num_meta_counts_meta_ops 512
           [bio 0 512 0 (fl true false false false true false) [1];
            bio 8 512 0 F_WRITE [2]]).
  left. vm_compute. apply list_elem_of_here.
Defined.

(** ** Where barriers and checkpoints may sit *)

Lemma second_half_not_barrier (w : disk_write) :
  CanSplitBarrier w = true -> is_barrier (snd (SplitBarrier w)) = false.
Proof.
  destruct w as [[sector len t [wr f fs fu m c]] payload].
  unfold CanSplitBarrier, SplitBarrier, is_barrier, has_flush_flag,
    has_flush_seq_flag, has_write_flag, has_FUA_flag.
  cbn. destruct f, fs, fu, wr; cbn; try discriminate; reflexivity.
Qed.

Lemma halves_keep_checkpoint_flag (w : disk_write) :
  is_checkpoint (fst (SplitBarrier w)) = is_checkpoint w
  /\ is_checkpoint (snd (SplitBarrier w)) = is_checkpoint w.
Proof.
  destruct w as [[sector len t [wr f fs fu m c]] payload].
  unfold SplitBarrier, is_checkpoint, has_flush_flag, has_flush_seq_flag.
  cbn. destruct f, fs; split; reflexivity.
Qed.

Lemma barrier_only_last_snoc (e : epoch) (i : Z) (w : disk_write) :
  (forall o, o ∈ ops e -> is_barrier (op o) = false) ->
  barrier_only_last (set_has_barrier true (add_op i w e)).
Proof.
  intros Hnone k o Hk Hb. cbn in *. split; [reflexivity |].
  rewrite length_app. cbn.
  destruct (decide (k < length (ops e))%nat) as [Hlt | Hge].
  - rewrite lookup_app_l in Hk by exact Hlt.
    apply list_elem_of_lookup_2, Hnone in Hk. congruence.
  - apply lookup_lt_Some in Hk. rewrite length_app in Hk. cbn in Hk. lia.
Qed.

(** X2.  In every epoch of either segmenter a barrier op can only be the
    last op, and only of an epoch with [has_barrier] set: the ops that may
    be reordered within an epoch are never barriers. *)
Theorem barriers_only_close_epochs (sector_size : Z) (trace : list disk_write)
    (e : epoch) :
  e ∈ InitDataVector sector_size trace
  \/ e ∈ InitDataVectorSoft sector_size trace ->
  forall (k : nat) (o : epoch_op),
    ops e !! k = Some o ->
    is_barrier (op o) = true ->
    has_barrier e = true /\ S k = length (ops e).
Proof.
  set (Qo := fun e : epoch =>
               has_barrier e = false
               /\ forall o, o ∈ ops e -> is_barrier (op o) = false).
  assert (forall l, Forall barrier_only_last l -> e ∈ l -> barrier_only_last e)
    as Hin.
  { intros l Hl He. rewrite Forall_forall in Hl. by apply Hl. }
  assert (forall cp, Qo (set_checkpoint_epoch cp fresh_epoch)) as Hfresh.
  { intros cp. split; [reflexivity |]. intros o Ho. by apply elem_of_nil in Ho. }
  assert (forall i w e0,
             is_barrier w = false -> Qo e0 -> Qo (add_op i w e0)) as Hadd.
  { intros i w e0 Hw [Hb Hnone]. split; [exact Hb |]. cbn. intros o Ho.
    apply elem_of_app in Ho as [Ho | Ho]; [by apply Hnone |].
    apply list_elem_of_singleton in Ho as ->. exact Hw. }
  intros [He | He]; (eapply Hin; [| exact He]).
  - apply (epochs_inv_flag Qo barrier_only_last (fun _ => True)).
    + exact Hfresh.
    + intros cp e0 H. exact H.
    + intros e0 H. exact H.
    + intros i w e0 Hw _ H. by apply Hadd.
    + intros i w cp Hs _. apply Hadd; [by apply second_half_not_barrier |].
      apply Hfresh.
    + intros i w e0 _ _ [_ H]. by apply barrier_only_last_snoc.
    + intros i w e0 _ _ [_ H]. by apply barrier_only_last_snoc.
    + intros e0 [_ H] k o Hk Hb.
      apply list_elem_of_lookup_2, H in Hk. congruence.
    + by apply Forall_forall.
  - apply (epochs_inv_soft Qo barrier_only_last (fun _ => True)).
    + exact Hfresh.
    + intros cp e0 H. exact H.
    + intros e0 H. exact H.
    + intros i w e0 Hw _ H. by apply Hadd.
    + intros i w cp Hs _. apply Hadd; [by apply second_half_not_barrier |].
      apply Hfresh.
    + intros i w e0 _ _ [_ H]. by apply barrier_only_last_snoc.
    + intros i w e0 _ _ [_ H]. by apply barrier_only_last_snoc.
    + intros e0 [_ H] k o Hk Hb.
      apply list_elem_of_lookup_2, H in Hk. congruence.
    + done.
Qed.

Lemma barriers_only_close_epochs_witness :
  exists e o,
    InitDataVector 512 [bio 0 1024 0 F_WRITE [1]; bio 8 512 0 F_WRITE_FUA [2]]
    = [e]
    /\ ops e !! 1%nat = Some o
    /\ has_barrier e = true /\ 2%nat = length (ops e).
Proof.
  do 2 eexists. split; [vm_compute; reflexivity |].
  split; [reflexivity |].
  eapply (barriers_only_close_epochs 512
            [bio 0 1024 0 F_WRITE [1]; bio 8 512 0 F_WRITE_FUA [2]]).
  - left. vm_compute. apply list_elem_of_here.
  - reflexivity.
  - reflexivity.
Defined.

(** X3.  The soft segmenter never puts a checkpoint record into an epoch;
    the flag-only segmenter tests for a barrier first, so it keeps
    checkpoints out of the epochs when no checkpoint record carries a
    barrier flag. *)
Theorem no_checkpoint_op_in_epochs (sector_size : Z) (trace : list disk_write) :
  (forall e o,
      e ∈ InitDataVectorSoft sector_size trace ->
      o ∈ ops e -> is_checkpoint (op o) = false)
  /\ (Forall checkpoint_wf trace ->
      forall e o,
        e ∈ InitDataVector sector_size trace ->
        o ∈ ops e -> is_checkpoint (op o) = false).
Proof.
  set (Q := fun e : epoch =>
              forall o, o ∈ ops e -> is_checkpoint (op o) = false).
  set (P := fun w : disk_write => is_checkpoint w = false).
  assert (forall cp, Q (set_checkpoint_epoch cp fresh_epoch)) as Hfresh.
  { intros cp o Ho. by apply elem_of_nil in Ho. }
  assert (forall i w e0,
             is_checkpoint w = false -> Q e0 -> Q (add_op i w e0)) as Hadd.
  { intros i w e0 Hw Hnone o Ho. cbn in Ho.
    apply elem_of_app in Ho as [Ho | Ho]; [by apply Hnone |].
    apply list_elem_of_singleton in Ho as ->. exact Hw. }
  split.
  - intros e o He. revert o. change (Q e).
    revert e He. apply Forall_forall.
    apply (epochs_inv_soft Q Q P).
    + exact Hfresh.
    + intros cp e0 H. exact H.
    + intros e0 H. exact H.
    + intros i w e0 _ Hw H. by apply Hadd.
    + intros i w cp _ Hw. apply Hadd; [| apply Hfresh].
      by rewrite (proj2 (halves_keep_checkpoint_flag w)).
    + intros i w e0 _ Hw H. apply (Hadd i _ e0); [| exact H].
      by rewrite (proj1 (halves_keep_checkpoint_flag w)).
    + intros i w e0 _ Hw H. by apply (Hadd i w e0).
    + intros e0 H. exact H.
    + intros w Hw _. exact Hw.
  - intros Hwf e o He. revert o. change (Q e).
    revert e He. apply Forall_forall.
    apply (epochs_inv_flag Q Q P).
    + exact Hfresh.
    + intros cp e0 H. exact H.
    + intros e0 H. exact H.
    + intros i w e0 _ Hw H. by apply Hadd.
    + intros i w cp _ Hw. apply Hadd; [| apply Hfresh].
      by rewrite (proj2 (halves_keep_checkpoint_flag w)).
    + intros i w e0 _ Hw H. apply (Hadd i _ e0); [| exact H].
      by rewrite (proj1 (halves_keep_checkpoint_flag w)).
    + intros i w e0 _ Hw H. by apply (Hadd i w e0).
    + intros e0 H. exact H.
    + eapply Forall_impl; [exact Hwf |]. intros w Hw Hb. unfold P.
      destruct (is_checkpoint w) eqn:Hc; [| reflexivity].
      specialize (Hw Hc). congruence.
Qed.

Lemma no_checkpoint_op_in_epochs_witness :
  exists e o,
    InitDataVector 512
      [bio 0 512 0 F_WRITE [1]; bio 0 0 0 F_CHECKPOINT [];
       bio 8 512 0 F_WRITE [2]] = [e]
    /\ ops e !! 1%nat = Some o
    /\ is_checkpoint (op o) = false.
Proof.
  do 2 eexists. split; [vm_compute; reflexivity |].
  split; [reflexivity |].
  eapply (proj2 (no_checkpoint_op_in_epochs 512
                   [bio 0 512 0 F_WRITE [1]; bio 0 0 0 F_CHECKPOINT [];
                    bio 8 512 0 F_WRITE [2]])).
  - repeat constructor; unfold checkpoint_wf; cbn; congruence.
  - vm_compute. apply list_elem_of_here.
  - apply list_elem_of_further, list_elem_of_here.
Defined.

(** ** Epochs left behind are not empty *)

Lemma soft_gap_nonempty (e e' : epoch) : soft_gap e e' -> ops e <> [].
Proof. intros (a & b & Ha & _) Hnil. rewrite Hnil in Ha. discriminate. Qed.

Lemma barrier_last_nonempty (e : epoch) :
  barrier_last e -> has_barrier e = true -> ops e <> [].
Proof.
  intros Hlast Hb Hnil. destruct (Hlast Hb) as (o & Ho & _).
  rewrite Hnil in Ho. discriminate.
Qed.

Lemma flag_epochs_barrier_facts (sector_size : Z) (trace : list disk_write) :
  Forall barrier_last (InitDataVector sector_size trace)
  /\ forall (i : nat) (e : epoch),
       InitDataVector sector_size trace !! i = Some e ->
       (S i < length (InitDataVector sector_size trace))%nat ->
       has_barrier e = true.
Proof.
  rewrite InitDataVector_view. split.
  - pose proof (view_flag_run_ind overlap_inv overlap_inv_flag_step trace
                  view_flag_init) as Hinv.
    apply overlap_inv_epochs in Hinv; [| by split; [constructor |]].
    eapply Forall_impl; [exact Hinv |]. by intros e [_ H].
  - intros i e He Hlen.
    assert (Forall (fun e => has_barrier e = true)
              (v_closed (fold_left view_flag_step trace view_flag_init)))
      as Hclosed.
    { apply (view_flag_run_ind
               (fun v => Forall (fun e => has_barrier e = true) (v_closed v)));
        [apply flag_closed_step | constructor]. }
    unfold view_epochs in *. rewrite Forall_lookup in Hclosed.
    destruct (v_cur _) as [cur |]; rewrite length_app in Hlen; cbn in Hlen.
    + rewrite lookup_app_l in He by lia. by apply (Hclosed i).
    + rewrite app_nil_r in He. by apply (Hclosed i).
Qed.

Lemma soft_epochs_barrier_facts (sector_size : Z) (trace : list disk_write) :
  Forall barrier_last (InitDataVectorSoft sector_size trace)
  /\ closed_by_barrier_or_gap (InitDataVectorSoft sector_size trace).
Proof.
  destruct (InitDataVectorSoft_view sector_size trace) as [-> _]. split.
  - apply Forall_forall. intros e He. apply drop_empty_tail_sublist in He.
    pose proof (view_soft_run_ind overlap_inv overlap_inv_soft_step trace
                  view_soft_init) as Hinv.
    apply overlap_inv_epochs in Hinv;
      [| split; [constructor | apply (cur_inv_fresh 0)]].
    rewrite Forall_forall in Hinv. by apply Hinv.
  - destruct (soft_chain_run trace) as (cur & Hcur & Hchain & _).
    unfold view_epochs. rewrite Hcur.
    destruct (drop_empty_tail_cases
                (v_closed (fold_left view_soft_step trace view_soft_init)) cur)
      as [-> | (-> & _)]; [exact Hchain |].
    by apply chain_prefix in Hchain.
Qed.

(** X4.  Every epoch of either segmenter that has a successor holds at
    least one op: only the last epoch can be empty. *)
Theorem only_last_epoch_may_be_empty (sector_size : Z)
    (trace : list disk_write) :
  (forall (i : nat) (e : epoch),
      InitDataVector sector_size trace !! i = Some e ->
      (S i < length (InitDataVector sector_size trace))%nat ->
      ops e <> [])
  /\ (forall (i : nat) (e : epoch),
         InitDataVectorSoft sector_size trace !! i = Some e ->
         (S i < length (InitDataVectorSoft sector_size trace))%nat ->
         ops e <> []).
Proof.
  split.
  - destruct (flag_epochs_barrier_facts sector_size trace) as [Hlast Hbar].
    intros i e He Hlen. rewrite Forall_lookup in Hlast.
    apply barrier_last_nonempty; [by apply (Hlast i) | by apply (Hbar i)].
  - destruct (soft_epochs_barrier_facts sector_size trace) as [Hlast Hchain].
    intros i e He Hlen. rewrite Forall_lookup in Hlast.
    destruct (lookup_lt_is_Some_2 (InitDataVectorSoft sector_size trace) (S i)
                Hlen) as [e' He'].
    destruct (chain_lookup _ Hchain i e e' He He') as [Hb | Hgap].
    + apply barrier_last_nonempty; [by apply (Hlast i) | exact Hb].
    + by apply soft_gap_nonempty in Hgap.
Qed.

Lemma only_last_epoch_may_be_empty_witness :
  exists e e',
    InitDataVectorSoft 512
      [bio 0 1024 1000000000 F_WRITE [1]; bio 1 1024 4000000000 F_WRITE [2]]
    = [e; e']
    /\ ops e <> [].
Proof.
  do 2 eexists. split; [vm_compute; reflexivity |].
  apply (proj2 (only_last_epoch_may_be_empty 512
                  [bio 0 1024 1000000000 F_WRITE [1];
                   bio 1 1024 4000000000 F_WRITE [2]]) 0%nat).
  - reflexivity.
  - vm_compute. lia.
Defined.

(** ** One closed epoch per barrier *)

Lemma barrier_epochs_app (l1 l2 : list epoch) :
  barrier_epochs (l1 ++ l2) = (barrier_epochs l1 + barrier_epochs l2)%nat.
Proof. unfold barrier_epochs. by rewrite filter_app, length_app. Qed.

Lemma barrier_epochs_one (e : epoch) :
  barrier_epochs [e] = if has_barrier e then 1%nat else 0%nat.
Proof.
  unfold barrier_epochs. destruct (has_barrier e) eqn:Hb.
  - by rewrite filter_cons_True.
  - rewrite filter_cons_False by congruence. reflexivity.
Qed.

Lemma barrier_epochs_view (v : seg_view) :
  cur_open v -> barrier_epochs (view_epochs v) = barrier_epochs (v_closed v).
Proof.
  unfold cur_open, view_epochs. rewrite barrier_epochs_app.
  destruct (v_cur v) as [c |]; [| cbn; lia].
  intros Hc. rewrite barrier_epochs_one, Hc. lia.
Qed.

Lemma flag_step_barrier_epochs (v : seg_view) (w : disk_write) :
  cur_open v ->
  cur_open (view_flag_step v w)
  /\ barrier_epochs (v_closed (view_flag_step v w))
     = (barrier_epochs (v_closed v)
        + if is_barrier w then 1 else 0)%nat.
Proof.
  intros Hopen. destruct v as [closed cur ranges cp i lt].
  unfold cur_open in *. cbn [v_cur] in Hopen.
  assert (has_barrier match cur with
                      | Some e => e
                      | None => set_checkpoint_epoch cp fresh_epoch
                      end = false) as Hc by (by destruct cur).
  unfold view_flag_step.
  cbn [v_cur v_closed v_ranges v_checkpoint v_abs_index v_last_time].
  destruct (is_barrier w); cbn [negb].
  - destruct (CanSplitBarrier w); cbn [v_closed v_cur];
      (split; [done |]);
      rewrite barrier_epochs_app, barrier_epochs_one; reflexivity.
  - destruct (is_checkpoint w); cbn [v_closed v_cur];
      (split; [| lia]); [exact Hc |].
    by destruct (fst _).
Qed.

Lemma soft_step_barrier_epochs (v : seg_view) (w : disk_write) :
  is_Some (v_cur v) ->
  cur_open v ->
  is_Some (v_cur (view_soft_step v w))
  /\ cur_open (view_soft_step v w)
  /\ barrier_epochs (v_closed (view_soft_step v w))
     = (barrier_epochs (v_closed v)
        + if negb (is_checkpoint w) && is_barrier w then 1 else 0)%nat.
Proof.
  destruct v as [closed [cur |] ranges cp i lt]; intros [c Hc]; [| discriminate].
  clear c Hc. unfold cur_open. cbn [v_cur]. intros Hopen.
  unfold view_soft_step.
  cbn [v_cur v_closed v_ranges v_checkpoint v_abs_index v_last_time].
  destruct (is_checkpoint w); cbn [negb andb].
  { cbn [v_closed v_cur]. split; [by eexists |]. split; [| lia].
    by destruct (_ =? _)%nat. }
  destruct (is_barrier w); cbn [negb].
  - destruct (CanSplitBarrier w); cbn [v_closed v_cur];
      (split; [by eexists |]); (split; [done |]);
      rewrite barrier_epochs_app, barrier_epochs_one; reflexivity.
  - destruct ((0 <? lt) && _); cbn [v_closed v_cur];
      (split; [by eexists |]); split.
    + by destruct (fst _).
    + rewrite barrier_epochs_app, barrier_epochs_one, Hopen. lia.
    + by destruct (fst _).
    + lia.
Qed.

Lemma filter_length_cons {A : Type} (Pd : A -> Prop) `{!forall x, Decision (Pd x)}
    (x : A) (l : list A) :
  length (filter Pd (x :: l))
  = ((if decide (Pd x) then 1 else 0) + length (filter Pd l))%nat.
Proof.
  destruct (decide (Pd x)) as [Hx | Hx].
  - by rewrite filter_cons_True.
  - by rewrite filter_cons_False.
Qed.

(** X5.  Each barrier closes exactly one epoch: after either segmenter the
    number of epochs with [has_barrier] set is the number of records that
    the segmenter treats as barriers (for the soft one, those that are not
    checkpoints). *)
Theorem one_barrier_epoch_per_barrier (sector_size : Z)
    (trace : list disk_write) :
  barrier_epochs (InitDataVector sector_size trace) = flag_barriers trace
  /\ barrier_epochs (InitDataVectorSoft sector_size trace)
     = soft_barriers trace.
Proof.
  split.
  - rewrite InitDataVector_view.
    enough (forall v,
               cur_open v ->
               cur_open (fold_left view_flag_step trace v)
               /\ barrier_epochs
                    (v_closed (fold_left view_flag_step trace v))
                  = (barrier_epochs (v_closed v) + flag_barriers trace)%nat)
      as Hrun.
    { destruct (Hrun view_flag_init I) as [Hopen Hcount].
      by rewrite barrier_epochs_view. }
    induction trace as [| w rest IH]; intros v Hv.
    + split; [exact Hv |]. cbn. unfold flag_barriers. cbn. lia.
    + cbn [fold_left].
      destruct (flag_step_barrier_epochs v w Hv) as [Hopen Hstep].
      destruct (IH _ Hopen) as [Hopen' Hcount].
      split; [exact Hopen' |]. rewrite Hcount, Hstep.
      unfold flag_barriers. rewrite filter_length_cons.
      destruct (is_barrier w); [rewrite decide_True by done |
                                rewrite decide_False by done]; lia.
  - destruct (InitDataVectorSoft_view sector_size trace) as [-> _].
    enough (forall v,
               is_Some (v_cur v) ->
               cur_open v ->
               is_Some (v_cur (fold_left view_soft_step trace v))
               /\ cur_open (fold_left view_soft_step trace v)
               /\ barrier_epochs
                    (v_closed (fold_left view_soft_step trace v))
                  = (barrier_epochs (v_closed v) + soft_barriers trace)%nat)
      as Hrun.
    { destruct (Hrun view_soft_init) as ([cur Hcur] & Hopen & Hcount);
        [by eexists | reflexivity |].
      unfold cur_open in Hopen. unfold view_epochs. rewrite Hcur in *.
      destruct (drop_empty_tail_cases
                  (v_closed (fold_left view_soft_step trace view_soft_init))
                  cur) as [-> | (-> & _)].
      - rewrite barrier_epochs_app, barrier_epochs_one, Hopen, Hcount.
        cbn. lia.
      - rewrite Hcount. cbn. lia. }
    induction trace as [| w rest IH]; intros v Hsome Hv.
    + split; [exact Hsome |]. split; [exact Hv |].
      cbn. unfold soft_barriers. cbn. lia.
    + cbn [fold_left].
      destruct (soft_step_barrier_epochs v w Hsome Hv)
        as (Hsome' & Hopen & Hstep).
      destruct (IH _ Hsome' Hopen) as (Hsome'' & Hopen' & Hcount).
      split; [exact Hsome'' |]. split; [exact Hopen' |].
      rewrite Hcount, Hstep.
      unfold soft_barriers. rewrite filter_length_cons.
      destruct (is_checkpoint w), (is_barrier w); cbn [negb andb];
        [rewrite decide_False by (intros [? ?]; congruence) |
         rewrite decide_False by (intros [? ?]; congruence) |
         rewrite decide_True by done |
         rewrite decide_False by (intros [? ?]; congruence)]; lia.
Qed.

(** ** Splitting happens once *)

(** X6.  Splitting is final for every record, split or not by the
    segmenters: the flag half has size zero and the data half has lost both
    flush flags, so [CanSplitBarrier] holds of neither; the data half is
    still a barrier exactly when the record has the FUA flag, and it keeps
    sector, size, time and payload. *)
Theorem SplitBarrier_halves_not_splittable (w : disk_write) :
  CanSplitBarrier (fst (SplitBarrier w)) = false
  /\ CanSplitBarrier (snd (SplitBarrier w)) = false
  /\ is_barrier (snd (SplitBarrier w)) = has_FUA_flag w
  /\ has_flush_flag (snd (SplitBarrier w)) = false
  /\ has_flush_seq_flag (snd (SplitBarrier w)) = false
  /\ size (metadata (fst (SplitBarrier w))) = 0
  /\ data (fst (SplitBarrier w)) = []
  /\ size (metadata (snd (SplitBarrier w))) = size (metadata w)
  /\ write_sector (metadata (snd (SplitBarrier w))) = write_sector (metadata w)
  /\ time_ns (metadata (snd (SplitBarrier w))) = time_ns (metadata w)
  /\ data (snd (SplitBarrier w)) = data w.
Proof.
  destruct w as [[sector len t [wr f fs fu m c]] payload].
  unfold CanSplitBarrier, SplitBarrier, is_barrier, has_flush_flag,
    has_flush_seq_flag, has_write_flag, has_FUA_flag.
  cbn. destruct f, fs; cbn; rewrite ?andb_false_r, ?orb_false_r;
    repeat split; reflexivity.
Qed.

(** ** The overlap tracker on its own *)

Lemma scan_ranges_length (dw : disk_write) (start end_ : Z)
    (ranges : list (Z * Z)) :
  length (snd (scan_ranges dw start end_ ranges))
  = (length ranges
     + if fst (scan_ranges dw start end_ ranges) then 0 else 1)%nat.
Proof.
  induction ranges as [| [first second] rest IH]; [reflexivity |].
  cbn [scan_ranges]. destruct (_ || _).
  - cbn. lia.
  - destruct (_ <? _).
    + cbn. lia.
    + destruct (scan_ranges dw start end_ rest) as [found ranges'].
      cbn in *. rewrite IH. lia.
Qed.

(** X7.  [FindOverlapsAndInsert] never removes or merges ranges: the list
    keeps its length when the answer is true and grows by one range when
    the answer is false, whatever the write and the list are. *)
Theorem FindOverlapsAndInsert_length (dw : disk_write)
    (ranges : list (Z * Z)) :
  length (snd (FindOverlapsAndInsert dw ranges))
  = (length ranges
     + if fst (FindOverlapsAndInsert dw ranges) then 0 else 1)%nat.
Proof. unfold FindOverlapsAndInsert. apply scan_ranges_length. Qed.

Lemma tracker_feed_snoc (T : list disk_write) (w : disk_write) :
  tracker_feed (T ++ [w]) = snd (FindOverlapsAndInsert w (tracker_feed T)).
Proof. unfold tracker_feed. by rewrite fold_left_app. Qed.

Lemma tracker_feed_inv (T : list disk_write) :
  Forall range_wf T -> tracker_inv T (tracker_feed T).
Proof.
  induction T as [| w T IH] using rev_ind; intros Hwf.
  - apply tracker_inv_nil.
  - apply Forall_app in Hwf as [HT Hw]. rewrite Forall_singleton in Hw.
    rewrite tracker_feed_snoc. by apply tracker_inv_step, IH.
Qed.

Lemma tracker_feed_length (T : list disk_write) :
  (length (tracker_feed T) <= length T)%nat.
Proof.
  induction T as [| w T IH] using rev_ind; [reflexivity |].
  rewrite tracker_feed_snoc, length_app.
  unfold FindOverlapsAndInsert. rewrite scan_ranges_length.
  cbn. destruct (fst _); lia.
Qed.

(** X8.  A tracker that starts empty and is fed writes whose ranges the
    32-bit arithmetic represents as they are keeps its list ordered by
    start, never holds more ranges than it was fed writes, and answers true
    for the next such write exactly when that write intersects one fed
    before. *)
Theorem tracker_feed_answers (T : list disk_write) (w : disk_write) :
  Forall range_wf T ->
  range_wf w ->
  sorted_from 0 (tracker_feed T)
  /\ (length (tracker_feed T) <= length T)%nat
  /\ (fst (FindOverlapsAndInsert w (tracker_feed T)) = true
      <-> exists a, a ∈ T /\ ranges_intersect a w).
Proof.
  intros HT Hw. pose proof (tracker_feed_inv T HT) as Hinv.
  split; [apply Hinv |]. split; [apply tracker_feed_length |].
  by apply tracker_inv_step.
Qed.

Lemma tracker_feed_answers_witness :
  fst (FindOverlapsAndInsert (bio 12 8 0 F_WRITE [])
         (tracker_feed [bio 0 8 0 F_WRITE []; bio 16 8 0 F_WRITE []])) = true
  <-> exists a,
        a ∈ [bio 0 8 0 F_WRITE []; bio 16 8 0 F_WRITE []]
        /\ ranges_intersect a (bio 12 8 0 F_WRITE []).
Proof.
  apply (tracker_feed_answers
           [bio 0 8 0 F_WRITE []; bio 16 8 0 F_WRITE []]
           (bio 12 8 0 F_WRITE [])).
  - repeat constructor; unfold range_wf; cbn; lia.
  - unfold range_wf; cbn; lia.
Defined.

Lemma tracker_scan_again (s e : Z) (ranges : list (Z * Z)) :
  s <= e ->
  tracker_scan s e (snd (tracker_scan s e ranges))
  = (true, snd (tracker_scan s e ranges)).
Proof.
  intros Hse.
  assert (forall rest,
             tracker_scan s e ((s, e) :: rest) = (true, (s, e) :: rest))
    as Hhead.
  { intros rest. cbn [tracker_scan].
    replace ((s <=? s) && (s <=? e)) with true by (symmetry; lia).
    cbn [orb]. by rewrite Z.min_id, Z.max_id. }
  induction ranges as [| [first second] rest IH]; [apply Hhead |].
  cbn [tracker_scan]. destruct (_ || _) eqn:Hc.
  - cbn [snd tracker_scan].
    replace ((Z.min first s <=? s) && (s <=? Z.max second e)) with true
      by (symmetry; lia).
    cbn [orb]. do 3 f_equal; lia.
  - destruct (e <? first) eqn:Hlt.
    + cbn [snd]. apply Hhead.
    + cbn [snd tracker_scan]. rewrite Hc, Hlt, IH. reflexivity.
Qed.

(** X9.  Asking again about a write that was just looked up changes
    nothing: for a write with a representable range the second call of
    [FindOverlapsAndInsert] answers true and leaves the list as the first
    call made it, whatever the list was. *)
Theorem FindOverlapsAndInsert_again (w : disk_write) (ranges : list (Z * Z)) :
  range_wf w ->
  FindOverlapsAndInsert w (snd (FindOverlapsAndInsert w ranges))
  = (true, snd (FindOverlapsAndInsert w ranges)).
Proof.
  intros Hwf. rewrite !FindOverlapsAndInsert_wf by exact Hwf.
  apply tracker_scan_again. pose proof (range_wf_bounds w Hwf). lia.
Qed.

Lemma FindOverlapsAndInsert_again_witness :
  FindOverlapsAndInsert (bio 4 8 0 F_WRITE [])
    (snd (FindOverlapsAndInsert (bio 4 8 0 F_WRITE []) [(0, 5); (20, 30)]))
  = (true,
     snd (FindOverlapsAndInsert (bio 4 8 0 F_WRITE []) [(0, 5); (20, 30)])).
Proof.
  apply (FindOverlapsAndInsert_again (bio 4 8 0 F_WRITE []) [(0, 5); (20, 30)]).
  unfold range_wf; cbn; lia.
Defined.

(** ** The sectors of one op tile it *)

Lemma total_bytes_app (a b : list EpochOpSector) :
  total_bytes (a ++ b) = total_bytes a + total_bytes b.
Proof.
  unfold total_bytes. induction a as [| s a IH]; cbn; [reflexivity |].
  rewrite IH. lia.
Qed.

Lemma total_bytes_const (c : Z) (l : list EpochOpSector) :
  Forall (fun s => sector_bytes s = c) l ->
  total_bytes l = c * Z.of_nat (length l).
Proof.
  unfold total_bytes. induction 1 as [| s l Hs _ IH]; cbn [map fold_right length].
  - lia.
  - rewrite IH, Hs. lia.
Qed.

Lemma num_sectors_of_ceil (this : epoch_op) (sector_size : Z) :
  0 < sector_size ->
  0 <= size (metadata (op this)) ->
  size (metadata (op this)) + sector_size - 1 < 2 ^ 32 ->
  num_sectors_of this sector_size
  = (size (metadata (op this)) + sector_size - 1) / sector_size
  /\ (size (metadata (op this)) = 0
      \/ 1 <= num_sectors_of this sector_size
         /\ (num_sectors_of this sector_size - 1) * sector_size
            < size (metadata (op this))
         /\ size (metadata (op this))
            <= num_sectors_of this sector_size * sector_size).
Proof.
  intros Hss Hsz Hfit. unfold num_sectors_of.
  rewrite (u32_small (sector_size - 1)) by lia.
  rewrite u32_small by lia.
  replace (size (metadata (op this)) + (sector_size - 1))
    with (size (metadata (op this)) + sector_size - 1) by lia.
  split; [reflexivity |].
  destruct (Z.eq_dec (size (metadata (op this))) 0) as [H0 | H0]; [by left |].
  right.
  pose proof (Z.div_mod (size (metadata (op this)) + sector_size - 1)
                sector_size ltac:(lia)) as Hdm.
  pose proof (Z.mod_pos_bound (size (metadata (op this)) + sector_size - 1)
                sector_size Hss) as Hmod.
  assert (1 <= (size (metadata (op this)) + sector_size - 1) / sector_size).
  { apply Z.div_le_lower_bound; lia. }
  nia.
Qed.

Lemma sector_of_inner (this : epoch_op) (sector_size n i : Z) :
  1 <= n < 2 ^ 32 -> i <> n - 1 ->
  sector_bytes (sector_of this sector_size n i) = sector_size.
Proof.
  intros Hn Hi. unfold sector_of. rewrite (u32_small (n - 1)) by lia.
  destruct (Z.eqb_spec i (n - 1)); [lia | reflexivity].
Qed.

Lemma sector_of_last (this : epoch_op) (sector_size n : Z) :
  1 <= n < 2 ^ 32 ->
  0 <= (n - 1) * sector_size <= size (metadata (op this)) ->
  size (metadata (op this)) < 2 ^ 32 ->
  sector_bytes (sector_of this sector_size n (n - 1))
  = size (metadata (op this)) - (n - 1) * sector_size.
Proof.
  intros Hn Hlo Hsz. unfold sector_of. rewrite (u32_small (n - 1)) by lia.
  rewrite Z.eqb_refl. cbn [sector_bytes].
  rewrite (u32_small ((n - 1) * sector_size)) by lia.
  apply u32_small. lia.
Qed.

(** X10.  When the rounding sum [size + sector_size - 1] stays within 32
    bits, [ToSectors] cuts an op into [ceil (size / sector_size)] sectors
    numbered from 0, each of 1 to [sector_size] bytes and all but the last
    of [sector_size] bytes, whose sizes add up to the size of the op; the
    output record of sector [i] names the op's [abs_index], shares the op's
    data and starts at byte [sector_size * i] of it. *)
Theorem ToSectors_tiles_op (this : epoch_op) (sector_size : Z) :
  0 < sector_size ->
  0 <= size (metadata (op this)) ->
  size (metadata (op this)) + sector_size - 1 < 2 ^ 32 ->
  exists sectors,
    ToSectors this sector_size = Ok sectors
    /\ Z.of_nat (length sectors)
       = (size (metadata (op this)) + sector_size - 1) / sector_size
    /\ total_bytes sectors = size (metadata (op this))
    /\ forall (i : nat) (s : EpochOpSector),
         sectors !! i = Some s ->
         parent_sector_index s = Z.of_nat i
         /\ max_sector_size s = sector_size
         /\ 1 <= sector_bytes s <= sector_size
         /\ ((S i < length sectors)%nat -> sector_bytes s = sector_size)
         /\ Sector_ToWriteData s
            = Some (mk_dwd false (abs_index this) (Z.of_nat i)
                      (u32 (kKernelSectorSize
                            * write_sector (metadata (op this))
                            + Z.of_nat i * sector_size))
                      (sector_bytes s) (data (op this))
                      (sector_size * Z.of_nat i)).
Proof.
  intros Hss Hsz Hfit.
  pose proof (num_sectors_of_range this sector_size Hss) as Hrange.
  set (n := num_sectors_of this sector_size) in *.
  exists (map (sector_of this sector_size n) (seqZ 0 n)).
  split; [by apply ToSectors_Ok |].
  assert (Z.of_nat (length (map (sector_of this sector_size n) (seqZ 0 n))) = n)
    as Hlen by (rewrite length_map, length_seqZ; lia).
  destruct (num_sectors_of_ceil this sector_size Hss Hsz Hfit)
    as [Hn [Hzero | (Hn1 & Hlast & Hup)]]; fold n in Hn.
  2: {
    fold n in Hn1, Hlast, Hup.
    split; [by rewrite Hlen |]. split.
    + replace n with ((n - 1) + 1) at 2 by lia.
      rewrite seqZ_snoc, map_app, total_bytes_app by lia. cbn [map].
      rewrite (total_bytes_const sector_size).
      * rewrite length_map, length_seqZ. unfold total_bytes.
        cbn [map fold_right]. rewrite sector_of_last by nia.
        rewrite Z2Nat.id by lia. lia.
      * apply Forall_forall. intros s Hs.
        apply list_elem_of_fmap in Hs as (i & -> & Hi).
        apply elem_of_seqZ in Hi. apply sector_of_inner; lia.
    + intros i s Hs. rewrite list_lookup_fmap in Hs.
      destruct (seqZ 0 n !! i) as [z |] eqn:Hz; [| discriminate].
      apply lookup_seqZ in Hz as [-> Hi]. cbn in Hs. injection Hs as <-.
      rewrite Z.add_0_l.
      split; [reflexivity |]. split; [reflexivity |].
      assert ((S i < length (map (sector_of this sector_size n) (seqZ 0 n)))%nat
              -> sector_bytes (sector_of this sector_size n (Z.of_nat i))
                 = sector_size) as Hin.
      { intros Hlt. apply sector_of_inner; lia. }
      split; [| split; [exact Hin | reflexivity]].
      destruct (Z.eq_dec (Z.of_nat i) (n - 1)) as [-> | Hne].
      * rewrite sector_of_last by nia. nia.
      * rewrite sector_of_inner by lia. lia.
  }
  assert (n = 0) as Hn0.
  { rewrite Hn, Hzero. apply Z.div_small. lia. }
  rewrite <- Hn. rewrite Hn0, Hzero. cbn.
  split; [reflexivity |]. split; [reflexivity |].
  intros i s Hs. by destruct i.
Qed.

Lemma ToSectors_tiles_op_witness :
  exists sectors,
    ToSectors (mk_epoch_op 5 (bio 8 1100 0 F_WRITE [7])) 512 = Ok sectors
    /\ Z.of_nat (length sectors) = (1100 + 512 - 1) / 512
    /\ total_bytes sectors = 1100.
Proof.
  destruct (ToSectors_tiles_op (mk_epoch_op 5 (bio 8 1100 0 F_WRITE [7])) 512)
    as (sectors & Hok & Hlen & Htotal & _).
  - lia.
  - cbn. lia.
  - cbn. lia.
  - exists sectors. repeat split; assumption.
Defined.

(** ** Coalescing again, and overwrites *)

Lemma keep_latest_idem (l : list EpochOpSector) :
  keep_latest (keep_latest l) = keep_latest l.
Proof. apply keep_latest_NoDup, keep_latest_offsets_NoDup. Qed.

Lemma keep_latest_last (l : list EpochOpSector) :
  last (keep_latest l) = last l.
Proof.
  induction l as [| s later IH]; [reflexivity |].
  cbn [keep_latest].
  destruct (decide (disk_offset s ∈ map disk_offset later)) as [Hin | Hnin].
  - rewrite IH. destruct later as [| s' later']; [| reflexivity].
    by apply elem_of_nil in Hin.
  - by rewrite (last_cons s (keep_latest later)), IH, (last_cons s later).
Qed.

Lemma keep_latest_covered (a b : list EpochOpSector) :
  (forall x, x ∈ a -> disk_offset x ∈ map disk_offset b) ->
  keep_latest (a ++ b) = keep_latest b.
Proof.
  induction a as [| x a IH]; intros Hcov; [reflexivity |].
  cbn [app keep_latest]. rewrite decide_True.
  - apply IH. intros y Hy. apply Hcov. by apply list_elem_of_further.
  - rewrite map_app. apply elem_of_app. right. apply Hcov.
    apply list_elem_of_here.
Qed.

(** X11.  [CoalesceSectors] is idempotent and can be applied piecewise:
    what it returns comes back unchanged from a second call; coalescing a
    list whose front part was coalesced already gives the same result as
    coalescing the whole list; and the last sector of a list is always the
    last sector of the result. *)
Theorem CoalesceSectors_idempotent (sectors coalesced : list EpochOpSector) :
  CoalesceSectors sectors = Ok coalesced ->
  CoalesceSectors coalesced = Ok coalesced
  /\ last coalesced = last sectors
  /\ forall later,
       CoalesceSectors (coalesced ++ later)
       = CoalesceSectors (sectors ++ later).
Proof.
  rewrite CoalesceSectors_keep_latest. intros [= <-].
  split; [by rewrite CoalesceSectors_keep_latest, keep_latest_idem |].
  split; [apply keep_latest_last |].
  intros later. rewrite !CoalesceSectors_keep_latest, !keep_latest_app.
  by rewrite keep_latest_idem.
Qed.

Lemma CoalesceSectors_idempotent_witness :
  CoalesceSectors [mk_sector None 0 512 512 512]
  = Ok [mk_sector None 0 512 512 512]
  /\ last [mk_sector None 0 512 512 512]
     = last [mk_sector None 0 512 512 512; mk_sector None 0 512 512 512]
  /\ forall later,
       CoalesceSectors ([mk_sector None 0 512 512 512] ++ later)
       = CoalesceSectors
           ([mk_sector None 0 512 512 512; mk_sector None 0 512 512 512]
            ++ later).
Proof.
  apply (CoalesceSectors_idempotent
           [mk_sector None 0 512 512 512; mk_sector None 0 512 512 512]
           [mk_sector None 0 512 512 512]).
  vm_compute. reflexivity.
Defined.

(** X12.  A later op that starts at the same sector and has at least as
    many sectors overwrites an earlier one: coalescing the sectors of the
    earlier op followed by those of the later op returns the sectors of the
    later op alone. *)
Theorem CoalesceSectors_overwrite (first second : epoch_op)
    (sector_size : Z) (s1 s2 : list EpochOpSector) :
  0 < sector_size ->
  write_sector (metadata (op first)) = write_sector (metadata (op second)) ->
  num_sectors_of first sector_size <= num_sectors_of second sector_size ->
  ToSectors first sector_size = Ok s1 ->
  ToSectors second sector_size = Ok s2 ->
  CoalesceSectors (s1 ++ s2) = Ok s2.
Proof.
  intros Hss Hsector Hnum. rewrite !ToSectors_Ok by exact Hss.
  intros [= <-] [= <-]. rewrite CoalesceSectors_keep_latest.
  rewrite keep_latest_covered.
  - f_equal. apply keep_latest_NoDup. by apply sector_offsets_NoDup.
  - intros x Hx. apply list_elem_of_fmap in Hx as (i & -> & Hi).
    apply elem_of_seqZ in Hi. apply list_elem_of_fmap.
    exists (sector_of second sector_size
              (num_sectors_of second sector_size) i).
    split.
    + unfold sector_of. cbn [disk_offset]. by rewrite Hsector.
    + apply list_elem_of_fmap. exists i. split; [reflexivity |].
      apply elem_of_seqZ. lia.
Qed.

Lemma CoalesceSectors_overwrite_witness :
  exists s1 s2,
    ToSectors (mk_epoch_op 0 (bio 8 1024 0 F_WRITE [1])) 512 = Ok s1
    /\ ToSectors (mk_epoch_op 1 (bio 8 1024 0 F_WRITE [2])) 512 = Ok s2
    /\ CoalesceSectors (s1 ++ s2) = Ok s2.
Proof.
  do 2 eexists. split; [vm_compute; reflexivity |].
  split; [vm_compute; reflexivity |].
  apply (CoalesceSectors_overwrite
           (mk_epoch_op 0 (bio 8 1024 0 F_WRITE [1]))
           (mk_epoch_op 1 (bio 8 1024 0 F_WRITE [2])) 512).
  - lia.
  - reflexivity.
  - vm_compute. discriminate.
  - vm_compute. reflexivity.
  - vm_compute. reflexivity.
Defined.

(** ** The equality of the memo set, read with its loop *)

Lemma BioVectorEqual_loop_spec (a b : list Z) :
  length a = length b ->
  Z.of_nat (length a) < 2 ^ 32 ->
  forall (fuel i : nat),
    (i <= length a)%nat ->
    (length a - i < fuel)%nat ->
    BioVectorEqual_loop fuel a b (Z.of_nat i)
    = Ok (elements_equal (drop i a) (drop i b)).
Proof.
  intros Hlen Hfit. induction fuel as [| fuel IH]; intros i Hi Hfuel; [lia |].
  cbn [BioVectorEqual_loop].
  destruct (Z.ltb_spec (Z.of_nat i) (Z.of_nat (length a))) as [Hlt | Hge].
  - rewrite Nat2Z.id.
    destruct (lookup_lt_is_Some_2 a i ltac:(lia)) as [x Hx].
    destruct (lookup_lt_is_Some_2 b i ltac:(lia)) as [y Hy].
    rewrite Hx, Hy, (drop_S a x i Hx), (drop_S b y i Hy).
    cbn [elements_equal]. destruct (x =? y); cbn [negb]; [| reflexivity].
    rewrite u32_small by lia.
    replace (Z.of_nat i + 1) with (Z.of_nat (S i)) by lia.
    apply IH; lia.
  - rewrite !drop_ge by lia. reflexivity.
Qed.

(** X13.  On vectors of fewer than [2^32] elements the comparison of the
    memo set, read with its [unsigned int] counter and its checked reads
    [at(i)], never reads outside a vector, ends within its loop budget and
    answers true exactly when the two vectors are equal. *)
Theorem BioVectorEqual_at_decides (a b : list Z) :
  Z.of_nat (length a) < 2 ^ 32 ->
  BioVectorEqual_at a b = Ok (BioVectorEqual a b)
  /\ (BioVectorEqual_at a b = Ok true <-> a = b).
Proof.
  intros Hfit.
  assert (BioVectorEqual_at a b = Ok (BioVectorEqual a b)) as Heq.
  { unfold BioVectorEqual_at, BioVectorEqual.
    destruct (Nat.eqb_spec (length a) (length b)) as [Hlen | Hlen];
      cbn [negb]; [| reflexivity].
    apply (BioVectorEqual_loop_spec a b Hlen Hfit (S (length a)) 0%nat); lia. }
  split; [exact Heq |]. rewrite Heq, <- BioVectorEqual_eq.
  split; [by intros [= ->] | by intros ->].
Qed.

Lemma BioVectorEqual_at_decides_witness :
  BioVectorEqual_at [3; 1; 2] [3; 1; 2] = Ok (BioVectorEqual [3; 1; 2] [3; 1; 2])
  /\ (BioVectorEqual_at [3; 1; 2] [3; 1; 2] = Ok true
      <-> [3; 1; 2] = [3; 1; 2]).
Proof. apply (BioVectorEqual_at_decides [3; 1; 2] [3; 1; 2]). cbn. lia. Defined.

(** ** What the epochs hold *)

Lemma all_ops_app (l1 l2 : list epoch) :
  all_ops (l1 ++ l2) = all_ops l1 ++ all_ops l2.
Proof. unfold all_ops. by rewrite map_app, concat_app. Qed.

Lemma all_ops_one (e : epoch) : all_ops [e] = ops e.
Proof. unfold all_ops. cbn. by rewrite app_nil_r. Qed.

Lemma all_ops_cur (c : option epoch) :
  all_ops match c with Some e => [e] | None => [] end
  = match c with Some e => ops e | None => [] end.
Proof. destruct c; [apply all_ops_one | reflexivity]. Qed.

Ltac ops_simpl :=
  unfold view_epochs; cbn [v_closed v_cur];
  rewrite ?all_ops_app, ?all_ops_one, ?all_ops_cur;
  unfold add_op; cbn [ops push_back_op add_num_meta set_overlaps
                      set_has_barrier set_checkpoint_epoch fresh_epoch];
  rewrite <- ?app_assoc; cbn [app]; rewrite ?app_nil_r.

Lemma flag_step_ops (v : seg_view) (w : disk_write) :
  all_ops (view_epochs (view_flag_step v w))
  = all_ops (view_epochs v) ++ ops_of_record false (v_abs_index v) w
  /\ v_abs_index (view_flag_step v w) = u32 (v_abs_index v + 1).
Proof.
  destruct v as [closed cur ranges cp i lt].
  unfold view_flag_step, ops_of_record.
  cbn [v_cur v_closed v_ranges v_checkpoint v_abs_index v_last_time].
  destruct (is_barrier w) eqn:Hb; cbn [negb andb].
  - destruct (CanSplitBarrier w); (split; [| reflexivity]);
      destruct cur as [e |]; ops_simpl; reflexivity.
  - rewrite (not_barrier_not_split w Hb).
    destruct (is_checkpoint w); (split; [| reflexivity]).
    + destruct cur as [e |]; ops_simpl; reflexivity.
    + destruct (fst (FindOverlapsAndInsert w _));
        destruct cur as [e |]; ops_simpl; reflexivity.
Qed.

Lemma soft_step_ops (v : seg_view) (w : disk_write) :
  is_Some (v_cur v) ->
  all_ops (view_epochs (view_soft_step v w))
  = all_ops (view_epochs v) ++ ops_of_record true (v_abs_index v) w
  /\ v_abs_index (view_soft_step v w) = u32 (v_abs_index v + 1)
  /\ is_Some (v_cur (view_soft_step v w)).
Proof.
  destruct v as [closed [cur |] ranges cp i lt]; intros [c Hc]; [| discriminate].
  clear c Hc. unfold view_soft_step, ops_of_record.
  cbn [v_cur v_closed v_ranges v_checkpoint v_abs_index v_last_time].
  destruct (is_checkpoint w).
  { split; [| split; [reflexivity | by eexists]].
    destruct (_ =? _)%nat; ops_simpl; reflexivity. }
  destruct (is_barrier w) eqn:Hb; cbn [negb].
  - destruct (CanSplitBarrier w);
      (split; [| split; [reflexivity | by eexists]]);
      ops_simpl; reflexivity.
  - rewrite (not_barrier_not_split w Hb).
    split; [| split; [reflexivity | by eexists]].
    destruct ((0 <? lt) && _); destruct (fst (FindOverlapsAndInsert w _));
      ops_simpl; reflexivity.
Qed.

Lemma drop_empty_tail_ops (closed : list epoch) (cur : epoch) :
  all_ops (drop_empty_tail (closed ++ [cur])) = all_ops (closed ++ [cur]).
Proof.
  destruct (drop_empty_tail_cases closed cur) as [-> | (-> & Hnil & _)];
    [reflexivity |].
  by rewrite all_ops_app, all_ops_one, Hnil, app_nil_r.
Qed.

Lemma flag_run_ops (trace : list disk_write) :
  forall v,
    all_ops (view_epochs (fold_left view_flag_step trace v))
    = all_ops (view_epochs v) ++ ops_of_trace false (v_abs_index v) trace.
Proof.
  induction trace as [| w rest IH]; intros v.
  - cbn. by rewrite app_nil_r.
  - cbn [fold_left ops_of_trace].
    destruct (flag_step_ops v w) as [Hops Habs].
    by rewrite IH, Hops, Habs, <- app_assoc.
Qed.

Lemma soft_run_ops (trace : list disk_write) :
  forall v,
    is_Some (v_cur v) ->
    all_ops (view_epochs (fold_left view_soft_step trace v))
    = all_ops (view_epochs v) ++ ops_of_trace true (v_abs_index v) trace.
Proof.
  induction trace as [| w rest IH]; intros v Hv.
  - cbn. by rewrite app_nil_r.
  - cbn [fold_left ops_of_trace].
    destruct (soft_step_ops v w Hv) as (Hops & Habs & Hv').
    by rewrite IH, Hops, Habs, <- app_assoc.
Qed.

(** X14.  The segmenters lose, alter and reorder nothing: the ops of the
    epochs, read epoch after epoch, are the records of the trace in trace
    order, each with its position (counted in 32 bits) as [abs_index] and
    stored as it was recorded, except that a checkpoint leaves no op and a
    barrier that can be split leaves its two halves.  The soft segmenter
    takes every record with the checkpoint flag for a checkpoint, the
    flag-only one only those that are not barriers. *)
Theorem epochs_hold_the_trace (sector_size : Z) (trace : list disk_write) :
  all_ops (InitDataVector sector_size trace) = ops_of_trace false 0 trace
  /\ all_ops (InitDataVectorSoft sector_size trace)
     = ops_of_trace true 0 trace.
Proof.
  split.
  - rewrite InitDataVector_view. apply (flag_run_ops trace view_flag_init).
  - destruct (InitDataVectorSoft_view sector_size trace) as [-> [cur Hcur]].
    unfold view_epochs at 1. rewrite Hcur, drop_empty_tail_ops.
    pose proof (soft_run_ops trace view_soft_init ltac:(by eexists)) as Hrun.
    unfold view_epochs at 1 in Hrun. rewrite Hcur in Hrun. exact Hrun.
Qed.

(** ** Checkpoint ids of the flag-only segmenter *)

Lemma s32_small (z : Z) : - 2 ^ 31 <= z < 2 ^ 31 -> s32 z = z.
Proof. intros Hz. unfold s32. rewrite Z.mod_small by lia. lia. Qed.

Lemma flag_checkpoints_snoc (pre : list disk_write) (w : disk_write) :
  flag_checkpoints (pre ++ [w])
  = flag_checkpoints pre
    + (if negb (is_barrier w) && is_checkpoint w then 1 else 0).
Proof.
  unfold flag_checkpoints. rewrite filter_app, length_app, Nat2Z.inj_add.
  f_equal. destruct (is_barrier w) eqn:Hb, (is_checkpoint w) eqn:Hc;
    cbn [negb andb];
    [rewrite filter_cons_False by (intros [? ?]; congruence) |
     rewrite filter_cons_False by (intros [? ?]; congruence) |
     rewrite filter_cons_True by done |
     rewrite filter_cons_False by (intros [? ?]; congruence)]; reflexivity.
Qed.

Lemma flag_checkpoints_nonneg (trace : list disk_write) :
  0 <= flag_checkpoints trace.
Proof. unfold flag_checkpoints. lia. Qed.

Lemma closed_id_ok_snoc (pre : list disk_write) (w : disk_write) (e : epoch) :
  closed_id_ok pre e -> closed_id_ok (pre ++ [w]) e.
Proof.
  intros (Hb & o & Ho & Hlt & Hid). split; [exact Hb |]. exists o.
  split; [exact Ho |]. rewrite length_app. split; [lia |].
  by rewrite take_app_le by lia.
Qed.

Lemma closed_id_ok_barrier (pre : list disk_write) (w b : disk_write)
    (cp : Z) (e : epoch) :
  checkpoint_epoch e = cp ->
  cp = flag_checkpoints pre - 1 ->
  closed_id_ok (pre ++ [w])
    (set_has_barrier true (add_op (Z.of_nat (length pre)) b e)).
Proof.
  intros He Hcp. split; [reflexivity |].
  exists (mk_epoch_op (Z.of_nat (length pre)) b).
  unfold add_op. cbn [ops set_has_barrier add_num_meta push_back_op abs_index
                      checkpoint_epoch].
  split; [apply last_snoc |]. rewrite Nat2Z.id, length_app. split; [cbn; lia |].
  rewrite take_app_length. congruence.
Qed.

Lemma flag_id_inv_step (pre : list disk_write) (v : seg_view) (w : disk_write) :
  Z.of_nat (length pre) + 1 < 2 ^ 32 ->
  flag_checkpoints (pre ++ [w]) <= 2 ^ 31 ->
  flag_id_inv pre v -> flag_id_inv (pre ++ [w]) (view_flag_step v w).
Proof.
  intros Hfit Hcount (Habs & Hcp & Hclosed & Hcur).
  destruct v as [closed cur ranges cp i lt].
  cbn [v_closed v_cur v_checkpoint v_abs_index] in *. subst i.
  pose proof (flag_checkpoints_nonneg pre) as Hnn.
  assert (Forall (closed_id_ok (pre ++ [w])) closed) as Hclosed'.
  { eapply Forall_impl; [exact Hclosed |]. intros e. apply closed_id_ok_snoc. }
  assert (has_barrier match cur with
                      | Some e => e
                      | None => set_checkpoint_epoch cp fresh_epoch
                      end = false
          /\ checkpoint_epoch match cur with
                              | Some e => e
                              | None => set_checkpoint_epoch cp fresh_epoch
                              end = cp) as [Hcb Hcid].
  { destruct cur; [exact Hcur | by split]. }
  unfold flag_id_inv, view_flag_step.
  cbn [v_cur v_closed v_ranges v_checkpoint v_abs_index v_last_time].
  rewrite flag_checkpoints_snoc in *. rewrite length_app. cbn [length].
  assert (u32 (Z.of_nat (length pre) + 1) = Z.of_nat (length pre + 1)) as Hi
    by (rewrite u32_small by lia; lia).
  destruct (is_barrier w); cbn [negb andb] in *.
  - destruct (CanSplitBarrier w);
      cbn [v_cur v_closed v_ranges v_checkpoint v_abs_index v_last_time];
      (split; [exact Hi |]); (split; [lia |]); (split; [| done]);
      (apply Forall_app; split; [exact Hclosed' |]);
      apply Forall_singleton; by apply (closed_id_ok_barrier pre w _ cp).
  - destruct (is_checkpoint w);
      cbn [v_cur v_closed v_ranges v_checkpoint v_abs_index v_last_time];
      (split; [exact Hi |]).
    + rewrite s32_small by lia.
      split; [lia |]. split; [exact Hclosed' |].
      split; [exact Hcb | reflexivity].
    + split; [lia |]. split; [exact Hclosed' |].
      destruct (fst _); split; assumption.
Qed.

Lemma flag_id_inv_run (trace : list disk_write) :
  Z.of_nat (length trace) < 2 ^ 32 ->
  flag_checkpoints trace <= 2 ^ 31 ->
  flag_id_inv trace (fold_left view_flag_step trace view_flag_init).
Proof.
  induction trace as [| w pre IH] using rev_ind; intros Hfit Hcount.
  - repeat split. constructor.
  - rewrite length_app in Hfit. cbn [length] in Hfit.
    rewrite fold_left_app. cbn [fold_left].
    apply flag_id_inv_step; [lia | exact Hcount |]. apply IH; [lia |].
    rewrite flag_checkpoints_snoc in Hcount.
    destruct (negb (is_barrier w) && is_checkpoint w); lia.
Qed.

Lemma StronglySorted_snoc (l : list Z) (y : Z) :
  StronglySorted Z.le l -> Forall (fun x => x <= y) l ->
  StronglySorted Z.le (l ++ [y]).
Proof.
  induction 1 as [| x l Hl IH Hx]; intros Hy; cbn.
  - repeat constructor.
  - apply Forall_cons in Hy as [Hxy Hy]. constructor; [by apply IH |].
    apply Forall_app. split; [exact Hx | by constructor].
Qed.

Lemma flag_id_sorted_step (v : seg_view) (w : disk_write) :
  (negb (is_barrier w) && is_checkpoint w = true ->
   v_checkpoint v + 1 < 2 ^ 31) ->
  flag_id_sorted v -> flag_id_sorted (view_flag_step v w).
Proof.
  intros Hroom (Hsorted & Hbound & Hcp & Hcur).
  destruct v as [closed cur ranges cp i lt].
  cbn [v_closed v_cur v_checkpoint] in *.
  assert (checkpoint_epoch match cur with
                           | Some e => e
                           | None => set_checkpoint_epoch cp fresh_epoch
                           end = cp) as Hcid by (by destruct cur).
  assert (Forall (fun x => x <= cp) (map checkpoint_epoch closed)) as Hle.
  { apply Forall_fmap. eapply Forall_impl; [exact Hbound |]. cbn. lia. }
  unfold flag_id_sorted, view_flag_step.
  cbn [v_cur v_closed v_ranges v_checkpoint v_abs_index v_last_time].
  destruct (is_barrier w); cbn [negb andb] in *.
  - destruct (CanSplitBarrier w);
      cbn [v_cur v_closed v_ranges v_checkpoint v_abs_index v_last_time];
      rewrite map_app; cbn [map]; unfold add_op;
      cbn [checkpoint_epoch set_has_barrier add_num_meta push_back_op];
      rewrite Hcid;
      (split; [by apply StronglySorted_snoc |]);
      (split; [| by split]);
      (apply Forall_app; split; [exact Hbound |]);
      apply Forall_singleton;
      cbn [checkpoint_epoch set_has_barrier add_num_meta push_back_op]; lia.
  - destruct (is_checkpoint w);
      cbn [v_cur v_closed v_ranges v_checkpoint v_abs_index v_last_time];
      (split; [exact Hsorted |]).
    + rewrite s32_small by (specialize (Hroom eq_refl); lia).
      split; [| split; [lia | reflexivity]].
      eapply Forall_impl; [exact Hbound |]. cbn. lia.
    + split; [exact Hbound |]. split; [exact Hcp |].
      by destruct (fst _).
Qed.

Lemma flag_id_sorted_epochs (v : seg_view) :
  flag_id_sorted v ->
  StronglySorted Z.le (map checkpoint_epoch (view_epochs v))
  /\ Forall (fun e => -1 <= checkpoint_epoch e <= v_checkpoint v)
       (view_epochs v).
Proof.
  intros (Hsorted & Hbound & Hcp & Hcur). unfold view_epochs.
  destruct (v_cur v) as [c |]; [| by rewrite app_nil_r].
  rewrite map_app. cbn [map]. split.
  - apply StronglySorted_snoc; [exact Hsorted |].
    apply Forall_fmap. eapply Forall_impl; [exact Hbound |]. cbn. lia.
  - apply Forall_app. split; [exact Hbound |]. apply Forall_singleton. lia.
Qed.

Lemma flag_step_checkpoint (v : seg_view) (w : disk_write) :
  v_checkpoint (view_flag_step v w)
  = if negb (is_barrier w) && is_checkpoint w
    then s32 (v_checkpoint v + 1) else v_checkpoint v.
Proof.
  unfold view_flag_step. destruct (is_barrier w); cbn [negb andb].
  - by destruct (CanSplitBarrier w).
  - by destruct (is_checkpoint w).
Qed.

Lemma flag_id_sorted_run (trace : list disk_write) :
  flag_checkpoints trace <= 2 ^ 31 ->
  flag_id_sorted (fold_left view_flag_step trace view_flag_init)
  /\ v_checkpoint (fold_left view_flag_step trace view_flag_init)
     = flag_checkpoints trace - 1.
Proof.
  induction trace as [| w pre IH] using rev_ind; intros Hcount.
  - split; [| reflexivity]. repeat split; cbn; try constructor; lia.
  - rewrite flag_checkpoints_snoc in *.
    pose proof (flag_checkpoints_nonneg pre) as Hnn.
    destruct IH as [Hsorted Hcp];
      [destruct (negb (is_barrier w) && is_checkpoint w); lia |].
    rewrite fold_left_app. cbn [fold_left]. split.
    + apply flag_id_sorted_step; [| exact Hsorted].
      intros Hw. rewrite Hw in Hcount. lia.
    + rewrite flag_step_checkpoint, Hcp.
      destruct (negb (is_barrier w) && is_checkpoint w); [| lia].
      rewrite s32_small by lia. lia.
Qed.

(** X15.  Checkpoint ids of the flag-only segmenter, for a trace with at
    most [2^31] checkpoint records, which the [int] counter that starts at
    [-1] can count.  Along the epochs the ids never decrease and lie
    between [-1] and the number of checkpoint records minus one.  For a
    trace of fewer than [2^32] records the id of an epoch closed by a
    barrier counts the checkpoints recorded before that barrier, whether
    they came before or after the first op of the epoch; the id of the
    epoch left open counts all checkpoints. *)
Theorem flag_checkpoint_ids (sector_size : Z) (trace : list disk_write) :
  flag_checkpoints trace <= 2 ^ 31 ->
  StronglySorted Z.le
    (map checkpoint_epoch (InitDataVector sector_size trace))
  /\ Forall (fun e => -1 <= checkpoint_epoch e <= flag_checkpoints trace - 1)
       (InitDataVector sector_size trace)
  /\ (Z.of_nat (length trace) < 2 ^ 32 ->
      forall e,
        e ∈ InitDataVector sector_size trace ->
        if has_barrier e
        then exists o,
               last (ops e) = Some o
               /\ is_barrier (op o) = true
               /\ checkpoint_epoch e
                  = flag_checkpoints (take (Z.to_nat (abs_index o)) trace) - 1
        else checkpoint_epoch e = flag_checkpoints trace - 1).
Proof.
  intros Hcount. rewrite InitDataVector_view.
  destruct (flag_id_sorted_run trace Hcount) as [Hsorted Hcp'].
  apply flag_id_sorted_epochs in Hsorted as [Hsorted Hbound].
  rewrite Hcp' in Hbound.
  split; [exact Hsorted |]. split; [exact Hbound |].
  intros Hfit e He.
  destruct (flag_epochs_barrier_facts sector_size trace) as [Hlast _].
  rewrite InitDataVector_view, Forall_forall in Hlast.
  specialize (Hlast e He).
  destruct (flag_id_inv_run trace Hfit Hcount) as (_ & Hcp & Hclosed & Hcur).
  unfold view_epochs in He. apply elem_of_app in He as [He | He].
  - rewrite Forall_forall in Hclosed.
    destruct (Hclosed e He) as (Hb & o & Ho & _ & Hid).
    rewrite Hb. exists o. split; [exact Ho |]. split; [| exact Hid].
    destruct (Hlast Hb) as (o' & Ho' & Hbar). congruence.
  - destruct (v_cur _) as [c |]; [| by apply elem_of_nil in He].
    apply list_elem_of_singleton in He as ->.
    destruct Hcur as [-> ->]. exact Hcp.
Qed.

Lemma flag_checkpoint_ids_witness :
  exists e1 e2,
    InitDataVector 512
      [bio 0 512 0 F_WRITE [1]; bio 0 0 0 F_CHECKPOINT [];
       bio 0 0 0 F_FLUSH []; bio 8 512 0 F_WRITE [2]] = [e1; e2]
    /\ (if has_barrier e1
        then exists o,
               last (ops e1) = Some o
               /\ is_barrier (op o) = true
               /\ checkpoint_epoch e1
                  = flag_checkpoints
                      (take (Z.to_nat (abs_index o))
                         [bio 0 512 0 F_WRITE [1]; bio 0 0 0 F_CHECKPOINT [];
                          bio 0 0 0 F_FLUSH []; bio 8 512 0 F_WRITE [2]]) - 1
        else checkpoint_epoch e1
             = flag_checkpoints
                 [bio 0 512 0 F_WRITE [1]; bio 0 0 0 F_CHECKPOINT [];
                  bio 0 0 0 F_FLUSH []; bio 8 512 0 F_WRITE [2]] - 1).
Proof.
  do 2 eexists. split; [vm_compute; reflexivity |].
  destruct (flag_checkpoint_ids 512
              [bio 0 512 0 F_WRITE [1]; bio 0 0 0 F_CHECKPOINT [];
               bio 0 0 0 F_FLUSH []; bio 8 512 0 F_WRITE [2]])
    as (_ & _ & Hids).
  - vm_compute. discriminate.
  - apply Hids.
    + cbn. lia.
    + vm_compute. apply list_elem_of_here.
Defined.

(** ** Checkpoint ids of the soft segmenter *)

Lemma soft_checkpoints_snoc (pre : list disk_write) (w : disk_write) :
  soft_checkpoints (pre ++ [w])
  = soft_checkpoints pre + (if is_checkpoint w then 1 else 0).
Proof.
  unfold soft_checkpoints. rewrite filter_app, length_app, Nat2Z.inj_add.
  f_equal. destruct (is_checkpoint w) eqn:Hc.
  - by rewrite filter_cons_True.
  - rewrite filter_cons_False by congruence. reflexivity.
Qed.

Lemma soft_checkpoints_nonneg (trace : list disk_write) :
  0 <= soft_checkpoints trace.
Proof. unfold soft_checkpoints. lia. Qed.

Lemma soft_id_ok_snoc (pre : list disk_write) (w : disk_write) (first : bool)
    (e : epoch) :
  ops e <> [] -> soft_id_ok pre first e -> soft_id_ok (pre ++ [w]) first e.
Proof.
  unfold soft_id_ok. destruct (ops e) as [| o l]; [done |]. cbn [head].
  intros _ [Hlt Hid]. rewrite length_app. split; [lia |].
  by rewrite take_app_le by lia.
Qed.

Lemma soft_id_ok_push (pre : list disk_write) (w b : disk_write)
    (first : bool) (e e' : epoch) :
  ops e' = ops e ++ [mk_epoch_op (Z.of_nat (length pre)) b] ->
  checkpoint_epoch e' = checkpoint_epoch e ->
  soft_id_ok pre first e ->
  soft_id_ok (pre ++ [w]) first e' /\ ops e' <> [].
Proof.
  unfold soft_id_ok. intros -> ->.
  destruct (ops e) as [| o l]; cbn [head app abs_index].
  - intros ->. rewrite Nat2Z.id, length_app, take_app_length.
    cbn [length]. repeat split; [lia | done].
  - intros [Hlt Hid]. rewrite length_app.
    rewrite take_app_le by lia. repeat split; [lia | done | done].
Qed.

Lemma soft_id_ok_fresh (pre : list disk_write) (cp : Z) :
  cp = soft_checkpoints pre - 1 ->
  soft_id_ok pre false (set_checkpoint_epoch cp fresh_epoch).
Proof. intros ->. reflexivity. Qed.

Lemma soft_closed_ok_snoc (pre : list disk_write) (w : disk_write)
    (l : list epoch) :
  soft_closed_ok pre l -> soft_closed_ok (pre ++ [w]) l.
Proof.
  intros Hl k e He. destruct (Hl k e He) as [Hne Hok].
  split; [exact Hne | by apply soft_id_ok_snoc].
Qed.

Lemma soft_closed_ok_push (pre : list disk_write) (l : list epoch)
    (x : epoch) :
  soft_closed_ok pre l ->
  ops x <> [] ->
  soft_id_ok pre (Nat.eqb (length l) 0) x ->
  soft_closed_ok pre (l ++ [x]).
Proof.
  intros Hl Hne Hx k e He.
  apply lookup_app_Some in He as [He | [Hk He]]; [by apply Hl |].
  destruct (k - length l)%nat as [| n] eqn:Hd; [| by destruct n].
  cbn in He. injection He as <-. replace k with (length l) by lia.
  by split.
Qed.

Lemma length_snoc_nonzero {A : Type} (l : list A) (x : A) :
  Nat.eqb (length (l ++ [x])) 0 = false.
Proof. rewrite length_app. cbn. apply Nat.eqb_neq. lia. Qed.

Lemma soft_id_inv_step (pre : list disk_write) (v : seg_view) (w : disk_write) :
  Z.of_nat (length pre) + 1 < 2 ^ 32 ->
  soft_checkpoints (pre ++ [w]) <= 2 ^ 31 ->
  soft_id_inv pre v -> soft_id_inv (pre ++ [w]) (view_soft_step v w).
Proof.
  intros Hfit Hcount (Habs & Hcp & Hclosed & cur & Hcur & Hok & Htime).
  destruct v as [closed c ranges cp i lt].
  cbn [v_closed v_cur v_checkpoint v_abs_index v_last_time] in *.
  subst i c.
  pose proof (soft_checkpoints_nonneg pre) as Hnn.
  pose proof (soft_closed_ok_snoc pre w closed Hclosed) as Hclosed'.
  assert (u32 (Z.of_nat (length pre) + 1) = Z.of_nat (length (pre ++ [w])))
    as Hi by (rewrite length_app, u32_small by lia; cbn; lia).
  unfold soft_id_inv, view_soft_step.
  cbn [v_cur v_closed v_ranges v_checkpoint v_abs_index v_last_time].
  rewrite soft_checkpoints_snoc in *.
  destruct (is_checkpoint w) eqn:Hc.
  { cbn [v_cur v_closed v_ranges v_checkpoint v_abs_index v_last_time].
    rewrite s32_small by lia.
    split; [exact Hi |]. split; [lia |]. split; [exact Hclosed' |].
    eexists. split; [reflexivity |].
    destruct (Nat.eqb_spec (length (ops cur)) 0) as [Hlen | Hlen].
    - apply nil_length_inv in Hlen. split.
      + unfold soft_id_ok. cbn [ops set_checkpoint_epoch checkpoint_epoch].
        rewrite Hlen. cbn [head]. rewrite soft_checkpoints_snoc, Hc.
        unfold soft_id_of. destruct (Nat.eqb _ _); lia.
      + intros Hlt. cbn [ops set_checkpoint_epoch]. by apply Htime.
    - split; [| exact Htime]. apply soft_id_ok_snoc; [| exact Hok].
      intros Hnil. by rewrite Hnil in Hlen. }
  destruct (is_barrier w); cbn [negb].
  - destruct (CanSplitBarrier w);
      cbn [v_cur v_closed v_ranges v_checkpoint v_abs_index v_last_time];
      (split; [exact Hi |]); (split; [lia |]);
      destruct (soft_id_ok_push pre w
                  (if CanSplitBarrier w then fst (SplitBarrier w) else w)
                  (Nat.eqb (length closed) 0) cur
                  (set_has_barrier true
                     (add_op (Z.of_nat (length pre))
                        (if CanSplitBarrier w then fst (SplitBarrier w) else w)
                        cur)))
        as [Hok' Hne']; try reflexivity; try exact Hok.
    + split.
      * apply soft_closed_ok_push; [exact Hclosed' | |].
        -- unfold add_op. cbn [ops set_has_barrier add_num_meta push_back_op].
           by destruct (ops cur).
        -- eapply (soft_id_ok_push pre w (fst (SplitBarrier w)));
             [reflexivity | reflexivity | exact Hok].
      * eexists. split; [reflexivity |]. rewrite length_snoc_nonzero.
        split; [| lia].
        eapply (soft_id_ok_push pre w (snd (SplitBarrier w)) false
                  (set_checkpoint_epoch cp fresh_epoch));
          [reflexivity | reflexivity | by apply soft_id_ok_fresh].
    + split.
      * apply soft_closed_ok_push; [exact Hclosed' | |].
        -- unfold add_op. cbn [ops set_has_barrier add_num_meta push_back_op].
           by destruct (ops cur).
        -- eapply (soft_id_ok_push pre w w);
             [reflexivity | reflexivity | exact Hok].
      * eexists. split; [reflexivity |]. rewrite length_snoc_nonzero.
        split; [| lia]. apply soft_id_ok_fresh.
        rewrite soft_checkpoints_snoc, Hc. lia.
  - cbn [v_cur v_closed v_ranges v_checkpoint v_abs_index v_last_time].
    split; [exact Hi |]. split; [lia |].
    destruct ((0 <? lt) && _) eqn:Hgap.
    + apply andb_true_iff in Hgap as [Hlt _]. apply Z.ltb_lt in Hlt.
      split.
      * apply soft_closed_ok_push; [exact Hclosed' | by apply Htime |].
        apply soft_id_ok_snoc; [by apply Htime | exact Hok].
      * eexists. split; [reflexivity |]. rewrite length_snoc_nonzero.
        assert (forall e' : epoch,
                   ops e' = ops (set_checkpoint_epoch cp fresh_epoch)
                            ++ [mk_epoch_op (Z.of_nat (length pre)) w] ->
                   checkpoint_epoch e' = cp ->
                   soft_id_ok (pre ++ [w]) false e' /\ ops e' <> []) as Hnew.
        { intros e' Hops Hid.
          apply (soft_id_ok_push pre w w false
                   (set_checkpoint_epoch cp fresh_epoch) e' Hops Hid).
          by apply soft_id_ok_fresh. }
        destruct (fst _);
          match goal with
          | |- soft_id_ok _ _ ?e /\ _ =>
              destruct (Hnew e) as [H1 H2]; [reflexivity | reflexivity |];
              split; [exact H1 | intros _; exact H2]
          end.
    + split; [exact Hclosed' |].
      eexists. split; [reflexivity |].
      assert (forall e' : epoch,
                 ops e' = ops cur ++ [mk_epoch_op (Z.of_nat (length pre)) w] ->
                 checkpoint_epoch e' = checkpoint_epoch cur ->
                 soft_id_ok (pre ++ [w]) (Nat.eqb (length closed) 0) e'
                 /\ ops e' <> []) as Hnew.
      { intros e' Hops Hid.
        by apply (soft_id_ok_push pre w w _ cur e' Hops Hid). }
      destruct (fst _);
        match goal with
        | |- soft_id_ok _ _ ?e /\ _ =>
            destruct (Hnew e) as [H1 H2]; [reflexivity | reflexivity |];
            split; [exact H1 | intros _; exact H2]
        end.
Qed.

Lemma soft_id_inv_run (trace : list disk_write) :
  Z.of_nat (length trace) < 2 ^ 32 ->
  soft_checkpoints trace <= 2 ^ 31 ->
  soft_id_inv trace (fold_left view_soft_step trace view_soft_init).
Proof.
  induction trace as [| w pre IH] using rev_ind; intros Hfit Hcount.
  - split; [reflexivity |]. split; [reflexivity |]. split; [by intros [] |].
    exists fresh_epoch. repeat split. cbn. lia.
  - rewrite length_app in Hfit. cbn [length] in Hfit.
    rewrite fold_left_app. cbn [fold_left].
    apply soft_id_inv_step; [lia | exact Hcount |]. apply IH; [lia |].
    rewrite soft_checkpoints_snoc in Hcount. destruct (is_checkpoint w); lia.
Qed.

(** X16.  Checkpoint ids of the soft segmenter, for a trace of fewer than
    [2^32] records of which at most [2^31] are checkpoints, which the [int]
    counter that starts at [-1] can count.  The id of an epoch is fixed
    when its first op arrives:
    it counts, from [-1], the checkpoints recorded before that op, and
    later checkpoints do not change it; an epoch without ops counts all
    checkpoints of the trace.  The epoch at position 0 was opened with the
    id [0] and keeps it until a checkpoint is seen, so its id is never
    [-1]. *)
Theorem soft_checkpoint_ids (sector_size : Z) (trace : list disk_write) :
  Z.of_nat (length trace) < 2 ^ 32 ->
  soft_checkpoints trace <= 2 ^ 31 ->
  forall (k : nat) (e : epoch),
    InitDataVectorSoft sector_size trace !! k = Some e ->
    match head (ops e) with
    | Some o =>
        checkpoint_epoch e
        = soft_id_of (Nat.eqb k 0)
            (soft_checkpoints (take (Z.to_nat (abs_index o)) trace))
    | None =>
        checkpoint_epoch e = soft_id_of (Nat.eqb k 0) (soft_checkpoints trace)
    end.
Proof.
  intros Hfit Hcount k e He.
  enough (soft_id_ok trace (Nat.eqb k 0) e) as Hok.
  { unfold soft_id_ok in Hok. destruct (head (ops e)); [apply Hok | exact Hok]. }
  destruct (InitDataVectorSoft_view sector_size trace) as [Heq _].
  rewrite Heq in He.
  destruct (soft_id_inv_run trace Hfit Hcount)
    as (_ & _ & Hclosed & cur & Hcur & Hok & _).
  unfold view_epochs in He. rewrite Hcur in He.
  assert (forall k e,
             (v_closed (fold_left view_soft_step trace view_soft_init)
              ++ [cur]) !! k = Some e ->
             soft_id_ok trace (Nat.eqb k 0) e) as Hall.
  { intros k' e' He'. apply lookup_app_Some in He' as [He' | [Hk He']].
    - by apply (Hclosed k' e').
    - destruct (k' - length _)%nat as [| n] eqn:Hd; [| by destruct n].
      cbn in He'. injection He' as <-.
      replace k' with
        (length (v_closed (fold_left view_soft_step trace view_soft_init)))
        by lia.
      exact Hok. }
  destruct (drop_empty_tail_cases
              (v_closed (fold_left view_soft_step trace view_soft_init)) cur)
    as [Hsame | (Hdrop & _)].
  - rewrite Hsame in He. by apply Hall.
  - rewrite Hdrop in He. apply Hall. by apply lookup_app_l_Some.
Qed.

Lemma soft_checkpoint_ids_witness :
  exists e1 e2,
    InitDataVectorSoft 512
      [bio 0 512 0 F_WRITE [1]; bio 0 0 0 F_CHECKPOINT [];
       bio 0 0 0 F_FLUSH []; bio 8 512 0 F_WRITE [2]] = [e1; e2]
    /\ match head (ops e2) with
       | Some o =>
           checkpoint_epoch e2
           = soft_id_of false
               (soft_checkpoints
                  (take (Z.to_nat (abs_index o))
                     [bio 0 512 0 F_WRITE [1]; bio 0 0 0 F_CHECKPOINT [];
                      bio 0 0 0 F_FLUSH []; bio 8 512 0 F_WRITE [2]]))
       | None =>
           checkpoint_epoch e2
           = soft_id_of false
               (soft_checkpoints
                  [bio 0 512 0 F_WRITE [1]; bio 0 0 0 F_CHECKPOINT [];
                   bio 0 0 0 F_FLUSH []; bio 8 512 0 F_WRITE [2]])
       end.
Proof.
  do 2 eexists. split; [vm_compute; reflexivity |].
  apply (soft_checkpoint_ids 512
           [bio 0 512 0 F_WRITE [1]; bio 0 0 0 F_CHECKPOINT [];
            bio 0 0 0 F_FLUSH []; bio 8 512 0 F_WRITE [2]] ltac:(cbn; lia)
           ltac:(vm_compute; discriminate) 1%nat).
  reflexivity.
Defined.

(** * Further properties of the generators *)

Section GeneratorRounds.
Context {T X : Type} `{Strategy T X}.

Lemma max_retries_fuel (memo : gset (list Z)) :
  exists k, Z.to_nat (max_retries_of memo) = S k /\ 1 < max_retries_of memo.
Proof.
  pose proof (max_retries_of_range memo) as HM. unfold kMinRetries in HM.
  exists (Z.to_nat (max_retries_of memo) - 1)%nat. lia.
Qed.

(** X17.  A first proposal whose hash is not in the memo ends the call
    after one round, whatever the strategy reports: the hash is inserted
    and the strategy's flag is returned, so a state proposed with
    [new_state = false] is memoised although the call returns false.  In
    whole-op mode the result vector is rebuilt from the proposal and the
    vector handed in is not read. *)
Theorem fresh_first_proposal_ends_call (p : Permuter) (st st' : T)
    (res : list DiskWriteData) (log log' : PermuteTestResult X)
    (new_state : bool) (h : list Z) :
  h ∉ completed_permutations_ p ->
  (forall crash_state,
      gen_one_state st (epochs_ p) [] log
      = (new_state, crash_state, log', st') ->
      copy_vector abs_index 0 crash_state = Ok h ->
      GenerateCrashState p st res log
      = Ok (mk_call new_state (map ToWriteData crash_state)
              (set_crash_state (map ToWriteData crash_state) log')
              (memo_insert h p) st' h 1))
  /\ (forall res',
         gen_one_sector_state st (epochs_ p) res log
         = (new_state, res', log', st') ->
         sector_hash res' = Ok h ->
         GenerateSectorCrashState p st res log
         = Ok (mk_call new_state res' (set_crash_state res' log')
                 (memo_insert h p) st' h 1)).
Proof.
  intros Hfresh.
  destruct (max_retries_fuel (completed_permutations_ p)) as (k & Hk & HM).
  assert (memo_count (completed_permutations_ p) h = 0) as Hcount.
  { unfold memo_count. by rewrite decide_False. }
  assert ((max_retries_of (completed_permutations_ p) <=? u64 (0 + 1)) = false)
    as Hone.
  { rewrite u64_small by lia. apply Z.leb_gt. lia. }
  split.
  - intros cs Hgen Hcopy.
    unfold GenerateCrashState, GenerateCrashState_fuel.
    rewrite Hk, whole_loop_round, Hgen, Hcopy. cbn [mbind result_bind].
    rewrite Hone, Hcount, orb_false_r. cbn [Z.ltb Z.compare].
    replace (if negb new_state
             then Ok (mk_exit new_state cs h 0 (u64 (0 + 1)) log' st')
             else Ok (mk_exit new_state cs h 0 (u64 (0 + 1)) log' st'))
      with (Ok (mk_exit new_state cs h 0 (u64 (0 + 1)) log' st')
            : result (loop_exit epoch_op T X))
      by (by destruct new_state).
    cbn [mbind result_bind exit_state].
    rewrite copy_vector_Ok by (by eapply copy_vector_Ok_length).
    cbn [mbind result_bind exit_exists exit_new_state exit_hash exit_log
         exit_strategy exit_retries Z.eqb].
    by rewrite u64_small by lia.
  - intros res' Hgen Hhash.
    unfold GenerateSectorCrashState, GenerateSectorCrashState_fuel.
    rewrite Hk, sector_loop_round, Hgen, Hhash. cbn [mbind result_bind].
    rewrite Hone, Hcount, orb_false_r. cbn [Z.ltb Z.compare].
    replace (if negb new_state
             then Ok (mk_exit new_state res' h 0 (u64 (0 + 1)) log' st')
             else Ok (mk_exit new_state res' h 0 (u64 (0 + 1)) log' st'))
      with (Ok (mk_exit new_state res' h 0 (u64 (0 + 1)) log' st')
            : result (loop_exit DiskWriteData T X))
      by (by destruct new_state).
    cbn [mbind result_bind exit_state exit_exists exit_new_state exit_hash
         exit_log exit_strategy exit_retries Z.eqb].
    by rewrite u64_small by lia.
Qed.

Lemma whole_loop_new_state (fuel : nat) (p : Permuter) (M : Z) :
  always_new_state ->
  forall st cs log r e,
    whole_loop fuel p M st cs log r = Ok e -> exit_new_state e = true.
Proof.
  intros [Hnew _]. induction fuel as [| fuel IH]; intros st cs log r e Hloop;
    [done |].
  rewrite whole_loop_round in Hloop.
  specialize (Hnew st (epochs_ p) cs log).
  destruct (gen_one_state st (epochs_ p) cs log) as [[[ns cs'] log'] st'].
  cbn [fst] in Hnew. subst ns.
  apply bind_Ok in Hloop as (h & _ & Hloop). cbv zeta in Hloop.
  destruct (negb true || _); [by injection Hloop as <- |].
  destruct (0 <? _); [by apply IH in Hloop | by injection Hloop as <-].
Qed.

Lemma sector_loop_new_state (fuel : nat) (p : Permuter) (M : Z) :
  always_new_state ->
  forall st res log r e,
    sector_loop fuel p M st res log r = Ok e -> exit_new_state e = true.
Proof.
  intros [_ Hnew]. induction fuel as [| fuel IH]; intros st res log r e Hloop;
    [done |].
  rewrite sector_loop_round in Hloop.
  specialize (Hnew st (epochs_ p) res log).
  destruct (gen_one_sector_state st (epochs_ p) res log)
    as [[[ns res'] log'] st'].
  cbn [fst] in Hnew. subst ns.
  apply bind_Ok in Hloop as (h & _ & Hloop). cbv zeta in Hloop.
  destruct (negb true || _); [by injection Hloop as <- |].
  destruct (0 <? _); [by apply IH in Hloop | by injection Hloop as <-].
Qed.

(** X18.  When the strategy always reports a new state and every state
    it proposes is in the memo already, a call asks for exactly
    [max_retries] proposals, neither fewer nor more, before it gives up:
    it returns false and leaves the permuter as it was. *)
Theorem exhausted_call_uses_all_retries (p : Permuter) (st : T)
    (res : list DiskWriteData) (log : PermuteTestResult X) :
  always_new_state ->
  (whole_proposals_seen (completed_permutations_ p) ->
   exists r,
     GenerateCrashState p st res log = Ok r
     /\ returned r = false
     /\ call_permuter r = p
     /\ call_retries r = max_retries_of (completed_permutations_ p))
  /\ (sector_proposals_seen (completed_permutations_ p) ->
      exists r,
        GenerateSectorCrashState p st res log = Ok r
        /\ returned r = false
        /\ call_permuter r = p
        /\ call_retries r = max_retries_of (completed_permutations_ p)).
Proof.
  intros Hnew. split; intros Hseen.
  - assert (whole_hashable) as Hhash.
    { intros s ep cs l. destruct (Hseen s ep cs l) as (h & Hh & _). eauto. }
    destruct (GenerateCrashState_all_seen p st res log Hseen)
      as (r & Hr & Hret & Hp).
    destruct (GenerateCrashState_returns p st res log Hhash)
      as (r' & Hr' & Hlo & Hhi).
    assert (r' = r) as -> by congruence.
    exists r. repeat split; try assumption.
    unfold GenerateCrashState, GenerateCrashState_fuel in Hr.
    apply bind_Ok in Hr as (e & Hloop & Hr).
    apply bind_Ok in Hr as (res' & _ & Hr).
    pose proof (whole_loop_new_state _ _ _ Hnew _ _ _ _ _ Hloop) as Hns.
    pose proof (whole_loop_seen _ _ _ Hseen _ _ _ _ _ Hloop) as Hin.
    apply whole_loop_exit in Hloop as (_ & _ & [Hf | [HM | Hout]]);
      [congruence | | done].
    destruct (exit_exists e =? 0); injection Hr as <-;
      cbn [call_retries] in *; lia.
  - assert (sector_hashable) as Hhash.
    { intros s ep rs l. destruct (Hseen s ep rs l) as (h & Hh & _). eauto. }
    destruct (GenerateSectorCrashState_all_seen p st res log Hseen)
      as (r & Hr & Hret & Hp).
    destruct (GenerateSectorCrashState_returns p st res log Hhash)
      as (r' & Hr' & Hlo & Hhi).
    assert (r' = r) as -> by congruence.
    exists r. repeat split; try assumption.
    unfold GenerateSectorCrashState, GenerateSectorCrashState_fuel in Hr.
    apply bind_Ok in Hr as (e & Hloop & Hr).
    pose proof (sector_loop_new_state _ _ _ Hnew _ _ _ _ _ Hloop) as Hns.
    pose proof (sector_loop_seen _ _ _ Hseen _ _ _ _ _ Hloop) as Hin.
    apply sector_loop_exit in Hloop as (_ & _ & [Hf | [HM | Hout]]);
      [congruence | | done].
    destruct (exit_exists e =? 0); injection Hr as <-;
      cbn [call_retries] in *; lia.
Qed.

Lemma whole_res_shape (cs : list epoch_op) :
  Forall (fun d => is_whole_op d = true /\ bio_sector_index d = 0
                   /\ data_buffer_offset d = 0)
    (map ToWriteData cs).
Proof. apply Forall_fmap, Forall_forall. by intros o _. Qed.

(** X19.  What a generator call leaves alone.  Whenever a call returns,
    the epochs and the sector size of the permuter are as before, the memo
    is as before or has gained the one hash of the call, and the log holds
    a copy of the result vector.  In whole-op mode every entry of the
    result is marked as a whole op, with sector index and buffer offset
    zero. *)
Theorem generator_call_frame (p : Permuter) (st : T)
    (res : list DiskWriteData) (log : PermuteTestResult X)
    (r : call_result) :
  (GenerateCrashState p st res log = Ok r
   \/ GenerateSectorCrashState p st res log = Ok r) ->
  epochs_ (call_permuter r) = epochs_ p
  /\ sector_size_ (call_permuter r) = sector_size_ p
  /\ (completed_permutations_ (call_permuter r) = completed_permutations_ p
      \/ completed_permutations_ (call_permuter r)
         = {[call_hash r]} ∪ completed_permutations_ p)
  /\ crash_state (call_log r) = call_res r
  /\ (GenerateCrashState p st res log = Ok r ->
      Forall (fun d => is_whole_op d = true /\ bio_sector_index d = 0
                       /\ data_buffer_offset d = 0)
        (call_res r)).
Proof.
  intros [Hr | Hr].
  - pose proof Hr as Hr'.
    unfold GenerateCrashState, GenerateCrashState_fuel in Hr.
    apply bind_Ok in Hr as (e & _ & Hr).
    apply bind_Ok in Hr as (res' & Hres & Hr).
    apply copy_vector_Ok_inv in Hres. subst res'.
    destruct (exit_exists e =? 0); injection Hr as <-; cbn;
      repeat split; auto using whole_res_shape.
  - unfold GenerateSectorCrashState, GenerateSectorCrashState_fuel in Hr.
    apply bind_Ok in Hr as (e & Hloop & Hr).
    assert (GenerateCrashState p st res log = Ok r ->
            Forall (fun d => is_whole_op d = true /\ bio_sector_index d = 0
                             /\ data_buffer_offset d = 0) (call_res r))
      as Hwhole.
    { intros Hw. unfold GenerateCrashState, GenerateCrashState_fuel in Hw.
      apply bind_Ok in Hw as (e' & _ & Hw).
      apply bind_Ok in Hw as (res' & Hres & Hw).
      apply copy_vector_Ok_inv in Hres. subst res'.
      destruct (exit_exists e' =? 0); injection Hw as <-; cbn;
        apply whole_res_shape. }
    destruct (exit_exists e =? 0); injection Hr as <-; cbn in *;
      repeat split; auto.
Qed.

End GeneratorRounds.

Lemma fresh_first_proposal_ends_call_witness :
  GenerateCrashState sample_permuter 0%nat [] sample_log
  = Ok (mk_call true
          (map ToWriteData
             [mk_epoch_op 0 (fst (SplitBarrier sample_barrier));
              mk_epoch_op 0 (snd (SplitBarrier sample_barrier))])
          (set_crash_state
             (map ToWriteData
                [mk_epoch_op 0 (fst (SplitBarrier sample_barrier));
                 mk_epoch_op 0 (snd (SplitBarrier sample_barrier))])
             sample_log)
          (memo_insert [0; 0] sample_permuter) 1%nat [0; 0] 1).
Proof.
  apply (proj1 (fresh_first_proposal_ends_call sample_permuter 0%nat 1%nat
                  [] sample_log sample_log true [0; 0]
                  (not_elem_of_empty _))).
  - reflexivity.
  - vm_compute. reflexivity.
Defined.

Lemma exhausted_call_uses_all_retries_witness :
  exists r,
    GenerateCrashState (memo_insert [0; 0] sample_permuter) 0%nat []
      sample_log = Ok r
    /\ returned r = false
    /\ call_permuter r = memo_insert [0; 0] sample_permuter
    /\ call_retries r
       = max_retries_of
           (completed_permutations_ (memo_insert [0; 0] sample_permuter)).
Proof.
  destruct (exhausted_call_uses_all_retries
              (memo_insert [0; 0] sample_permuter) 0%nat [] sample_log)
    as [Hwhole _].
  - split; intros; reflexivity.
  - apply Hwhole. intros st epochs cs log. exists [0; 0].
    split; [vm_compute; reflexivity |]. cbn. set_solver.
Defined.

Lemma generator_call_frame_witness :
  exists r,
    GenerateCrashState sample_permuter 0%nat [] sample_log = Ok r
    /\ epochs_ (call_permuter r) = epochs_ sample_permuter
    /\ crash_state (call_log r) = call_res r.
Proof.
  destruct (GenerateCrashState sample_permuter 0%nat [] sample_log)
    as [r | f] eqn:Hr; [| vm_compute in Hr; discriminate].
  exists r. split; [reflexivity |].
  destruct (generator_call_frame sample_permuter 0%nat [] sample_log r
              (or_introl Hr)) as (He & _ & _ & Hlog & _).
  by split.
Defined.

(** * The flag-only segmenter, record by record *)

Lemma epochs_extend_refl (l : list epoch) : epochs_extend l l.
Proof. intros k e He. exists e. by repeat split. Qed.

Lemma epochs_extend_trans (l1 l2 l3 : list epoch) :
  epochs_extend l1 l2 -> epochs_extend l2 l3 -> epochs_extend l1 l3.
Proof.
  intros H12 H23 k e He.
  destruct (H12 k e He) as (e' & He' & Hpre & Heq).
  destruct (H23 k e' He') as (e'' & He'' & Hpre' & Heq').
  exists e''. split; [exact He'' |]. split; [by etrans |].
  intros Hb. specialize (Heq Hb). subst e'. by apply Heq'.
Qed.

Lemma epochs_extend_cur (closed more : list epoch) (cur : option epoch)
    (cur' : epoch) :
  match cur with
  | Some c => has_barrier c = false /\ ops c `prefix_of` ops cur'
  | None => True
  end ->
  epochs_extend
    (closed ++ match cur with Some c => [c] | None => [] end)
    (closed ++ cur' :: more).
Proof.
  intros Hcur k e He. apply lookup_app_Some in He as [He | [Hk He]].
  - exists e. split; [by apply lookup_app_l_Some | by split].
  - destruct cur as [c |]; [| done].
    destruct (k - length closed)%nat as [| n] eqn:Hd; [| by destruct n].
    cbn in He. injection He as <-. destruct Hcur as [Hb Hpre].
    exists cur'. split.
    + rewrite lookup_app_r by lia. by rewrite Hd.
    + split; [exact Hpre | congruence].
Qed.

Lemma flag_step_extend (v : seg_view) (w : disk_write) :
  cur_open v ->
  epochs_extend (view_epochs v) (view_epochs (view_flag_step v w)).
Proof.
  intros Hopen. destruct v as [closed cur ranges cp i lt].
  unfold cur_open in Hopen. cbn [v_cur] in Hopen.
  unfold view_flag_step, view_epochs.
  cbn [v_cur v_closed v_ranges v_checkpoint v_abs_index v_last_time].
  assert (forall (b : disk_write) (f : epoch -> epoch),
             (forall e, ops (f e) = ops e) ->
             match cur with
             | Some c =>
                 has_barrier c = false
                 /\ ops c
                    `prefix_of`
                    ops (f (add_op i b
                              match cur with
                              | Some e => e
                              | None => set_checkpoint_epoch cp fresh_epoch
                              end))
             | None => True
             end) as Hadd.
  { intros b f Hf. destruct cur as [c |]; [| done].
    split; [exact Hopen |]. rewrite Hf. unfold add_op.
    cbn [ops add_num_meta push_back_op]. by apply prefix_app_r. }
  destruct (is_barrier w); cbn [negb].
  - destruct (CanSplitBarrier w); cbn [v_closed v_cur];
      rewrite <- app_assoc; cbn [app];
      apply epochs_extend_cur, (Hadd _ (set_has_barrier true)); reflexivity.
  - destruct (is_checkpoint w); cbn [v_closed v_cur].
    + apply epochs_extend_cur. destruct cur as [c |]; [| done].
      split; [exact Hopen | reflexivity].
    + apply epochs_extend_cur.
      destruct (fst _).
      * destruct cur as [c |]; [| done]. split; [exact Hopen |].
        unfold add_op. cbn [ops add_num_meta push_back_op set_overlaps].
        by apply prefix_app_r.
      * apply (Hadd w (fun e => e)). reflexivity.
Qed.

Lemma flag_run_extend (post : list disk_write) :
  forall v,
    cur_open v ->
    epochs_extend (view_epochs v)
      (view_epochs (fold_left view_flag_step post v)).
Proof.
  induction post as [| w post IH]; intros v Hv; [apply epochs_extend_refl |].
  cbn [fold_left].
  eapply epochs_extend_trans; [by apply flag_step_extend |].
  apply IH. by apply flag_step_barrier_epochs.
Qed.

Lemma flag_run_cur_open (trace : list disk_write) :
  forall v, cur_open v -> cur_open (fold_left view_flag_step trace v).
Proof.
  induction trace as [| w rest IH]; intros v Hv; [exact Hv |].
  cbn [fold_left]. apply IH. by apply flag_step_barrier_epochs.
Qed.

(** X20.  The flag-only segmenter works record by record: when a trace is
    continued, every epoch built for the trace so far keeps its position,
    an epoch that a barrier had closed is exactly as it was, and the epoch
    that was open keeps its ops and only gains ops after them. *)
Theorem InitDataVector_continues (sector_size : Z)
    (pre post : list disk_write) (k : nat) (e : epoch) :
  InitDataVector sector_size pre !! k = Some e ->
  exists e',
    InitDataVector sector_size (pre ++ post) !! k = Some e'
    /\ ops e `prefix_of` ops e'
    /\ (has_barrier e = true -> e' = e).
Proof.
  rewrite !InitDataVector_view, fold_left_app.
  apply flag_run_extend, flag_run_cur_open. exact I.
Qed.

Lemma InitDataVector_continues_witness :
  exists e e',
    InitDataVector 512 [bio 0 512 0 F_WRITE [1]] = [e]
    /\ InitDataVector 512
         ([bio 0 512 0 F_WRITE [1]] ++ [bio 8 512 0 F_WRITE_FUA [2]])
       !! 0%nat = Some e'
    /\ ops e `prefix_of` ops e'.
Proof.
  destruct (InitDataVector_continues 512 [bio 0 512 0 F_WRITE [1]]
              [bio 8 512 0 F_WRITE_FUA [2]] 0%nat
              (mk_epoch [mk_epoch_op 0 (bio 0 512 0 F_WRITE [1])] 0 false
                 false (-1)))
    as (e' & He' & Hpre & _).
  - vm_compute. reflexivity.
  - eexists _, e'. split; [vm_compute; reflexivity |]. by split.
Defined.

Lemma view_flag_step_cur (v : seg_view) (w : disk_write) :
  length match v_cur (view_flag_step v w) with
         | Some c => [c]
         | None => []
         end
  = if is_barrier w && negb (CanSplitBarrier w) then 0%nat else 1%nat.
Proof.
  unfold view_flag_step. destruct (is_barrier w) eqn:Hb; cbn [negb andb].
  - by destruct (CanSplitBarrier w).
  - by destruct (is_checkpoint w).
Qed.

Lemma barrier_epochs_all (l : list epoch) :
  Forall (fun e => has_barrier e = true) l -> barrier_epochs l = length l.
Proof.
  unfold barrier_epochs. induction 1 as [| e l He _ IH]; [reflexivity |].
  rewrite filter_cons_True by exact He. cbn. by rewrite IH.
Qed.

Lemma flag_run_barrier_epochs (trace : list disk_write) :
  forall v,
    cur_open v ->
    barrier_epochs (v_closed (fold_left view_flag_step trace v))
    = (barrier_epochs (v_closed v) + flag_barriers trace)%nat.
Proof.
  induction trace as [| w rest IH]; intros v Hv.
  - cbn. unfold flag_barriers. cbn. lia.
  - cbn [fold_left].
    destruct (flag_step_barrier_epochs v w Hv) as [Hopen Hstep].
    rewrite (IH _ Hopen), Hstep.
    unfold flag_barriers. rewrite filter_length_cons.
    destruct (is_barrier w); [rewrite decide_True by done |
                              rewrite decide_False by done]; lia.
Qed.

(** X21.  The number of epochs of the flag-only segmenter: one per barrier
    record, and one more unless the trace is empty or ends with a barrier
    that is not split. *)
Theorem InitDataVector_epoch_count (sector_size : Z)
    (trace : list disk_write) :
  length (InitDataVector sector_size trace)
  = (flag_barriers trace + flag_open_after trace)%nat.
Proof.
  rewrite InitDataVector_view. unfold view_epochs. rewrite length_app.
  f_equal.
  - rewrite <- barrier_epochs_all.
    + by rewrite (flag_run_barrier_epochs trace view_flag_init I).
    + apply (view_flag_run_ind
               (fun v => Forall (fun e => has_barrier e = true) (v_closed v)));
        [apply flag_closed_step | constructor].
  - unfold flag_open_after.
    destruct trace as [| w pre _] using rev_ind; [reflexivity |].
    rewrite fold_left_app, last_snoc. cbn [fold_left].
    apply view_flag_step_cur.
Qed.

(** * The two segmenters compared *)

(** X22.  The flag-only segmenter leaves no epoch exactly when the trace
    is empty; the soft segmenter always leaves at least one epoch, also
    for an empty trace. *)
Theorem segmenters_leave_epochs (sector_size : Z) (trace : list disk_write) :
  (InitDataVector sector_size trace = [] <-> trace = [])
  /\ InitDataVectorSoft sector_size trace <> [].
Proof.
  split.
  - split; [| by intros ->].
    destruct trace as [| w pre _] using rev_ind; [done |].
    rewrite InitDataVector_snoc. intros Hnil. exfalso.
    apply (f_equal length) in Hnil. unfold view_epochs in Hnil.
    rewrite length_app, view_flag_step_cur in Hnil.
    unfold view_flag_step in Hnil.
    destruct (is_barrier w); cbn [negb andb] in Hnil; [| cbn in Hnil; lia].
    destruct (CanSplitBarrier w); cbn [v_closed negb] in Hnil;
      rewrite length_app in Hnil; cbn in Hnil; lia.
  - destruct (InitDataVectorSoft_view sector_size trace) as [-> [cur Hcur]].
    unfold view_epochs. rewrite Hcur.
    destruct (drop_empty_tail_cases
                (v_closed (fold_left view_soft_step trace view_soft_init)) cur)
      as [-> | (-> & _ & prev & Hprev & _)].
    + by destruct (v_closed _).
    + intros Hnil. by rewrite Hnil in Hprev.
Qed.

Lemma same_but_id_refl (e : epoch) : same_but_id e e.
Proof. by repeat split. Qed.

Lemma same_but_id_stamp_l (cp : Z) (e e' : epoch) :
  same_but_id e e' -> same_but_id (set_checkpoint_epoch cp e) e'.
Proof. intros H. exact H. Qed.

Lemma same_but_id_stamp_r (cp : Z) (e e' : epoch) :
  same_but_id e e' -> same_but_id e (set_checkpoint_epoch cp e').
Proof. intros H. exact H. Qed.

Lemma same_but_id_add (i : Z) (w : disk_write) (e e' : epoch) :
  same_but_id e e' -> same_but_id (add_op i w e) (add_op i w e').
Proof.
  intros (Ho & Hm & Hv & Hb). unfold same_but_id, add_op.
  cbn [ops num_meta overlaps has_barrier add_num_meta push_back_op].
  by rewrite Ho, Hm, Hv, Hb.
Qed.

Lemma same_but_id_barrier (e e' : epoch) :
  same_but_id e e' ->
  same_but_id (set_has_barrier true e) (set_has_barrier true e').
Proof.
  intros (Ho & Hm & Hv & Hb). unfold same_but_id.
  cbn [ops num_meta overlaps has_barrier set_has_barrier].
  by rewrite Ho, Hm, Hv.
Qed.

Lemma same_but_id_write (i : Z) (w : disk_write) (found : bool)
    (e e' : epoch) :
  same_but_id e e' ->
  same_but_id
    (add_op i w (if found then set_overlaps true e else e))
    (if found then set_overlaps true (add_op i w e') else add_op i w e').
Proof.
  intros (Ho & Hm & Hv & Hb). unfold same_but_id, add_op.
  destruct found;
    cbn [ops num_meta overlaps has_barrier add_num_meta push_back_op
         set_overlaps];
    by rewrite Ho, Hm, ?Hv, Hb.
Qed.

Lemma agree_inv_step (t0 : Z) (vf vs : seg_view) (w : disk_write) :
  checkpoint_wf w ->
  within_delay t0 w ->
  agree_inv t0 vf vs ->
  agree_inv t0 (view_flag_step vf w) (view_soft_step vs w).
Proof.
  intros Hwf Hdelay (Hclosed & (cs & Hcs & Hcur) & Habs & Htime).
  destruct vf as [closed cf ranges cp i lt].
  destruct vs as [closed' c' ranges' cp' i' lt'].
  cbn [v_closed v_cur v_ranges v_checkpoint v_abs_index v_last_time] in *.
  subst c' i'.
  assert (same_but_id
            match cf with
            | Some e => e
            | None => set_checkpoint_epoch cp fresh_epoch
            end cs
          /\ match cf with Some _ => ranges | None => [] end = ranges')
    as [Hsame Hranges].
  { destruct cf; destruct Hcur as [H1 H2]; by split. }
  unfold agree_inv, view_flag_step, view_soft_step, checkpoint_wf,
    within_delay in *.
  cbn [v_closed v_cur v_ranges v_checkpoint v_abs_index v_last_time].
  destruct (is_checkpoint w) eqn:Hc.
  { rewrite (Hwf eq_refl). cbn [negb].
    cbn [v_closed v_cur v_ranges v_checkpoint v_abs_index v_last_time].
    split; [exact Hclosed |]. split; [| by split].
    eexists. split; [reflexivity |]. split; [| exact Hranges].
    destruct (_ =? _)%nat; exact Hsame. }
  destruct (is_barrier w) eqn:Hb; cbn [negb].
  - destruct (CanSplitBarrier w);
      cbn [v_closed v_cur v_ranges v_checkpoint v_abs_index v_last_time];
      (split;
       [apply Forall2_app; [exact Hclosed |];
        constructor; [| constructor];
        by apply same_but_id_barrier, same_but_id_add |]);
      (split; [| split; [reflexivity | by left]]);
      (eexists; split; [reflexivity |]).
    + split; [| reflexivity]. apply same_but_id_add. by repeat split.
    + split; [by repeat split | reflexivity].
  - assert ((0 <? lt')
            && (kSoftEpochMaxDelayNs
                <=? s64 (s64 (time_ns (metadata w)) - lt'))
            = false) as ->.
    { apply andb_false_iff. destruct Htime as [-> | Hlt]; [by left |].
      right. apply Z.leb_gt. unfold kSoftEpochMaxDelayNs in *.
      rewrite s64_small; lia. }
    cbn [v_closed v_cur v_ranges v_checkpoint v_abs_index v_last_time].
    split; [exact Hclosed |]. rewrite Hranges.
    split; [| split; [reflexivity | right; lia]].
    eexists. split; [reflexivity |]. split; [| reflexivity].
    by apply same_but_id_write.
Qed.

Lemma agree_inv_run (t0 : Z) (trace : list disk_write) :
  Forall checkpoint_wf trace ->
  Forall (within_delay t0) trace ->
  forall vf vs,
    agree_inv t0 vf vs ->
    agree_inv t0 (fold_left view_flag_step trace vf)
      (fold_left view_soft_step trace vs).
Proof.
  induction trace as [| w rest IH]; intros Hwf Hdelay vf vs Hinv;
    [exact Hinv |].
  apply Forall_cons in Hwf as [Hw Hwf].
  apply Forall_cons in Hdelay as [Hd Hdelay].
  cbn [fold_left]. apply IH; [exact Hwf | exact Hdelay |].
  by apply agree_inv_step.
Qed.

Lemma Forall2_filter_has_ops (l l' : list epoch) :
  Forall2 same_but_id l l' ->
  Forall2 same_but_id (filter has_ops l) (filter has_ops l').
Proof.
  induction 1 as [| e e' l l' He _ IH]; [constructor |].
  assert (has_ops e <-> has_ops e') as Hiff.
  { unfold has_ops. destruct He as [-> _]. reflexivity. }
  destruct (decide (has_ops e)) as [Hy | Hn].
  - rewrite !filter_cons_True by tauto. by constructor.
  - rewrite !filter_cons_False by tauto. exact IH.
Qed.

Lemma filter_has_ops_drop (closed : list epoch) (cur : epoch) :
  filter has_ops (drop_empty_tail (closed ++ [cur]))
  = filter has_ops (closed ++ [cur]).
Proof.
  destruct (drop_empty_tail_cases closed cur) as [-> | (-> & Hnil & _)];
    [reflexivity |].
  rewrite filter_app, filter_cons_False, filter_nil, app_nil_r; [reflexivity |].
  unfold has_ops. rewrite Hnil. cbn. lia.
Qed.

(** X23.  On a trace that respects the data model and whose writes were
    all submitted within one soft-epoch delay of each other (for instance a
    trace without time stamps), the time rule of the soft segmenter never
    fires: leaving aside epochs without ops, both segmenters build the same
    epochs, with the same ops, meta counts, overlap and barrier marks; only
    the checkpoint ids may differ. *)
Theorem segmenters_agree_within_delay (sector_size t0 : Z)
    (trace : list disk_write) :
  Forall checkpoint_wf trace ->
  Forall (within_delay t0) trace ->
  Forall2 same_but_id
    (filter has_ops (InitDataVector sector_size trace))
    (filter has_ops (InitDataVectorSoft sector_size trace)).
Proof.
  intros Hwf Hdelay.
  destruct (InitDataVectorSoft_view sector_size trace) as [-> _].
  rewrite InitDataVector_view.
  destruct (agree_inv_run t0 trace Hwf Hdelay view_flag_init view_soft_init)
    as (Hclosed & (cs & Hcs & Hcur) & _).
  { split; [constructor |]. split; [| split; [reflexivity | by left]].
    exists fresh_epoch. split; [reflexivity |].
    split; [apply same_but_id_refl | reflexivity]. }
  unfold view_epochs. rewrite Hcs, filter_has_ops_drop, !filter_app.
  apply Forall2_app; [by apply Forall2_filter_has_ops |].
  destruct (v_cur (fold_left view_flag_step trace view_flag_init)) as [cf |].
  - destruct Hcur as [Hsame _].
    apply Forall2_filter_has_ops. constructor; [exact Hsame | constructor].
  - destruct Hcur as [[Hops _] _].
    rewrite filter_cons_False; [constructor |].
    unfold has_ops. rewrite <- Hops. cbn. lia.
Qed.

Lemma segmenters_agree_within_delay_witness :
  Forall2 same_but_id
    (filter has_ops
       (InitDataVector 512
          [bio 0 512 0 F_WRITE [1]; bio 0 0 0 F_FLUSH [];
           bio 8 512 1000 F_WRITE [2]]))
    (filter has_ops
       (InitDataVectorSoft 512
          [bio 0 512 0 F_WRITE [1]; bio 0 0 0 F_FLUSH [];
           bio 8 512 1000 F_WRITE [2]])).
Proof.
  apply (segmenters_agree_within_delay 512 0
           [bio 0 512 0 F_WRITE [1]; bio 0 0 0 F_FLUSH [];
            bio 8 512 1000 F_WRITE [2]]).
  - repeat constructor; unfold checkpoint_wf; cbn; congruence.
  - repeat (apply Forall_cons_2 || apply Forall_nil_2);
      unfold within_delay; vm_compute; (split; [discriminate | reflexivity]).
Defined.
